(** * Translation gateway and segmenter: a shallow embedding

    The development follows the Python sources of the repository:
    - [services/format-service/src/utils.py]: [segment_text] and its helpers;
    - [services/mt-gateway/src/utils.py]: [normalize_text], [detect_language],
      [validate_language_pair];
    - [services/mt-gateway/src/models.py]: the request validators;
    - [services/mt-gateway/src/main.py]: [cache_key], [translate_text],
      [translate_batch];
    - [services/mt-gateway/src/providers.py]: [LibreTranslateProvider].

    Python strings are modelled as lists of characters.  A character is a code
    point in the range 0..255 (Rocq's [ascii]); all character classes below
    ([str.isspace], the [re] classes [\s], [\d], [\w]) are the Python ones
    restricted to that range. *)

From Stdlib Require Import ZArith NArith Ascii String List Bool Lia.
From stdpp Require Import base option list gmap strings.
Import ListNotations.

Local Open Scope Z_scope.

(** ** Python text primitives *)

Module Text.

Definition str : Type := list ascii.

Definition code (c : ascii) : Z := Z.of_N (N_of_ascii c).

Definition between (lo hi : Z) (c : ascii) : bool :=
  (lo <=? code c) && (code c <=? hi).

(** [str.isspace] on one character; also the class [\s] of [re]. *)
Definition isspace (c : ascii) : bool :=
  between 9 13 c || between 28 32 c || (code c =? 133) || (code c =? 160).

(** The class [[a-z]]. *)
Definition is_lower (c : ascii) : bool := between 97 122 c.

(** The class [[A-Z]]. *)
Definition is_upper (c : ascii) : bool := between 65 90 c.

(** The class [\d]. *)
Definition is_digit (c : ascii) : bool := between 48 57 c.

(** The class [\w]: alphanumeric characters and the underscore. *)
Definition is_word (c : ascii) : bool :=
  is_digit c || is_upper c || is_lower c || (code c =? 95)
  || (code c =? 170) || (code c =? 178) || (code c =? 179) || (code c =? 181)
  || (code c =? 185) || (code c =? 186) || between 188 190 c
  || between 192 214 c || between 216 246 c || between 248 255 c.

(** The class [[,.;:!?]]. *)
Definition is_punct (c : ascii) : bool :=
  (code c =? 44) || (code c =? 46) || (code c =? 59) || (code c =? 58)
  || (code c =? 33) || (code c =? 63).

(** The class [[.!?]]. *)
Definition is_terminator (c : ascii) : bool :=
  (code c =? 46) || (code c =? 33) || (code c =? 63).

Definition space : ascii := " "%char.
Definition newline : ascii := ascii_of_nat 10.

Definition len (s : str) : Z := Z.of_nat (length s).

(** Truthiness of a string: [if s:]. *)
Definition nonempty (s : str) : bool :=
  match s with [] => false | _ :: _ => true end.

Fixpoint lstrip (s : str) : str :=
  match s with
  | [] => []
  | c :: t => if isspace c then lstrip t else s
  end.

Fixpoint rstrip (s : str) : str :=
  match s with
  | [] => []
  | c :: t =>
      match rstrip t with
      | [] => if isspace c then [] else [c]
      | t' => c :: t'
      end
  end.

(** [s.strip()] *)
Definition strip (s : str) : str := rstrip (lstrip s).

(** [sep.join(parts)] *)
Fixpoint join (sep : str) (parts : list str) : str :=
  match parts with
  | [] => []
  | [p] => p
  | p :: rest => p ++ sep ++ join sep rest
  end.

(** [s.split()]: the maximal runs of non-whitespace characters.  [cur] is
    the word being read. *)
Fixpoint split_ws_from (cur : str) (s : str) : list str :=
  match s with
  | [] => if nonempty cur then [cur] else []
  | c :: t =>
      if isspace c
      then (if nonempty cur then cur :: split_ws_from [] t
            else split_ws_from [] t)
      else split_ws_from (cur ++ [c]) t
  end.

Definition split_ws (s : str) : list str := split_ws_from [] s.

(** [s.split(sep)] for a one-character separator. *)
Fixpoint split_char_from (sep : ascii) (cur : str) (s : str) : list str :=
  match s with
  | [] => [cur]
  | c :: t =>
      if Ascii.eqb c sep then cur :: split_char_from sep [] t
      else split_char_from sep (cur ++ [c]) t
  end.

Definition split_char (sep : ascii) (s : str) : list str :=
  split_char_from sep [] s.

(** [s.split(sep + sep)] for a doubled one-character separator: matches are
    taken left to right and do not overlap.  [pending] tells that one
    separator character has been read and not yet placed. *)
Fixpoint split_double_from (sep : ascii) (pending : bool) (cur : str)
    (s : str) : list str :=
  match s with
  | [] => [if pending then cur ++ [sep] else cur]
  | c :: t =>
      if Ascii.eqb c sep then
        if pending then cur :: split_double_from sep false [] t
        else split_double_from sep true cur t
      else
        split_double_from sep false
          ((if pending then cur ++ [sep] else cur) ++ [c]) t
  end.

Definition split_double (sep : ascii) (s : str) : list str :=
  split_double_from sep false [] s.

(** [re.sub(r'\s+', ' ', s)]: [in_run] tells that the previous character
    belonged to the whitespace run being replaced. *)
Fixpoint sub_ws_from (in_run : bool) (s : str) : str :=
  match s with
  | [] => []
  | c :: t =>
      if isspace c
      then (if in_run then sub_ws_from true t
            else space :: sub_ws_from true t)
      else c :: sub_ws_from false t
  end.

Definition sub_ws (s : str) : str := sub_ws_from false s.

(** [re.sub(r'([p])([q])', r'\1 \2', s)] for two character classes: the
    scan resumes after the second character of a match. *)
Fixpoint sub_pair (p q : ascii -> bool) (s : str) : str :=
  match s with
  | [] => []
  | a :: t =>
      match t with
      | [] => [a]
      | b :: t' =>
          if p a && q b then a :: space :: b :: sub_pair p q t'
          else a :: sub_pair p q t
      end
  end.

(** State of the scan for [\s*([,.;:!?])\s*]: either a whitespace run has
    been read that may still turn out to precede a mark, or the scan is
    inside the whitespace that follows a matched mark. *)
Inductive punct_state : Type :=
| Scan (pending : str)
| Trail.

Definition flush (st : punct_state) : str :=
  match st with Scan ws => ws | Trail => [] end.

(** [re.sub(r'\s*([,.;:!?])\s*', r'\1 ', s)] *)
Fixpoint sub_punct_from (st : punct_state) (s : str) : str :=
  match s with
  | [] => flush st
  | c :: t =>
      if isspace c then
        match st with
        | Scan ws => sub_punct_from (Scan (ws ++ [c])) t
        | Trail => sub_punct_from Trail t
        end
      else if is_punct c then c :: space :: sub_punct_from Trail t
      else flush st ++ c :: sub_punct_from (Scan []) t
  end.

Definition sub_punct (s : str) : str := sub_punct_from (Scan []) s.

(** [re.sub(r'[^\w\s]', ' ', s)] *)
Definition sub_nonword (s : str) : str :=
  map (fun c => if is_word c || isspace c then c else space) s.

(** [re.sub(r'\d+', ' ', s)] *)
Fixpoint sub_digits_from (in_run : bool) (s : str) : str :=
  match s with
  | [] => []
  | c :: t =>
      if is_digit c
      then (if in_run then sub_digits_from true t
            else space :: sub_digits_from true t)
      else c :: sub_digits_from false t
  end.

Definition sub_digits (s : str) : str := sub_digits_from false s.

(** State of the scan for [[.!?]+\s+]. *)
Inductive sentence_state : Type :=
| Plain                 (* inside a piece *)
| Marks (before : str)  (* in a run of terminators; [before] is the piece
                           as it was when the run started *)
| Gap.                  (* in the whitespace that ends a match *)

(** [re.split(r'[.!?]+\s+', s)]: a run of terminators is a separator only
    when whitespace follows it; otherwise it stays in the piece. *)
Fixpoint re_split_sentences_from (st : sentence_state) (cur : str)
    (s : str) : list str :=
  match s with
  | [] => [cur]
  | c :: t =>
      match st with
      | Plain =>
          if is_terminator c
          then re_split_sentences_from (Marks cur) (cur ++ [c]) t
          else re_split_sentences_from Plain (cur ++ [c]) t
      | Marks before =>
          if is_terminator c
          then re_split_sentences_from (Marks before) (cur ++ [c]) t
          else if isspace c
          then before :: re_split_sentences_from Gap [] t
          else re_split_sentences_from Plain (cur ++ [c]) t
      | Gap =>
          if isspace c then re_split_sentences_from Gap [] t
          else if is_terminator c
          then re_split_sentences_from (Marks []) [c] t
          else re_split_sentences_from Plain [c] t
      end
  end.

Definition re_split_sentences (s : str) : list str :=
  re_split_sentences_from Plain [] s.

(** [a == b] on strings. *)
Fixpoint eqb_str (a b : str) : bool :=
  match a, b with
  | [], [] => true
  | c :: a', d :: b' => Ascii.eqb c d && eqb_str a' b'
  | _, _ => false
  end.

(** [c.lower()] on one character. *)
Definition lower_char (c : ascii) : ascii :=
  if is_upper c || (between 192 222 c && negb (code c =? 215))
  then ascii_of_N (Z.to_N (code c + 32))
  else c.

(** [s.lower()] on the code points below 256, where the lower case of a
    character is one character; beyond them [str.lower] can lengthen a
    string (U+0130 becomes two code points) but never shortens one, so no
    upper bound on the length of a lower-cased string is drawn from this
    definition. *)
Definition lower (s : str) : str := map lower_char s.

End Text.

Export Text.

Coercion list_ascii_of_string : string >-> list.


(** ** The segmenter ([services/format-service/src/utils.py]) *)

Module Segmenter.

(** [SegmentationRule] of [models.py]. *)
Inductive SegmentationRule : Type := SENTENCE | PARAGRAPH | LINE | CUSTOM.

(** [SegmentationOptions] of [models.py]; every field has a default, so an
    options object always carries all of them. *)
Module SegmentationOptions.
Record t : Type := Build {
  rule : SegmentationRule;
  preserve_whitespace : bool;
  merge_short_segments : bool;
  min_segment_length : Z;
  max_segment_length : Z;
  custom_patterns : list str
}.

Definition default : t :=
  Build SENTENCE true false 10 500 [].
End SegmentationOptions.

(** The loop shared by the rule functions and by the last pass of
    [segment_text]: strip every piece and keep the non-empty ones. *)
Fixpoint strip_and_drop_empty (pieces : list str) : list str :=
  match pieces with
  | [] => []
  | p :: rest =>
      let cleaned := strip p in
      if nonempty cleaned then cleaned :: strip_and_drop_empty rest
      else strip_and_drop_empty rest
  end.

Definition segment_by_sentences (text : str) : list str :=
  strip_and_drop_empty (re_split_sentences text).

Definition segment_by_paragraphs (text : str) : list str :=
  strip_and_drop_empty (split_double newline text).

(** State of the loop of [split_long_segment]. *)
Record split_state : Type := SplitState {
  parts : list str;
  current_part : list str;
  current_length : Z
}.

Definition split_step (max_len : Z) (st : split_state) (word : str)
    : split_state :=
  let word_length := len word + 1 in
  if current_length st + word_length <=? max_len then
    SplitState (parts st) (current_part st ++ [word])
               (current_length st + word_length)
  else
    match current_part st with
    | _ :: _ =>
        SplitState (parts st ++ [join [space] (current_part st)])
                   [word] (len word)
    | [] =>
        SplitState (parts st ++ [word]) (current_part st)
                   (current_length st)
    end.

Definition split_finish (st : split_state) : list str :=
  match current_part st with
  | _ :: _ => parts st ++ [join [space] (current_part st)]
  | [] => parts st
  end.

Definition split_long_segment (segment : str) (max_len : Z) : list str :=
  split_finish
    (fold_left (split_step max_len) (split_ws segment)
               (SplitState [] [] 0)).

(** [l[-1] += x] on a non-empty list. *)
Fixpoint append_to_last (l : list str) (x : str) : list str :=
  match l with
  | [] => []
  | [a] => [a ++ x]
  | a :: rest => a :: append_to_last rest x
  end.

Definition constrain_step (min_len max_len : Z) (constrained : list str)
    (segment : str) : list str :=
  if len segment <? min_len then
    match constrained with
    | _ :: _ => append_to_last constrained (space :: segment)
    | [] => constrained ++ [segment]
    end
  else if max_len <? len segment then
    constrained ++ split_long_segment segment max_len
  else constrained ++ [segment].

Definition apply_length_constraints (segments : list str)
    (min_len max_len : Z) : list str :=
  fold_left (constrain_step min_len max_len) segments [].

Definition merge_step (threshold : Z) (st : list str * str)
    (next_segment : str) : list str * str :=
  let '(merged, current_segment) := st in
  if len current_segment <? threshold
  then (merged, current_segment ++ space :: next_segment)
  else (merged ++ [current_segment], next_segment).

Definition merge_short_segments (segments : list str) (threshold : Z)
    : list str :=
  match segments with
  | [] => segments
  | first :: rest =>
      let '(merged, current_segment) :=
        fold_left (merge_step threshold) rest ([], first) in
      merged ++ [current_segment]
  end.

Section WithRegexEngine.

(** [re.split(pattern, text)] for a caller-supplied pattern; [None] when
    [re] raises on it or returns a piece that cannot be stripped. *)
Variable re_split : str -> str -> option (list str).

Definition segment_by_custom_patterns (text : str) (patterns : list str)
    : list str :=
  match patterns with
  | [] => segment_by_sentences text
  | pattern :: _ =>
      match re_split pattern text with
      | Some segments => strip_and_drop_empty segments
      | None => segment_by_sentences text
      end
  end.

(** The candidate sequence the selected rule produces; without options
    the sentence rule applies. *)
Definition rule_candidates (text : str)
    (options : option SegmentationOptions.t) : list str :=
  match options with
  | None => segment_by_sentences text
  | Some o =>
      match SegmentationOptions.rule o with
      | SENTENCE => segment_by_sentences text
      | PARAGRAPH => segment_by_paragraphs text
      | LINE => split_char newline text
      | CUSTOM =>
          segment_by_custom_patterns text
            (SegmentationOptions.custom_patterns o)
      end
  end.

Definition segment_text (text : str)
    (options : option SegmentationOptions.t) : list str :=
  if negb (nonempty (strip text)) then []
  else
    let sentences := rule_candidates text options in
    let sentences :=
      match options with
      | None => sentences
      | Some o =>
          let sentences :=
            apply_length_constraints sentences
              (SegmentationOptions.min_segment_length o)
              (SegmentationOptions.max_segment_length o) in
          if SegmentationOptions.merge_short_segments o
          then merge_short_segments sentences 50
          else sentences
      end in
    strip_and_drop_empty sentences.

End WithRegexEngine.

End Segmenter.

(** ** Exceptions and results *)

Module Py.

(** The exceptions the gateway raises or lets through.  [StrOf e] stands
    for [str(e)], which the handlers put into the detail of the error they
    raise in turn. *)
Inductive exn : Type :=
| HTTPException (status_code : Z) (detail : message)
| Error (kind : str) (msg : message)
with message : Type :=
| Text (s : str)
| StrOf (e : exn).

Inductive result (A : Type) : Type :=
| Ok (a : A)
| Raise (e : exn).

Arguments Ok {A} a.
Arguments Raise {A} e.

Definition status (e : exn) : option Z :=
  match e with
  | HTTPException status_code _ => Some status_code
  | Error _ _ => None
  end.

End Py.

Export Py.

(** ** The content digest ([hashlib.md5]) and the byte encoding of text *)

Module Digest.

Definition two32 : Z := 2 ^ 32.

Definition add32 (a b : Z) : Z := (a + b) mod two32.

Definition not32 (a : Z) : Z := Z.lxor a (two32 - 1).

Definition rotl32 (x c : Z) : Z :=
  Z.lor (Z.shiftl x c mod two32) (Z.shiftr x (32 - c)).

Definition shifts : list Z :=
  [7; 12; 17; 22; 7; 12; 17; 22; 7; 12; 17; 22; 7; 12; 17; 22;
   5; 9; 14; 20; 5; 9; 14; 20; 5; 9; 14; 20; 5; 9; 14; 20;
   4; 11; 16; 23; 4; 11; 16; 23; 4; 11; 16; 23; 4; 11; 16; 23;
   6; 10; 15; 21; 6; 10; 15; 21; 6; 10; 15; 21; 6; 10; 15; 21].

Definition sines : list Z :=
  [0xd76aa478; 0xe8c7b756; 0x242070db; 0xc1bdceee;
   0xf57c0faf; 0x4787c62a; 0xa8304613; 0xfd469501;
   0x698098d8; 0x8b44f7af; 0xffff5bb1; 0x895cd7be;
   0x6b901122; 0xfd987193; 0xa679438e; 0x49b40821;
   0xf61e2562; 0xc040b340; 0x265e5a51; 0xe9b6c7aa;
   0xd62f105d; 0x02441453; 0xd8a1e681; 0xe7d3fbc8;
   0x21e1cde6; 0xc33707d6; 0xf4d50d87; 0x455a14ed;
   0xa9e3e905; 0xfcefa3f8; 0x676f02d9; 0x8d2a4c8a;
   0xfffa3942; 0x8771f681; 0x6d9d6122; 0xfde5380c;
   0xa4beea44; 0x4bdecfa9; 0xf6bb4b60; 0xbebfbc70;
   0x289b7ec6; 0xeaa127fa; 0xd4ef3085; 0x04881d05;
   0xd9d4d039; 0xe6db99e5; 0x1fa27cf8; 0xc4ac5665;
   0xf4292244; 0x432aff97; 0xab9423a7; 0xfc93a039;
   0x655b59c3; 0x8f0ccc92; 0xffeff47d; 0x85845dd1;
   0x6fa87e4f; 0xfe2ce6e0; 0xa3014314; 0x4e0811a1;
   0xf7537e82; 0xbd3af235; 0x2ad7d2bb; 0xeb86d391].

Record registers : Type := Registers { ra : Z; rb : Z; rc : Z; rd : Z }.

Definition initial : registers :=
  Registers 0x67452301 0xefcdab89 0x98badcfe 0x10325476.

(** One of the 64 operations on a block of sixteen words. *)
Definition operation (block : list Z) (r : registers) (i : Z) : registers :=
  let '(Registers a b c d) := r in
  let '(f, g) :=
    if i <? 16 then (Z.lor (Z.land b c) (Z.land (not32 b) d), i)
    else if i <? 32 then
      (Z.lor (Z.land d b) (Z.land (not32 d) c), (5 * i + 1) mod 16)
    else if i <? 48 then (Z.lxor b (Z.lxor c d), (3 * i + 5) mod 16)
    else (Z.lxor c (Z.lor b (not32 d)), (7 * i) mod 16) in
  let f := add32 (add32 (add32 f a) (nth (Z.to_nat i) sines 0))
                 (nth (Z.to_nat g) block 0) in
  Registers d (add32 b (rotl32 f (nth (Z.to_nat i) shifts 0))) b c.

Definition process_block (r : registers) (block : list Z) : registers :=
  let r' := fold_left (operation block) (map Z.of_nat (seq 0 64)) r in
  Registers (add32 (ra r) (ra r')) (add32 (rb r) (rb r'))
            (add32 (rc r) (rc r')) (add32 (rd r) (rd r')).

(** Little-endian bytes of a number. *)
Fixpoint bytes_le (n : nat) (x : Z) : list Z :=
  match n with
  | O => []
  | S n' => x mod 256 :: bytes_le n' (x / 256)
  end.

Fixpoint word_le (bytes : list Z) : Z :=
  match bytes with
  | [] => 0
  | b :: rest => b + 256 * word_le rest
  end.

(** The message followed by the bit 1, zeros up to 56 modulo 64 bytes, and
    the length of the message in bits. *)
Definition pad_message (bytes : list Z) : list Z :=
  let n := Z.of_nat (length bytes) in
  let zeros := Z.to_nat ((55 - n) mod 64) in
  bytes ++ [128] ++ repeat 0 zeros ++ bytes_le 8 ((8 * n) mod 2 ^ 64).

(** Consecutive groups of [size] elements ([fuel] bounds their number). *)
Fixpoint chunks {A : Type} (fuel : nat) (size : nat) (l : list A)
    : list (list A) :=
  match fuel with
  | O => []
  | S fuel' =>
      match l with
      | [] => []
      | _ => firstn size l :: chunks fuel' size (skipn size l)
      end
  end.

(** [hashlib.md5(bytes).digest()] *)
Definition md5 (bytes : list Z) : list Z :=
  let padded := pad_message bytes in
  let blocks :=
    map (fun block => map word_le (chunks 16 4 block))
        (chunks (length padded) 64 padded) in
  let r := fold_left process_block blocks initial in
  bytes_le 4 (ra r) ++ bytes_le 4 (rb r) ++ bytes_le 4 (rc r)
  ++ bytes_le 4 (rd r).

Definition hex_digit (d : Z) : ascii :=
  if d <? 10 then ascii_of_N (Z.to_N (48 + d))
  else ascii_of_N (Z.to_N (87 + d)).

Definition hex_byte (b : Z) : str := [hex_digit (b / 16); hex_digit (b mod 16)].

(** [hashlib.md5(bytes).hexdigest()] *)
Definition md5_hexdigest (bytes : list Z) : str :=
  concat (map hex_byte (md5 bytes)).

(** [s.encode()]: UTF-8, for code points below 256. *)
Definition encode_char (c : ascii) : list Z :=
  if code c <? 128 then [code c]
  else [Z.lor 192 (Z.shiftr (code c) 6); Z.lor 128 (Z.land (code c) 63)].

Definition encode (s : str) : list Z := concat (map encode_char s).

End Digest.

(** ** Providers ([services/mt-gateway/src/providers.py]) *)

Module Providers.

(** An entry of [supported_pairs]. *)
Record LanguagePair : Type := Pair {
  source : str;
  target : str;
  name : str
}.

(** The interface of [BaseMTProvider], as the handlers see a provider. *)
Record Provider : Type := {
  get_supported_languages : result (list LanguagePair);
  translate : str -> str -> str -> result str;
  translate_batch : list str -> str -> str -> result (list str)
}.

(** *** [LibreTranslateProvider] *)

(** The body of a [POST /translate] request. *)
Record payload : Type := Payload {
  q : str;
  payload_source : str;
  payload_target : str
}.

(** What a [POST /translate] comes back with: a JSON object, in which the
    key [translatedText] may be missing, or a failure (time-out, transport
    error, error status, malformed body). *)
Inductive http_outcome : Type :=
| Answered (translatedText : option str)
| Failed (e : exn).

Record LibreTranslateProvider : Type := Libre {
  url : str;
  initialized : bool;
  supported_pairs : list LanguagePair
}.

(** The pairs [initialize] builds. *)
Definition libre_pairs : list LanguagePair :=
  let source_langs : list str := ["ar" : str; "es" : str; "fr" : str] in
  let target_langs : list str := ["en" : str] in
  flat_map
    (fun src =>
       map (fun tgt => Pair src tgt (src ++ " -> " ++ tgt))
           (target_langs
            ++ List.filter (fun l => negb (eqb_str l src)) source_langs))
    source_langs.

Section Libre.

(** The LibreTranslate server. *)
Variable post : payload -> http_outcome.

(** [translate]: the result and the requests posted. *)
Definition libre_translate (self : LibreTranslateProvider)
    (text src tgt : str) : result str * list payload :=
  if negb (initialized self) then
    (Raise (Error "RuntimeError" (Text "Provider not initialized")), [])
  else
    let request := Payload text src tgt in
    match post request with
    | Answered (Some translated) => (Ok translated, [request])
    | Answered None => (Ok text, [request])
    | Failed e => (Raise e, [request])
    end.

(** [translate_batch]: one [translate] per text, gathered with
    [return_exceptions=True]; the results come in the order of the tasks. *)
Definition libre_translate_batch (self : LibreTranslateProvider)
    (texts : list str) (src tgt : str) : result (list str) * list payload :=
  let tasks := map (fun text => libre_translate self text src tgt) texts in
  let results := map fst tasks in
  let translations :=
    imap (fun i result =>
            match result with
            | Raise _ => default [] (texts !! i)  (* Return original on error *)
            | Ok translated => translated
            end) results in
  (Ok translations, concat (map snd tasks)).

(** The provider as the handlers use it. *)
Definition libre_provider (self : LibreTranslateProvider) : Provider :=
  {| get_supported_languages := Ok (supported_pairs self);
     translate := fun text src tgt => fst (libre_translate self text src tgt);
     translate_batch :=
       fun texts src tgt => fst (libre_translate_batch self texts src tgt) |}.

End Libre.

End Providers.

(** ** Text utilities of the gateway ([services/mt-gateway/src/utils.py]) *)

Module MtUtils.

Definition normalize_text (text : str) : str :=
  if negb (nonempty text) then text
  else
    (* Remove extra whitespace *)
    let text := sub_ws (strip text) in
    (* Fix common issues with scanned documents *)
    let text := sub_pair is_lower is_upper text in
    let text := sub_pair is_digit is_upper text in
    let text := sub_pair is_lower is_digit text in
    (* Normalize punctuation spacing *)
    let text := sub_punct text in
    sub_ws (strip text).

(** [lang_mapping.get(detected, detected)] *)
Definition lang_mapping (detected : str) : str :=
  if eqb_str detected "ca" then "es" : str      (* Catalan -> Spanish *)
  else if eqb_str detected "pt" then "es" : str (* Portuguese -> Spanish *)
  else detected.

(** The text handed to the detector. *)
Definition clean_for_detection (text : str) : str :=
  let clean_text := sub_nonword text in
  let clean_text := sub_digits clean_text in
  sub_ws (strip clean_text).

Section Detection.

(** [langdetect.detect], which raises when it finds no features. *)
Variable detect : str -> result str.

Definition detect_language (text : str) : option str :=
  if negb (nonempty text) || (len (strip text) <? 3) then None
  else
    let clean_text := clean_for_detection text in
    if len clean_text <? 10 then None
    else
      match detect clean_text with
      | Ok detected => Some (lang_mapping detected)
      | Raise _ => None
      end.

End Detection.

Definition validate_language_pair (provider : Providers.Provider)
    (src tgt : str) : bool :=
  match Providers.get_supported_languages provider with
  | Ok supported =>
      existsb (fun pair => eqb_str (Providers.source pair) src
                           && eqb_str (Providers.target pair) tgt)
              supported
  | Raise _ => false
  end.

End MtUtils.

(** ** Request and response models ([services/mt-gateway/src/models.py]) *)

Module Models.

Definition ValueError (msg : str) : exn := Error "ValueError" (Text msg).

(** The validator of [src] and [tgt]. *)
Definition validate_language_codes (v : str) : str :=
  if eqb_str v "ara" then "ar" : str
  else if eqb_str v "spa" then "es" : str
  else if eqb_str v "fra" then "fr" : str
  else if eqb_str v "eng" then "en" : str
  else lower v.

Definition validate_text (v : str) : result str :=
  if negb (nonempty (strip v)) then Raise (ValueError "Text cannot be empty")
  else Ok (strip v).

(** The validator of [segments]. *)
Definition validate_segments (v : list str) : result (list str) :=
  match v with
  | [] => Raise (ValueError "Segments list cannot be empty")
  | _ =>
      (* Filter out empty segments *)
      let filtered :=
        map strip (List.filter (fun s => nonempty (strip s)) v) in
      match filtered with
      | [] => Raise (ValueError "All segments are empty")
      | _ =>
          match List.find (fun segment => 5000 <? len segment) filtered with
          | Some segment =>
              Raise (ValueError ("Segment too long (max 5000 chars): "
                                 ++ firstn 100 segment ++ "..."))
          | None => Ok filtered
          end
      end
  end.

Record TranslationRequest : Type := {
  text : str;
  src : str;
  tgt : str
}.

Record BatchTranslationRequest : Type := {
  segments : list str;
  batch_src : str;
  batch_tgt : str
}.

Definition length_between (lo hi : Z) (n : Z) : bool :=
  (lo <=? n) && (n <=? hi).

Definition constraint_error : exn :=
  Error "ValidationError" (Text "field constraint violated").

(** Building the request from the body a client sends: the constraints of
    the fields, then the validators. *)
Definition parse_batch_request (raw_segments : list str) (raw_src raw_tgt : str)
    : result BatchTranslationRequest :=
  if negb (length_between 1 500 (Z.of_nat (length raw_segments))
           && length_between 2 5 (len raw_src)
           && length_between 2 5 (len raw_tgt))
  then Raise constraint_error
  else
    match validate_segments raw_segments with
    | Raise e => Raise e
    | Ok filtered =>
        Ok {| segments := filtered;
              batch_src := validate_language_codes raw_src;
              batch_tgt := validate_language_codes raw_tgt |}
    end.

Definition parse_request (raw_text raw_src raw_tgt : str)
    : result TranslationRequest :=
  if negb (length_between 1 5000 (len raw_text)
           && length_between 2 5 (len raw_src)
           && length_between 2 5 (len raw_tgt))
  then Raise constraint_error
  else
    match validate_text raw_text with
    | Raise e => Raise e
    | Ok stripped =>
        Ok {| text := stripped;
              src := validate_language_codes raw_src;
              tgt := validate_language_codes raw_tgt |}
    end.

Record TranslationResponse : Type := {
  response_text : str;
  response_src : str;
  response_tgt : str;
  response_provider : str;
  cached : bool
}.

Record BatchTranslationResponse : Type := {
  response_segments : list str;
  batch_response_src : str;
  batch_response_tgt : str;
  batch_response_provider : str;
  count : Z;
  cached_count : Z
}.

End Models.

(** ** The gateway handlers ([services/mt-gateway/src/main.py]) *)

Module Main.

Import Providers Models MtUtils.

(** [cache_key] *)
Definition cache_key (text src tgt provider : str) : str :=
  let content := provider ++ ":" ++ src ++ ":" ++ tgt ++ ":" ++ text in
  "mt:" ++ firstn 16 (Digest.md5_hexdigest (Digest.encode content)).

Arguments cache_key : simpl never.

(** A call that reached the provider. *)
Inductive provider_call : Type :=
| CallTranslate (text src tgt : str)
| CallTranslateBatch (texts : list str) (src tgt : str).

(** A scheduled [redis_client.setex(key, ttl, value)]. *)
Record cache_write : Type := Setex {
  write_key : str;
  write_ttl : Z;
  write_value : str
}.

(** What a handler can read and change: the cache behind [redis_client]
    ([None] when the connection failed at start-up), the calls made to the
    provider, and the tasks handed to [background_tasks].  Metrics, logging
    and the clock are left out; a connected cache is taken to answer. *)
Record world : Type := World {
  redis_client : option (gmap str str);
  provider_calls : list provider_call;
  background_tasks : list cache_write
}.

(** Handlers as computations that may raise. *)
Definition handler (A : Type) : Type := world -> result A * world.

Definition ret {A : Type} (a : A) : handler A := fun w => (Ok a, w).

Definition raise {A : Type} (e : exn) : handler A := fun w => (Raise e, w).

Definition bind {A B : Type} (m : handler A) (f : A -> handler B)
    : handler B :=
  fun w =>
    match m w with
    | (Ok a, w') => f a w'
    | (Raise e, w') => (Raise e, w')
    end.

Notation "'let*' x := m 'in' k" := (bind m (fun x => k))
  (at level 10, x name, m at level 100, k at level 200).

Notation "'run' m 'then' k" := (bind m (fun _ => k))
  (at level 10, m at level 100, k at level 200).

(** [try: body  except Exception as e: raise HTTPException(500, str(e))] *)
Definition except_500 {A : Type} (body : handler A) : handler A :=
  fun w =>
    match body w with
    | (Ok a, w') => (Ok a, w')
    | (Raise e, w') => (Raise (HTTPException 500 (StrOf e)), w')
    end.

(** The cached value a handler uses for [key]: nothing without a client,
    and nothing for an empty string, which is falsy. *)
Definition cache_get (cache : option (gmap str str)) (key : str) : option str :=
  match cache with
  | None => None
  | Some entries =>
      match entries !! key with
      | Some cached => if nonempty cached then Some cached else None
      | None => None
      end
  end.

Definition cached_value (key : str) : handler (option str) :=
  fun w => (Ok (cache_get (redis_client w) key), w).

(** [if redis_client: redis_client.setex(key, ttl, value)] *)
Definition setex_if_connected (key : str) (ttl : Z) (value : str)
    : handler unit :=
  fun w =>
    match redis_client w with
    | None => (Ok tt, w)
    | Some entries =>
        (Ok tt, World (Some (<[key := value]> entries)) (provider_calls w)
                      (background_tasks w))
    end.

(** [if redis_client: background_tasks.add_task(setex ...)] *)
Definition add_task_if_connected (key : str) (ttl : Z) (value : str)
    : handler unit :=
  fun w =>
    match redis_client w with
    | None => (Ok tt, w)
    | Some _ =>
        (Ok tt, World (redis_client w) (provider_calls w)
                      (background_tasks w ++ [Setex key ttl value]))
    end.

Definition record_call (call : provider_call) : handler unit :=
  fun w =>
    (Ok tt, World (redis_client w) (provider_calls w ++ [call])
                  (background_tasks w)).

Definition lift {A : Type} (r : result A) : handler A := fun w => (r, w).

(** Running the scheduled writes, after the response. *)
Definition run_background_tasks (w : world) : world :=
  match redis_client w with
  | None => World None (provider_calls w) []
  | Some entries =>
      World (Some (fold_left (fun m t => <[write_key t := write_value t]> m)
                             (background_tasks w) entries))
            (provider_calls w) []
  end.

Section Handlers.

(** [os.getenv("MT_PROVIDER", "LIBRE")] and the provider [get_provider]
    returns. *)
Variable mt_provider : str.
Variable provider : Provider.

Definition unsupported_pair (src tgt : str) : exn :=
  HTTPException 400
    (Text ("Language pair " ++ src ++ "->" ++ tgt ++ " not supported")).

Definition translate_text (request : TranslationRequest)
    : handler TranslationResponse :=
  except_500 (
    (* Validate language pair *)
    if negb (validate_language_pair provider (src request) (tgt request))
    then raise (unsupported_pair (src request) (tgt request))
    else
      (* Check cache first *)
      let cache_key_str :=
        cache_key (text request) (src request) (tgt request) mt_provider in
      let* cached := cached_value cache_key_str in
      match cached with
      | Some cached =>
          ret {| response_text := cached;
                 response_src := src request;
                 response_tgt := tgt request;
                 response_provider := mt_provider;
                 Models.cached := true |}
      | None =>
          (* Normalize text *)
          let normalized_text := normalize_text (text request) in
          (* Translate *)
          run record_call
               (CallTranslate normalized_text (src request) (tgt request))
          then
          let* translated :=
            lift (translate provider normalized_text (src request)
                            (tgt request)) in
          (* Cache result *)
          run setex_if_connected cache_key_str 3600 translated then
          ret {| response_text := translated;
                 response_src := src request;
                 response_tgt := tgt request;
                 response_provider := mt_provider;
                 Models.cached := false |}
      end).

(** State of the first loop of [translate_batch]. *)
Record lookup_state : Type := LookupState {
  translations : list (option str);
  uncached_indices : list nat;
  uncached_texts : list str
}.

Definition lookup_step (cache : option (gmap str str)) (src tgt : str)
    (st : lookup_state) (item : nat * str) : lookup_state :=
  let '(i, text) := item in
  match cache_get cache (cache_key text src tgt mt_provider) with
  | Some cached =>
      LookupState (translations st ++ [Some cached]) (uncached_indices st)
                  (uncached_texts st)
  | None =>
      (* Not cached *)
      LookupState (translations st ++ [None]) (uncached_indices st ++ [i])
                  (uncached_texts st ++ [normalize_text text])
  end.

(** [enumerate(l)] *)
Definition enumerate {A : Type} (l : list A) : list (nat * A) :=
  combine (seq 0 (length l)) l.

(** The second loop: fill in translations and schedule the cache writes. *)
Fixpoint fill (request : BatchTranslationRequest)
    (pairs : list (nat * str)) (translations : list (option str))
    : handler (list (option str)) :=
  match pairs with
  | [] => ret translations
  | (idx, translation) :: rest =>
      let translations := <[idx := Some translation]> translations in
      (* Cache in background *)
      run add_task_if_connected
            (cache_key (default [] (segments request !! idx))
                       (batch_src request) (batch_tgt request) mt_provider)
            3600 translation
      then fill request rest translations
  end.

(** Building the response: [segments] is declared [List[str]], so a
    position still holding [None] is refused. *)
Definition build_response (request : BatchTranslationRequest)
    (translations : list (option str)) (uncached : nat)
    : result BatchTranslationResponse :=
  match mapM id translations with
  | None =>
      Raise (Error "ValidationError"
                   (Text "none is not an allowed value"))
  | Some segs =>
      Ok {| response_segments := segs;
            batch_response_src := batch_src request;
            batch_response_tgt := batch_tgt request;
            batch_response_provider := mt_provider;
            count := Z.of_nat (length translations);
            cached_count :=
              Z.of_nat (length (segments request)) - Z.of_nat uncached |}
  end.

Definition translate_batch (request : BatchTranslationRequest)
    : handler BatchTranslationResponse :=
  except_500 (
    (* Validate language pair *)
    if negb (validate_language_pair provider (batch_src request)
                                    (batch_tgt request))
    then raise (unsupported_pair (batch_src request) (batch_tgt request))
    (* Check batch size *)
    else if 500 <? Z.of_nat (length (segments request))
    then raise (HTTPException 400
                  (Text "Batch size too large (max 500 segments)"))
    else
      fun w =>
        (* Check cache for each segment *)
        let st :=
          fold_left
            (lookup_step (redis_client w) (batch_src request)
                         (batch_tgt request))
            (enumerate (segments request)) (LookupState [] [] []) in
        (let* filled :=
           (* Translate uncached segments *)
           match uncached_texts st with
           | [] => ret (translations st)
           | _ :: _ =>
               run record_call
                    (CallTranslateBatch (uncached_texts st)
                       (batch_src request) (batch_tgt request))
               then
               let* translated_batch :=
                 lift (translate_batch provider (uncached_texts st)
                                       (batch_src request)
                                       (batch_tgt request)) in
               (* Fill in translations and cache *)
               fill request (combine (uncached_indices st) translated_batch)
                    (translations st)
           end in
         lift (build_response request filled (length (uncached_texts st)))) w).

End Handlers.

End Main.

(** ** Vocabulary of the properties *)

Module Props.

(** The characters of [s] that satisfy [keep], in order. *)
Definition essence (keep : ascii -> bool) (s : str) : str :=
  List.filter keep s.

Arguments essence : simpl never.

Definition not_space (c : ascii) : bool := negb (isspace c).

(** The run of sentence terminators at the start of [s], possibly empty,
    is followed by whitespace. *)
Fixpoint run_before_space (s : str) : bool :=
  match s with
  | [] => false
  | c :: t => if is_terminator c then run_before_space t else isspace c
  end.

(** The characters of a text that are neither whitespace nor a terminator
    (. ! ?) of a run that whitespace follows: a terminator inside a word
    ("3.14", "a.b?c") or at the very end of the text stays. *)
Fixpoint without_sentence_breaks (s : str) : str :=
  match s with
  | [] => []
  | c :: t =>
      if isspace c then without_sentence_breaks t
      else if is_terminator c && run_before_space t
      then without_sentence_breaks t
      else c :: without_sentence_breaks t
  end.

(** A single word: no whitespace inside. *)
Definition single_word (s : str) : Prop :=
  Forall (fun c => isspace c = false) s.


(** The rule in force is one of the built-in ones (no caller-supplied
    regular expression). *)
Definition builtin_rule (options : option Segmenter.SegmentationOptions.t)
    : Prop :=
  match options with
  | None => True
  | Some o =>
      Segmenter.SegmentationOptions.rule o <> Segmenter.CUSTOM
  end.

(** The rule in force splits on newlines only. *)
Definition newline_rule (options : option Segmenter.SegmentationOptions.t)
    : Prop :=
  match options with
  | None => False
  | Some o =>
      Segmenter.SegmentationOptions.rule o = Segmenter.PARAGRAPH
      \/ Segmenter.SegmentationOptions.rule o = Segmenter.LINE
  end.

(** A pair of adjacent characters that one of the three splitting
    substitutions of [normalize_text] separates. *)
Definition split_pair (a b : ascii) : bool :=
  (is_lower a && is_upper b) || (is_digit a && is_upper b)
  || (is_lower a && is_digit b).

Definition no_pair : ascii -> ascii -> bool := fun _ _ => false.

(** Tidy texts: every whitespace character is one space, between two
    non-whitespace characters, and no adjacent pair is in [bad].  [prev] is
    the character before the text. *)
Fixpoint tidy (bad : ascii -> ascii -> bool) (prev : option ascii)
    (s : str) : Prop :=
  match s with
  | [] => match prev with Some a => isspace a = false | None => True end
  | c :: t =>
      (if isspace c
       then c = space
            /\ match prev with Some a => isspace a = false | None => False end
       else match prev with Some a => bad a c = false | None => True end)
      /\ tidy bad (Some c) t
  end.

(** What precedes the rest of a text with normalized punctuation. *)
Inductive context : Type :=
| AtStart
| AfterMark                     (* a punctuation mark *)
| AfterGap (after_mark : bool)  (* one space, after a mark or after a word
                                   character *)
| AfterWord (a : ascii).        (* a character that is neither whitespace
                                   nor a mark *)

Definition advance (k : context) (c : ascii) : option context :=
  if isspace c then
    if Ascii.eqb c space then
      match k with
      | AfterMark => Some (AfterGap true)
      | AfterWord _ => Some (AfterGap false)
      | _ => None
      end
    else None
  else if is_punct c then
    match k with
    | AfterMark | AfterGap false => None
    | _ => Some AfterMark
    end
  else
    match k with
    | AfterMark => None
    | AfterWord a => if split_pair a c then None else Some (AfterWord c)
    | _ => Some (AfterWord c)
    end.

(** Texts with normalized punctuation: a mark is followed by one space, no
    whitespace precedes a mark except the space of the mark before it,
    whitespace is single spaces, and no adjacent pair is a [split_pair].
    [final] tells in which contexts the text may end. *)
Fixpoint spaced (final : context -> bool) (k : context) (s : str) : Prop :=
  match s with
  | [] => final k = true
  | c :: t =>
      match advance k c with
      | Some k' => spaced final k' t
      | None => False
      end
  end.

(** After the punctuation pass: every mark has its space, also the last. *)
Definition final_punct (k : context) : bool :=
  match k with AfterMark | AfterGap false => false | _ => true end.

(** After the last strip: the text does not end with a space. *)
Definition final_normal (k : context) : bool :=
  match k with AfterGap _ => false | _ => true end.

(** The texts [normalize_text] returns. *)
Definition normal (s : str) : Prop := spaced final_normal AtStart s.

(** The text ends with a punctuation mark. *)
Fixpoint ends_with_mark (s : str) : bool :=
  match s with
  | [] => false
  | [c] => is_punct c
  | _ :: t => ends_with_mark t
  end.

(** *** The batch coordinator, as the specification words it *)

Section BatchSpec.

Variable mt_provider : str.
Variable cache : option (gmap str str).
Variables src tgt : str.

(** The usable cache entry of a segment. *)
Definition cached_for (segment : str) : option str :=
  Main.cache_get cache (Main.cache_key segment src tgt mt_provider).

Definition is_miss (segment : str) : bool :=
  match cached_for segment with None => true | Some _ => false end.

(** The miss list: the segments without a cache entry, in their order. *)
Definition misses (segments : list str) : list str :=
  List.filter is_miss segments.

(** The positions of the misses, counted from [n]. *)
Fixpoint miss_indices (n : nat) (segments : list str) : list nat :=
  match segments with
  | [] => []
  | s :: rest =>
      if is_miss s then n :: miss_indices (S n) rest
      else miss_indices (S n) rest
  end.

(** Hits stay at their position; the translated misses are scattered back
    to theirs, in order. *)
Fixpoint merge_in_order (segments : list str) (translated : list str)
    : list (option str) :=
  match segments with
  | [] => []
  | s :: rest =>
      match cached_for s with
      | Some cached => Some cached :: merge_in_order rest translated
      | None =>
          match translated with
          | t :: translated' => Some t :: merge_in_order rest translated'
          | [] => None :: merge_in_order rest []
          end
      end
  end.

(** What the response holds at position [i]: for a hit its cache entry, for
    a miss the translation of its rank among the misses. *)
Definition expected_at (segments translated : list str) (i : nat)
    : option str :=
  match segments !! i with
  | None => None
  | Some s =>
      match cached_for s with
      | Some cached => Some cached
      | None => translated !! length (misses (firstn i segments))
      end
  end.

End BatchSpec.

(** *** Invariants and auxiliary notions of the proofs *)

(** What the pieces still to come contain, by the state of the scan: in a
    run of terminators the run is dropped when whitespace follows it, and
    otherwise belongs to the piece being read. *)
Definition sentence_rest (st : sentence_state) (cur s : str) : str :=
  match st with
  | Plain | Gap => essence not_space cur ++ without_sentence_breaks s
  | Marks before =>
      if run_before_space s
      then essence not_space before ++ without_sentence_breaks s
      else essence not_space cur ++ without_sentence_breaks s
  end.

(** A flushed group of words: short enough once joined, or one word. *)
Definition good_group (max_len : Z) (g : list str) : Prop :=
  g <> [] /\ (len (join [space] g) <= max_len \/ exists w, g = [w]).

(** The words read so far are the flushed groups followed by the group
    being accumulated, and [current_length] bounds its joined length. *)
Definition split_inv (max_len : Z) (done : list str)
    (st : Segmenter.split_state) : Prop :=
  exists groups,
    Segmenter.parts st = map (join [space]) groups
    /\ concat groups ++ Segmenter.current_part st = done
    /\ Forall (good_group max_len) groups
    /\ match Segmenter.current_part st with
       | [] => Segmenter.current_length st = 0
       | _ :: _ =>
           len (join [space] (Segmenter.current_part st))
           <= Segmenter.current_length st
           /\ (Segmenter.current_length st <= max_len
               \/ exists w, Segmenter.current_part st = [w])
       end.

Definition starts_with (q : ascii -> bool) (s : str) : bool :=
  match s with b :: _ => q b | [] => false end.

Definition with_pair (p q : ascii -> bool) (bad : ascii -> ascii -> bool)
    (a b : ascii) : bool :=
  bad a b || (p a && q b).

(** The text that reaches the punctuation pass. *)
Definition split_text (x : str) : str :=
  sub_pair is_lower is_digit
    (sub_pair is_digit is_upper
       (sub_pair is_lower is_upper (sub_ws (strip x)))).

(** How the state of the punctuation scan, the character before the rest
    of the input and the context of the output written so far go
    together. *)
Inductive punct_sync : option ascii -> punct_state -> context -> Prop :=
| sync_start : punct_sync None (Scan []) AtStart
| sync_word a :
    isspace a = false -> is_punct a = false ->
    punct_sync (Some a) (Scan []) (AfterWord a)
| sync_mark a :
    is_punct a = true -> punct_sync (Some a) Trail (AfterGap true)
| sync_pending a b :
    isspace a = true -> punct_sync (Some a) (Scan [space]) (AfterWord b)
| sync_trail a :
    isspace a = true -> punct_sync (Some a) Trail (AfterGap true).

(** The space the punctuation pass leaves after a last mark. *)
Definition pad (r : str) : str := if ends_with_mark r then [space] else [].

(** How the state of the punctuation scan goes with the context of a text
    in normal form, and what the scan then returns for the rest [r]. *)
Definition punct_result (k : context) (st : punct_state) (r : str)
    : option str :=
  match k, st with
  | AtStart, Scan [] => Some (r ++ pad r)
  | AfterWord _, Scan [] => Some (r ++ pad r)
  | AfterGap true, Trail => Some (r ++ pad r)
  | AfterGap false, Scan [c] =>
      if Ascii.eqb c space then Some (space :: r ++ pad r) else None
  | AfterMark, Trail =>
      Some (match r with [] => [] | _ :: t => t ++ pad t end)
  | _, _ => None
  end.

(** The second loop as a function on the list alone. *)
Definition fill_list (pairs : list (nat * str))
    (translations : list (option str)) : list (option str) :=
  fold_left (fun acc '(idx, translation) => <[idx := Some translation]> acc)
            pairs translations.

Definition not_blank (s : str) : bool := nonempty (strip s).

(** A regular-expression engine that rejects every pattern. *)
Definition no_regex : str -> str -> option (list str) := fun _ _ => None.

End Props.

Export Props.

(** ** Concrete inputs for the scenarios *)

Module Scenarios.

Import Providers Models Main.

(** A provider that supports the pairs of LibreTranslate and translates a
    text by putting it between angle brackets. *)
Definition bracket (t : str) : str := "<" ++ t ++ ">".

Definition bracket_provider : Provider :=
  {| get_supported_languages := Ok libre_pairs;
     Providers.translate := fun text _ _ => Ok (bracket text);
     Providers.translate_batch := fun texts _ _ => Ok (map bracket texts) |}.

(** The cache of the batch scenario: "a" is cached as "A". *)
Definition scenario_cache : gmap str str :=
  {[ cache_key "a" "es" "en" "LIBRE" := ("A" : str) ]}.

Definition scenario_request : BatchTranslationRequest :=
  {| segments := ["a" : str; "b" : str; "a" : str];
     batch_src := "es"; batch_tgt := "en" |}.

(** A batch with an empty segment in the middle, as a client sends it. *)
Definition raw_with_blank : list str := ["a" : str; "" : str; "b" : str].

Definition request_without_blank : BatchTranslationRequest :=
  {| segments := ["a" : str; "b" : str];
     batch_src := "es"; batch_tgt := "en" |}.

(** A request for a pair no provider of the gateway lists for
    LibreTranslate. *)
Definition english_to_spanish : TranslationRequest :=
  {| text := "hello"; src := "en"; tgt := "es" |}.

Definition spanish_to_english : TranslationRequest :=
  {| text := "hola"; src := "es"; tgt := "en" |}.

Definition hola_cache : gmap str str :=
  {[ cache_key "hola" "es" "en" "LIBRE" := ("hello" : str) ]}.

(** A LibreTranslate server whose call for "dos" times out. *)
Definition flaky_post (request : payload) : http_outcome :=
  if eqb_str (q request) "uno" then Answered (Some ("one" : str))
  else if eqb_str (q request) "tres" then Answered (Some ("three" : str))
  else Failed (Error "ReadTimeout" (Text "timed out")).

Definition libre : LibreTranslateProvider :=
  Libre "http://libre:5000" true libre_pairs.

(** Detectors that always answer the same code. *)
Definition detects (code : string) : str -> result str :=
  fun _ => Ok (code : str).


Definition bounded_options : Segmenter.SegmentationOptions.t :=
  Segmenter.SegmentationOptions.Build Segmenter.SENTENCE true false 5 10 [].

End Scenarios.

Export Scenarios.

(** ** Further code of the services *)

(** [normalize_text] of [services/format-service/src/utils.py]. *)
Module FormatUtils.

Definition normalize_text (text : str) : str :=
  if negb (nonempty text) then text
  else
    (* Remove extra whitespace *)
    let text := sub_ws (strip text) in
    (* Fix common OCR issues *)
    let text := sub_pair is_lower is_upper text in
    let text := sub_pair is_digit is_upper text in
    let text := sub_pair is_lower is_digit text in
    (* Normalize punctuation spacing *)
    let text := sub_punct text in
    sub_ws (strip text).

End FormatUtils.

(** The [/detect] endpoint of [services/mt-gateway/src/main.py]. *)
Module Endpoints.

Import MtUtils Main.

(** The body of the answer: [{"language": ..., "text": ...}]. *)
Record detection : Type := Detection {
  language : option str;
  detection_text : str
}.

Section Detect.

Variable detect : str -> result str.

Definition detect_text_language (text : str) : handler detection :=
  except_500 (
    if len (strip text) <? 3
    then raise (HTTPException 400 (Text "Text too short for detection"))
    else
      let detected := detect_language detect text in
      ret {| language := detected;
             detection_text :=
               if 100 <? len text then firstn 100 text ++ "..." else text |}).

End Detect.

End Endpoints.

(** ** Vocabulary of the further properties *)

Module MoreProps.

Import Segmenter Main.

(** The words of a sequence of segments, in order. *)
Definition words_of (segments : list str) : list str :=
  concat (map split_ws segments).

(** A segment as the last pass of [segment_text] leaves it. *)
Definition clean_segment (s : str) : Prop := s <> [] /\ strip s = s.

(** All elements but the first satisfy [P]. *)
Definition all_but_first {A : Type} (P : A -> Prop) (l : list A) : Prop :=
  match l with
  | [] => True
  | _ :: rest => Forall P rest
  end.

(** The options with the sentence rule in place of their rule. *)
Definition with_sentence_rule (o : SegmentationOptions.t)
    : SegmentationOptions.t :=
  SegmentationOptions.Build SENTENCE
    (SegmentationOptions.preserve_whitespace o)
    (SegmentationOptions.merge_short_segments o)
    (SegmentationOptions.min_segment_length o)
    (SegmentationOptions.max_segment_length o)
    (SegmentationOptions.custom_patterns o).

(** The custom rule has no usable pattern for [text]. *)
Definition no_usable_pattern (re_split : str -> str -> option (list str))
    (text : str) (o : SegmentationOptions.t) : Prop :=
  match SegmentationOptions.custom_patterns o with
  | [] => True
  | pattern :: _ => re_split pattern text = None
  end.

(** A lower-case hexadecimal digit. *)
Definition is_hex (c : ascii) : bool := is_digit c || between 97 102 c.

(** The cache writes a batch schedules: one for each miss, under the key of
    the segment as the request has it. *)
Definition writes_for (mt_provider src tgt : str)
    (missed translated : list str) : list cache_write :=
  map (fun '(segment, translation) =>
         Setex (cache_key segment src tgt mt_provider) 3600 translation)
      (combine missed translated).

(** The cache after a translation has been stored under [key]. *)
Definition stored (cache : option (gmap str str)) (key value : str)
    : option (gmap str str) :=
  match cache with
  | Some entries => Some (<[key := value]> entries)
  | None => None
  end.

(** What [normalize_text] leaves next to each other: never two whitespace
    characters, never a pair it splits, and after a punctuation mark only
    a space. *)
Definition well_spaced_pair (a b : ascii) : bool :=
  negb (isspace a && isspace b)
  && negb (split_pair a b)
  && (negb (is_punct a) || Ascii.eqb b space).

Fixpoint all_adjacent (ok : ascii -> ascii -> bool) (s : str) : bool :=
  match s with
  | a :: (b :: _) as t => ok a b && all_adjacent ok t
  | _ => true
  end.

(** Whitespace, if any, is the space character. *)
Definition plain_space (c : ascii) : bool :=
  negb (isspace c) || Ascii.eqb c space.

(** The cache entries after the scheduled writes have run, in their
    order. *)
Definition apply_writes (writes : list cache_write) (entries : gmap str str)
    : gmap str str :=
  fold_left (fun m t => <[write_key t := write_value t]> m) writes entries.

(** What [translate_batch] gives for the answer of the provider to the miss
    list: a response when every position got its translation, otherwise the
    refusal of the response model. *)
Definition batch_result (mt_provider : str)
    (request : Models.BatchTranslationRequest) (uncached : nat)
    (merged : list (option str))
    : result Models.BatchTranslationResponse :=
  match mapM id merged with
  | Some out =>
      Ok {| Models.response_segments := out;
            Models.batch_response_src := Models.batch_src request;
            Models.batch_response_tgt := Models.batch_tgt request;
            Models.batch_response_provider := mt_provider;
            Models.count := Z.of_nat (length merged);
            Models.cached_count :=
              Z.of_nat (length (Models.segments request))
              - Z.of_nat uncached |}
  | None =>
      Raise (HTTPException 500
               (StrOf (Error "ValidationError"
                             (Text "none is not an allowed value"))))
  end.

End MoreProps.

Export MoreProps.

(** ** Further scenarios *)

Module MoreScenarios.

Import Providers Models Main.

(** A provider that lists the pairs of LibreTranslate and whose model is
    out of memory. *)
Definition out_of_memory : exn := Error "RuntimeError" (Text "out of memory").

Definition failing_provider : Provider :=
  {| get_supported_languages := Ok libre_pairs;
     Providers.translate := fun _ _ _ => Raise out_of_memory;
     Providers.translate_batch := fun _ _ _ => Raise out_of_memory |}.

(** The LibreTranslate provider as its constructor leaves it. *)
Definition libre_before_initialize : LibreTranslateProvider :=
  Libre "http://libre:5000" false [].

(** The custom rule with a pattern that does not compile. *)
Definition custom_options : Segmenter.SegmentationOptions.t :=
  Segmenter.SegmentationOptions.Build Segmenter.CUSTOM true false 3 10
    ["(" : str].

Definition mixed_lengths : list str :=
  ["ab" : str; "cdefgh" : str; "i" : str; "jklmno" : str].

(** A text of 120 characters. *)
Definition long_text : str := repeat "a"%char 120.

End MoreScenarios.

Export MoreScenarios.

(* ================================================================== *)
(** * Properties *)
(* ================================================================== *)

(** ** Character classes *)

Section CharClasses.

Lemma space_isspace : isspace space = true.
Proof. reflexivity. Qed.

Lemma punct_not_space c : is_punct c = true -> isspace c = false.
Proof. destruct c as [[] [] [] [] [] [] [] []]; vm_compute; congruence. Qed.

Lemma terminator_not_space c : is_terminator c = true -> isspace c = false.
Proof. destruct c as [[] [] [] [] [] [] [] []]; vm_compute; congruence. Qed.

Lemma terminator_is_punct c : is_terminator c = true -> is_punct c = true.
Proof. destruct c as [[] [] [] [] [] [] [] []]; vm_compute; congruence. Qed.

Lemma newline_isspace : isspace newline = true.
Proof. reflexivity. Qed.

End CharClasses.

(** ** Joining *)

Lemma join_cons_cons sep w w' g :
  join sep (w :: w' :: g) = w ++ sep ++ join sep (w' :: g).
Proof. reflexivity. Qed.

(** ** Stripping and splitting keep the essence of a text *)

Section Essence.

Variable keep : ascii -> bool.
Hypothesis keep_space : forall c, isspace c = true -> keep c = false.

Lemma essence_nil : essence keep [] = [].
Proof. reflexivity. Qed.

Lemma essence_app s t :
  essence keep (s ++ t) = essence keep s ++ essence keep t.
Proof. apply List.filter_app. Qed.

Lemma essence_cons c s :
  essence keep (c :: s) = essence keep [c] ++ essence keep s.
Proof. apply (essence_app [c] s). Qed.

Lemma essence_space c : isspace c = true -> essence keep [c] = [].
Proof. intros Hc. unfold essence. simpl. by rewrite (keep_space _ Hc). Qed.

Lemma essence_lstrip s : essence keep (lstrip s) = essence keep s.
Proof.
  induction s as [|c t IH]; simpl; [done|].
  destruct (isspace c) eqn:Hc; [|done].
  by rewrite (essence_cons c t), (essence_space _ Hc).
Qed.

Lemma essence_rstrip s : essence keep (rstrip s) = essence keep s.
Proof.
  induction s as [|c t IH]; simpl; [done|].
  rewrite (essence_cons c t), <- IH.
  destruct (rstrip t) as [|d t'].
  - destruct (isspace c) eqn:Hc.
    + by rewrite (essence_space _ Hc).
    + by rewrite essence_nil, app_nil_r.
  - by rewrite (essence_cons c (d :: t')).
Qed.

Lemma essence_strip s : essence keep (strip s) = essence keep s.
Proof. unfold strip. by rewrite essence_rstrip, essence_lstrip. Qed.

Lemma essence_strip_and_drop_empty l :
  essence keep (concat (Segmenter.strip_and_drop_empty l))
  = essence keep (concat l).
Proof.
  induction l as [|p rest IH]; [done|].
  cbn [Segmenter.strip_and_drop_empty concat].
  rewrite essence_app, <- (essence_strip p), <- IH.
  destruct (strip p) as [|a s'] eqn:Hp; cbn [nonempty concat]; [done|].
  by rewrite essence_app.
Qed.

Lemma essence_split_ws_from cur s :
  essence keep (concat (split_ws_from cur s)) = essence keep (cur ++ s).
Proof.
  revert cur. induction s as [|c t IH]; intros cur; simpl.
  - destruct cur; simpl; [done|]. by rewrite !app_nil_r.
  - destruct (isspace c) eqn:Hc.
    + rewrite essence_app, (essence_cons c t), (essence_space _ Hc).
      destruct cur as [|a cur']; cbn [nonempty concat]; [by rewrite IH|].
      by rewrite essence_app, IH.
    + rewrite IH. by rewrite <- app_assoc.
Qed.

Lemma essence_split_ws s :
  essence keep (concat (split_ws s)) = essence keep s.
Proof. apply essence_split_ws_from. Qed.

Lemma essence_split_char_from sep cur s :
  isspace sep = true ->
  essence keep (concat (split_char_from sep cur s)) = essence keep (cur ++ s).
Proof.
  intros Hsep. revert cur. induction s as [|c t IH]; intros cur; simpl.
  - by rewrite !app_nil_r.
  - destruct (Ascii.eqb c sep) eqn:Heq.
    + apply Ascii.eqb_eq in Heq. subst c.
      cbn [concat].
      rewrite !essence_app, IH, (essence_cons sep t).
      by rewrite (essence_space _ Hsep).
    + rewrite IH. by rewrite <- app_assoc.
Qed.

Lemma essence_split_double_from sep pending cur s :
  isspace sep = true ->
  essence keep (concat (split_double_from sep pending cur s))
  = essence keep (cur ++ s).
Proof.
  intros Hsep. revert pending cur.
  induction s as [|c t IH]; intros pending cur; simpl.
  - destruct pending; rewrite !app_nil_r; [|done].
    by rewrite essence_app, (essence_space _ Hsep), app_nil_r.
  - destruct (Ascii.eqb c sep) eqn:Heq.
    + apply Ascii.eqb_eq in Heq. subst c.
      rewrite (essence_app cur), (essence_cons sep t).
      rewrite (essence_space _ Hsep).
      destruct pending; cbn [concat].
      * by rewrite essence_app, IH.
      * by rewrite IH, essence_app.
    + rewrite IH. destruct pending.
      * rewrite !essence_app, (essence_space _ Hsep), (essence_cons c t).
        by rewrite app_nil_r, <- app_assoc.
      * by rewrite <- app_assoc.
Qed.

Lemma essence_join_space g :
  essence keep (join [space] g) = essence keep (concat g).
Proof.
  induction g as [|w [|w' g'] IH]; [done| by simpl; rewrite app_nil_r |].
  rewrite join_cons_cons. cbn [concat] in *.
  rewrite !essence_app, IH.
  by rewrite (essence_space _ space_isspace), essence_app.
Qed.

End Essence.

(** ** What the sentence rule separates on *)

Section SentenceBreaks.

Lemma not_space_space c : isspace c = true -> not_space c = false.
Proof. intros Hc. unfold not_space. by rewrite Hc. Qed.

Lemma essence_snoc_space cur c :
  isspace c = true ->
  essence not_space (cur ++ [c]) = essence not_space cur.
Proof.
  intros Hc.
  rewrite essence_app, (essence_space _ not_space_space _ Hc).
  apply app_nil_r.
Qed.

Lemma essence_snoc_kept cur c :
  isspace c = false ->
  essence not_space (cur ++ [c]) = essence not_space cur ++ [c].
Proof.
  intros Hc. rewrite essence_app. f_equal.
  unfold essence, not_space. simpl. by rewrite Hc.
Qed.

Lemma re_split_sentences_from_rest s : forall st cur,
  (st = Gap -> cur = []) ->
  essence not_space (concat (re_split_sentences_from st cur s))
  = sentence_rest st cur s.
Proof.
  induction s as [|c t IH]; intros st cur Hgap.
  - destruct st; simpl; by rewrite !app_nil_r.
  - destruct st as [|before|]; cbn [re_split_sentences_from sentence_rest
      without_sentence_breaks run_before_space].
    + destruct (is_terminator c) eqn:Ht.
      * rewrite (terminator_not_space _ Ht), IH by done.
        cbn [sentence_rest andb].
        rewrite (essence_snoc_kept _ _ (terminator_not_space _ Ht)).
        destruct (run_before_space t); [done|]. by rewrite <- app_assoc.
      * rewrite IH by done. cbn [sentence_rest andb].
        destruct (isspace c) eqn:Hc.
        -- by rewrite (essence_snoc_space _ _ Hc).
        -- rewrite (essence_snoc_kept _ _ Hc). by rewrite <- app_assoc.
    + destruct (is_terminator c) eqn:Ht.
      * rewrite (terminator_not_space _ Ht), IH by done.
        cbn [sentence_rest andb].
        rewrite (essence_snoc_kept _ _ (terminator_not_space _ Ht)).
        destruct (run_before_space t); [done|]. by rewrite <- app_assoc.
      * destruct (isspace c) eqn:Hc.
        -- cbn [concat]. rewrite essence_app, IH by done.
           cbn [sentence_rest]. by rewrite essence_nil.
        -- rewrite IH by done. cbn [sentence_rest andb].
           rewrite (essence_snoc_kept _ _ Hc). by rewrite <- app_assoc.
    + rewrite (Hgap eq_refl), essence_nil. cbn [app].
      destruct (isspace c) eqn:Hc.
      * rewrite IH by done. cbn [sentence_rest]. by rewrite essence_nil.
      * destruct (is_terminator c) eqn:Ht.
        -- rewrite IH by done. cbn [sentence_rest andb].
           rewrite essence_nil. cbn [app].
           destruct (run_before_space t); [done|].
           unfold essence, not_space. simpl. by rewrite Hc.
        -- rewrite IH by done. cbn [sentence_rest andb].
           unfold essence at 1, not_space. simpl. by rewrite Hc.
Qed.

Lemma segment_by_sentences_kept text :
  essence not_space (concat (Segmenter.segment_by_sentences text))
  = without_sentence_breaks text.
Proof.
  unfold Segmenter.segment_by_sentences, re_split_sentences.
  rewrite (essence_strip_and_drop_empty _ not_space_space).
  by rewrite re_split_sentences_from_rest.
Qed.

Lemma without_sentence_breaks_blank text :
  essence not_space text = [] -> without_sentence_breaks text = [].
Proof.
  induction text as [|c t IH]; [done|].
  unfold essence, not_space. simpl.
  destruct (isspace c); [exact IH | done].
Qed.

End SentenceBreaks.

(** ** Words *)

Section Words.

Lemma single_word_app s t :
  single_word s -> single_word t -> single_word (s ++ t).
Proof. unfold single_word. apply Forall_app_2. Qed.

Lemma split_ws_from_words s : forall cur,
  single_word cur ->
  Forall (fun w => single_word w /\ w <> []) (split_ws_from cur s).
Proof.
  induction s as [|c t IH]; intros cur Hcur; simpl.
  - destruct cur; simpl; [constructor|].
    apply Forall_cons; split; [done | constructor].
  - destruct (isspace c) eqn:Hc.
    + destruct cur; simpl; [by apply IH; constructor|].
      apply Forall_cons; split; [done|]. by apply IH; constructor.
    + apply IH, single_word_app; [done|].
      apply Forall_cons; split; [done | constructor].
Qed.

Lemma split_ws_words s :
  Forall (fun w => single_word w /\ w <> []) (split_ws s).
Proof. apply split_ws_from_words. constructor. Qed.




Lemma lstrip_length s : (length (lstrip s) <= length s)%nat.
Proof.
  induction s as [|c t IH]; simpl; [done|].
  destruct (isspace c); simpl; lia.
Qed.

Lemma rstrip_length s : (length (rstrip s) <= length s)%nat.
Proof.
  induction s as [|c t IH]; simpl; [done|].
  destruct (rstrip t); [destruct (isspace c)|]; simpl in *; lia.
Qed.

Lemma strip_len s : len (strip s) <= len s.
Proof.
  unfold len, strip.
  pose proof (rstrip_length (lstrip s)). pose proof (lstrip_length s). lia.
Qed.



End Words.

(** ** Re-splitting an over-long segment *)

Section SplitLong.

Import Segmenter.

Variable max_len : Z.

Lemma join_snoc sep g w :
  g <> [] -> join sep (g ++ [w]) = join sep g ++ sep ++ w.
Proof.
  induction g as [|a [|b g'] IH]; intros Hne; [done|done|].
  change ((a :: b :: g') ++ [w]) with (a :: b :: (g' ++ [w])).
  rewrite !join_cons_cons.
  change (b :: (g' ++ [w])) with ((b :: g') ++ [w]).
  rewrite IH by done. by rewrite <- !app_assoc.
Qed.

Lemma len_app s t : len (s ++ t) = len s + len t.
Proof. unfold len. rewrite length_app. lia. Qed.

Lemma split_step_inv done st word :
  split_inv max_len done st -> split_inv max_len (done ++ [word]) (split_step max_len st word).
Proof.
  intros (groups & Hparts & Hdone & Hgood & Hcur).
  unfold split_step.
  destruct (current_length st + (len word + 1) <=? max_len) eqn:Hfit.
  - apply Z.leb_le in Hfit. exists groups. simpl.
    split; [done|]. split; [by rewrite app_assoc, Hdone|]. split; [done|].
    destruct (current_part st) as [|a cp] eqn:Hcp.
    + simpl. subst. rewrite Hcur in *. split; [lia | left; lia].
    + destruct Hcur as [Hlen _].
      change ((a :: cp) ++ [word]) with (a :: (cp ++ [word])).
      assert (Hj : join [space] (a :: cp ++ [word])
                   = join [space] (a :: cp) ++ [space] ++ word)
        by (apply (join_snoc [space] (a :: cp) word); done).
      destruct (cp ++ [word]) eqn:Hsn; [by destruct cp|].
      rewrite Hj, !len_app. change (len [space]) with 1.
      split; [lia | left; lia].
  - destruct (current_part st) as [|a cp] eqn:Hcp.
    + exists (groups ++ [[word]]). simpl.
      rewrite map_app, concat_app. simpl.
      split; [by rewrite Hparts|].
      split; [rewrite !app_nil_r in *; by rewrite Hdone|].
      split; [|done].
      apply Forall_app; split; [done|].
      apply Forall_cons; split; [|constructor].
      split; [done | right; by exists word].
    + exists (groups ++ [a :: cp]). simpl.
      rewrite map_app, concat_app. simpl.
      split; [by rewrite Hparts|].
      split; [rewrite app_nil_r, <- Hdone; by rewrite <- app_assoc|].
      split.
      * apply Forall_app; split; [done|].
        apply Forall_cons; split; [|constructor].
        split; [done|]. destruct Hcur as [Hlen [Hle | Hw]]; [left; lia | by right].
      * split; [lia | right; by exists word].
Qed.

Lemma split_fold_inv words : forall done st,
  split_inv max_len done st ->
  split_inv max_len (done ++ words) (fold_left (split_step max_len) words st).
Proof.
  induction words as [|w ws IH]; intros done st Hinv; simpl.
  - by rewrite app_nil_r.
  - replace (done ++ w :: ws) with ((done ++ [w]) ++ ws)
      by (by rewrite <- app_assoc).
    by apply IH, split_step_inv.
Qed.

(** The parts are the words of the segment, grouped in order: no word is
    cut, changed or lost. *)
Lemma split_long_segment_groups segment :
  exists groups,
    split_long_segment segment max_len = map (join [space]) groups
    /\ concat groups = split_ws segment
    /\ Forall (good_group max_len) groups.
Proof.
  unfold split_long_segment.
  destruct (split_fold_inv (split_ws segment) [] (SplitState [] [] 0))
    as (groups & Hparts & Hdone & Hgood & Hcur).
  { exists []. by repeat split. }
  simpl in Hdone. unfold split_finish.
  destruct (current_part _) as [|a cp] eqn:Hcp.
  - exists groups. rewrite app_nil_r in Hdone. by repeat split.
  - exists (groups ++ [a :: cp]).
    rewrite map_app, concat_app. simpl. rewrite app_nil_r.
    split; [by rewrite Hparts|]. split; [done|].
    apply Forall_app; split; [done|].
    apply Forall_cons; split; [|constructor].
    split; [done|]. destruct Hcur as [Hlen [Hle | Hw]]; [left; lia | by right].
Qed.


End SplitLong.

(** ** Length constraints and merging keep the essence *)

Section ConstraintsEssence.

Import Segmenter.

Variable keep : ascii -> bool.
Hypothesis keep_space : forall c, isspace c = true -> keep c = false.

Lemma concat_append_to_last l x :
  l <> [] -> concat (append_to_last l x) = concat l ++ x.
Proof.
  induction l as [|a [|b l'] IH]; intros Hne; [done| |].
  - simpl. by rewrite !app_nil_r.
  - change (append_to_last (a :: b :: l') x)
      with (a :: append_to_last (b :: l') x).
    cbn [concat]. rewrite IH by done. cbn [concat]. by rewrite <- !app_assoc.
Qed.

Lemma essence_joined_groups groups :
  essence keep (concat (map (join [space]) groups))
  = essence keep (concat (concat groups)).
Proof.
  induction groups as [|g gs IH]; [done|].
  cbn [map concat]. rewrite concat_app, !essence_app, IH.
  by rewrite essence_join_space.
Qed.

Lemma essence_split_long_segment segment max_len :
  essence keep (concat (split_long_segment segment max_len))
  = essence keep segment.
Proof.
  destruct (split_long_segment_groups max_len segment)
    as (groups & -> & Hwords & _).
  by rewrite essence_joined_groups, Hwords, essence_split_ws.
Qed.

Lemma essence_constrain_step min_len max_len constrained segment :
  essence keep (concat (constrain_step min_len max_len constrained segment))
  = essence keep (concat constrained) ++ essence keep segment.
Proof.
  unfold constrain_step.
  destruct (len segment <? min_len).
  - destruct constrained as [|a l].
    + simpl. by rewrite app_nil_r.
    + rewrite concat_append_to_last by done.
      rewrite essence_app, (essence_cons keep space segment).
      by rewrite (essence_space keep keep_space _ space_isspace).
  - destruct (max_len <? len segment).
    + by rewrite concat_app, essence_app, essence_split_long_segment.
    + rewrite concat_app, essence_app. simpl. by rewrite app_nil_r.
Qed.

Lemma essence_constrain_fold min_len max_len segments : forall constrained,
  essence keep
    (concat (fold_left (constrain_step min_len max_len) segments constrained))
  = essence keep (concat constrained) ++ essence keep (concat segments).
Proof.
  induction segments as [|s ss IH]; intros constrained; simpl.
  - by rewrite app_nil_r.
  - by rewrite IH, essence_constrain_step, essence_app, app_assoc.
Qed.

Lemma essence_apply_length_constraints segments min_len max_len :
  essence keep (concat (apply_length_constraints segments min_len max_len))
  = essence keep (concat segments).
Proof. unfold apply_length_constraints. by rewrite essence_constrain_fold. Qed.

Lemma essence_merge_fold threshold rest : forall merged current,
  let '(merged', current') :=
    fold_left (merge_step threshold) rest (merged, current) in
  essence keep (concat merged' ++ current')
  = essence keep (concat merged ++ current) ++ essence keep (concat rest).
Proof.
  induction rest as [|s ss IH]; intros merged current; simpl.
  - by rewrite app_nil_r.
  - destruct (len current <? threshold).
    + specialize (IH merged (current ++ space :: s)).
      destruct (fold_left _ ss _) as [merged' current'].
      rewrite IH, !essence_app, (essence_cons keep space s).
      rewrite (essence_space keep keep_space _ space_isspace).
      by rewrite <- !app_assoc.
    + specialize (IH (merged ++ [current]) s).
      destruct (fold_left _ ss _) as [merged' current'].
      rewrite IH, concat_app, !essence_app. simpl.
      by rewrite app_nil_r, <- !app_assoc.
Qed.

Lemma essence_merge_short_segments segments threshold :
  essence keep (concat (merge_short_segments segments threshold))
  = essence keep (concat segments).
Proof.
  destruct segments as [|first rest]; [done|].
  unfold merge_short_segments.
  pose proof (essence_merge_fold threshold rest [] first) as H.
  destruct (fold_left _ rest _) as [merged current].
  rewrite concat_app. cbn [concat] in *.
  rewrite app_nil_r, H. by rewrite (essence_app keep first).
Qed.

Lemma strip_empty_essence text :
  nonempty (strip text) = false -> essence keep text = [].
Proof.
  intros H. rewrite <- (essence_strip keep keep_space).
  by destruct (strip text).
Qed.

Variable re_split : str -> str -> option (list str).

(** Whatever the options, the passes after the rule keep the essence of
    the candidates. *)
Lemma essence_segment_text text options :
  essence keep (concat (rule_candidates re_split text options))
  = essence keep text ->
  essence keep (concat (segment_text re_split text options))
  = essence keep text.
Proof.
  intros Hrule. unfold segment_text.
  destruct (nonempty (strip text)) eqn:Hne; simpl.
  - rewrite essence_strip_and_drop_empty by done.
    destruct options as [o|]; [|done].
    destruct (SegmentationOptions.merge_short_segments o).
    + by rewrite essence_merge_short_segments,
                 essence_apply_length_constraints.
    + by rewrite essence_apply_length_constraints.
  - by rewrite (strip_empty_essence text).
Qed.

Lemma essence_newline_rules text options :
  newline_rule options ->
  essence keep (concat (rule_candidates re_split text options))
  = essence keep text.
Proof.
  destruct options as [o|]; [|done]. simpl.
  intros [-> | ->].
  - unfold segment_by_paragraphs, split_double.
    rewrite essence_strip_and_drop_empty by done.
    by rewrite essence_split_double_from.
  - unfold split_char. by rewrite essence_split_char_from.
Qed.

(** The passes after the rule keep the essence of the candidates. *)
Lemma essence_segment_text_candidates text options :
  nonempty (strip text) = true ->
  essence keep (concat (segment_text re_split text options))
  = essence keep (concat (rule_candidates re_split text options)).
Proof.
  intros Hne. unfold segment_text. rewrite Hne. cbn [negb].
  rewrite essence_strip_and_drop_empty by done.
  destruct options as [o|]; [|done].
  destruct (SegmentationOptions.merge_short_segments o).
  - by rewrite essence_merge_short_segments,
               essence_apply_length_constraints.
  - by rewrite essence_apply_length_constraints.
Qed.

End ConstraintsEssence.

(** ** The length bound *)

Section LengthBound.

Import Segmenter.



End LengthBound.

(** ** The segmenter: scenario, length bound, characters kept *)

Section SegmenterClaims.

Import Segmenter.

Variable re_split : str -> str -> option (list str).

(** C9 (as amended): segmenting "Hello world. This is a test!" under the
    sentence rule, with no options or with the default options, returns
    the two segments "Hello world" and "This is a test!": the final
    exclamation mark is not followed by whitespace, so it is not a
    separator and stays in its segment. *)
Theorem sentence_scenario :
  segment_text re_split "Hello world. This is a test!" None
  = ["Hello world" : str; "This is a test!" : str]
  /\ segment_text re_split "Hello world. This is a test!"
       (Some SegmentationOptions.default)
     = ["Hello world" : str; "This is a test!" : str].
Proof. split; reflexivity. Qed.


(** C4 (as amended): the segments returned for a text contain, in order,
    exactly its non-whitespace characters under the paragraph and line
    rules; under the sentence rule (also when no options are given) they
    contain exactly its non-whitespace characters other than the
    terminators (. ! ?) of a run that whitespace follows, which is what
    the rule separates on: a terminator inside a word or at the end of
    the text is kept. *)
Theorem segmentation_keeps_characters text options :
  builtin_rule options ->
  (newline_rule options ->
   essence not_space (concat (segment_text re_split text options))
   = essence not_space text)
  /\ (~ newline_rule options ->
      essence not_space (concat (segment_text re_split text options))
      = without_sentence_breaks text).
Proof.
  intros Hrule. split.
  - intros Hnl. apply (essence_segment_text _ not_space_space).
    by apply essence_newline_rules; [apply not_space_space|].
  - intros Hsentence.
    assert (Hcand : rule_candidates re_split text options
                    = segment_by_sentences text).
    { destruct options as [o|]; [|done]. simpl in *.
      destruct (SegmentationOptions.rule o); try done.
      - exfalso. apply Hsentence. by left.
      - exfalso. apply Hsentence. by right. }
    destruct (nonempty (strip text)) eqn:Hne.
    + rewrite (essence_segment_text_candidates _ not_space_space _ _ _ Hne).
      rewrite Hcand. apply segment_by_sentences_kept.
    + rewrite (without_sentence_breaks_blank text
                 (strip_empty_essence _ not_space_space _ Hne)).
      unfold segment_text. by rewrite Hne.
Qed.

End SegmenterClaims.

(** The scenario of C9 as the specification words it does not hold: the
    second segment keeps its exclamation mark. *)
Lemma sentence_scenario_as_specified_fails :
  Segmenter.segment_text no_regex "Hello world. This is a test!" None
  <> ["Hello world" : str; "This is a test" : str].
Proof. vm_compute. discriminate. Qed.



(** C4 as stated fails: the full stop that ends the first sentence is a
    non-whitespace character of the input that no segment contains. *)
Lemma sentence_rule_drops_terminator :
  essence not_space
    (concat (Segmenter.segment_text no_regex
               "Hello world. This is a test!" None))
  <> essence not_space "Hello world. This is a test!".
Proof. vm_compute. discriminate. Qed.

(** A text with terminators inside words and at its end: only the full
    stop that whitespace follows is given up. *)
Lemma segmentation_keeps_characters_witness :
  builtin_rule None
  /\ ~ newline_rule None
  /\ essence not_space
       (concat (Segmenter.segment_text no_regex
                  "Pay 3.14 now. Is it a.b?c!" None))
     = "Pay3.14nowIsita.b?c!".
Proof.
  split; [exact I|]. split; [intros []|].
  rewrite (proj2 (segmentation_keeps_characters no_regex
                    "Pay 3.14 now. Is it a.b?c!" None I));
    [reflexivity | intros []].
Defined.

(** ** Normalization: whitespace *)

Section Whitespace.

Lemma lstrip_lstrip s : lstrip (lstrip s) = lstrip s.
Proof.
  induction s as [|c t IH]; simpl; [done|].
  destruct (isspace c) eqn:Hc; [done|]. simpl. by rewrite Hc.
Qed.

Lemma lstrip_fixed_head c t : lstrip (c :: t) = c :: t -> isspace c = false.
Proof.
  simpl. destruct (isspace c); [|done].
  intros H. pose proof (lstrip_length t) as Hl.
  rewrite H in Hl. simpl in Hl. lia.
Qed.

Lemma rstrip_cons_not_space c t :
  isspace c = false -> rstrip (c :: t) = c :: rstrip t.
Proof. intros Hc. simpl. rewrite Hc. by destruct (rstrip t). Qed.

Lemma rstrip_rstrip s : rstrip (rstrip s) = rstrip s.
Proof.
  induction s as [|c t IH]; simpl; [done|].
  destruct (rstrip t) as [|d t'] eqn:Hr.
  - destruct (isspace c) eqn:Hc; simpl; [done|]. by rewrite Hc.
  - change (rstrip (c :: d :: t')) with
      (match rstrip (d :: t') with
       | [] => if isspace c then [] else [c]
       | t'' => c :: t''
       end).
    by rewrite IH.
Qed.

Lemma rstrip_fixed_tail c t :
  rstrip (c :: t) = c :: t -> rstrip t = t /\ (t = [] -> isspace c = false).
Proof.
  simpl. destruct (rstrip t) as [|d t'] eqn:Hr.
  - destruct (isspace c); [done|]. intros [= <-]. by split.
  - intros [= <-]. by split.
Qed.

Lemma lstrip_rstrip_fixed s : lstrip s = s -> lstrip (rstrip s) = rstrip s.
Proof.
  destruct s as [|c t]; [done|]. intros H.
  apply lstrip_fixed_head in H.
  rewrite (rstrip_cons_not_space _ _ H). simpl. by rewrite H.
Qed.

Lemma rstrip_snoc_space s c : isspace c = true -> rstrip (s ++ [c]) = rstrip s.
Proof.
  intros Hc. induction s as [|a s IH]; simpl; [by rewrite Hc|].
  by rewrite IH.
Qed.

(** Collapsing the whitespace of a text that has none at its ends gives a
    tidy text. *)
Lemma sub_ws_from_tidy s : forall prev in_run,
  rstrip s = s ->
  match prev with
  | None => in_run = false /\ lstrip s = s
  | Some a =>
      if isspace a then a = space /\ in_run = true /\ s <> []
      else in_run = false
  end ->
  tidy no_pair prev (sub_ws_from in_run s).
Proof.
  induction s as [|c t IH]; intros prev in_run Hr Hprev.
  - simpl. destruct prev as [a|]; [|done].
    destruct (isspace a); [by destruct Hprev as (_ & _ & ?) | done].
  - apply rstrip_fixed_tail in Hr as [Hr Hlast]. simpl.
    destruct (isspace c) eqn:Hc.
    + destruct prev as [a|].
      * destruct (isspace a) eqn:Ha.
        -- destruct Hprev as (-> & -> & _). apply IH; [done|].
           rewrite space_isspace. repeat split; [].
           intros ->. by specialize (Hlast eq_refl).
        -- subst in_run. cbn [tidy]. rewrite space_isspace, Ha.
           repeat split. apply IH; [done|].
           rewrite space_isspace. repeat split; [].
           intros ->. by specialize (Hlast eq_refl).
      * destruct Hprev as [_ Hl]. apply lstrip_fixed_head in Hl. congruence.
    + simpl. rewrite Hc. split.
      * by destruct prev.
      * apply IH; [done|]. by rewrite Hc.
Qed.

Lemma sub_ws_strip_tidy x : tidy no_pair None (sub_ws (strip x)).
Proof.
  apply sub_ws_from_tidy; [apply rstrip_rstrip|].
  split; [done|]. apply lstrip_rstrip_fixed, lstrip_lstrip.
Qed.

End Whitespace.

(** ** Normalization: the splitting substitutions *)

Section SplitPairs.

Variables p q : ascii -> bool.
Hypothesis p_not_space : forall c, p c = true -> isspace c = false.
Hypothesis q_not_space : forall c, q c = true -> isspace c = false.
Hypothesis disjoint : forall c, q c = true -> p c = false.

(** Matches cannot overlap, so the substitution can be read one character
    at a time. *)
Lemma sub_pair_cons a t :
  sub_pair p q (a :: t)
  = a :: (if p a && starts_with q t then space :: sub_pair p q t
          else sub_pair p q t).
Proof.
  destruct t as [|b t']; [by rewrite andb_false_r|].
  cbn [sub_pair starts_with]. destruct (p a && q b) eqn:Hm; [|done].
  apply andb_true_iff in Hm as [_ Hq]. rewrite (disjoint _ Hq).
  by destruct t'.
Qed.

Lemma tidy_change_prev bad prev prev' s :
  tidy bad prev s ->
  match s with
  | [] => match prev' with Some a => isspace a = false | None => True end
  | c :: _ =>
      if isspace c
      then match prev' with Some a => isspace a = false | None => False end
      else match prev' with Some a => bad a c = false | None => True end
  end ->
  tidy bad prev' s.
Proof.
  destruct s as [|c t]; simpl; [done|].
  intros [H1 H2] H. split; [|done].
  destruct (isspace c); [|done]. by destruct H1.
Qed.

Lemma sub_pair_tidy bad s : forall prev,
  (forall a b, isspace a = true -> bad a b = false) ->
  tidy bad prev s ->
  match prev with
  | Some a => p a && starts_with q s = false
  | None => True
  end ->
  tidy (with_pair p q bad) prev (sub_pair p q s).
Proof.
  intros prev Hbad. revert prev.
  induction s as [|c t IH]; intros prev Htidy Hprev; [done|].
  rewrite sub_pair_cons. destruct Htidy as [Hc Ht]. cbn [tidy]. split.
  - destruct (isspace c); [done|]. destruct prev as [a|]; [|done].
    unfold with_pair. simpl in Hprev. by rewrite Hc, Hprev.
  - destruct (p c && starts_with q t) eqn:Hm.
    + apply andb_true_iff in Hm as [Hp Hq].
      cbn [tidy]. rewrite space_isspace, (p_not_space _ Hp).
      repeat split. apply IH.
      * apply (tidy_change_prev bad (Some c)); [done|].
        destruct t as [|b t']; [done|]. simpl in Hq.
        rewrite (q_not_space _ Hq). by apply Hbad.
      * destruct (p space) eqn:Hps; [|done].
        apply p_not_space in Hps. by rewrite space_isspace in Hps.
    + by apply IH.
Qed.

End SplitPairs.

(** ** Normalization: the result is in normal form *)

Section NormalForm.

Lemma lower_not_space c : is_lower c = true -> isspace c = false.
Proof. destruct c as [[] [] [] [] [] [] [] []]; vm_compute; congruence. Qed.

Lemma upper_not_space c : is_upper c = true -> isspace c = false.
Proof. destruct c as [[] [] [] [] [] [] [] []]; vm_compute; congruence. Qed.

Lemma digit_not_space c : is_digit c = true -> isspace c = false.
Proof. destruct c as [[] [] [] [] [] [] [] []]; vm_compute; congruence. Qed.

Lemma lower_not_punct c : is_lower c = true -> is_punct c = false.
Proof. destruct c as [[] [] [] [] [] [] [] []]; vm_compute; congruence. Qed.

Lemma upper_not_punct c : is_upper c = true -> is_punct c = false.
Proof. destruct c as [[] [] [] [] [] [] [] []]; vm_compute; congruence. Qed.

Lemma digit_not_punct c : is_digit c = true -> is_punct c = false.
Proof. destruct c as [[] [] [] [] [] [] [] []]; vm_compute; congruence. Qed.

Lemma upper_not_lower c : is_upper c = true -> is_lower c = false.
Proof. destruct c as [[] [] [] [] [] [] [] []]; vm_compute; congruence. Qed.

Lemma upper_not_digit c : is_upper c = true -> is_digit c = false.
Proof. destruct c as [[] [] [] [] [] [] [] []]; vm_compute; congruence. Qed.

Lemma digit_not_lower c : is_digit c = true -> is_lower c = false.
Proof. destruct c as [[] [] [] [] [] [] [] []]; vm_compute; congruence. Qed.

Lemma isspace_eqb_space c :
  isspace c = true -> c = space -> Ascii.eqb c space = true.
Proof. intros _ ->. reflexivity. Qed.

Lemma tidy_ext bad bad' s : forall prev,
  (forall a b, bad a b = bad' a b) -> tidy bad prev s -> tidy bad' prev s.
Proof.
  induction s as [|c t IH]; intros prev Hext; [done|].
  simpl. intros [Hc Ht]. split; [|by apply IH].
  destruct (isspace c); [done|]. destruct prev; [|done]. by rewrite <- Hext.
Qed.

Lemma split_text_tidy x : tidy split_pair None (split_text x).
Proof.
  unfold split_text.
  pose proof (sub_ws_strip_tidy x) as H.
  apply (sub_pair_tidy is_lower is_upper lower_not_space upper_not_space
           upper_not_lower) in H; [|done|done].
  apply (sub_pair_tidy is_digit is_upper digit_not_space upper_not_space
           upper_not_digit) in H; [| |done].
  - apply (sub_pair_tidy is_lower is_digit lower_not_space digit_not_space
             digit_not_lower) in H; [| |done].
    + revert H. apply tidy_ext. intros a b.
      unfold with_pair, no_pair, split_pair. by rewrite orb_false_l.
    + intros a b Ha. unfold with_pair, no_pair.
      destruct (is_lower a) eqn:Hl; [apply lower_not_space in Hl; congruence|].
      destruct (is_digit a) eqn:Hd; [apply digit_not_space in Hd; congruence|].
      done.
  - intros a b Ha. unfold with_pair, no_pair.
    destruct (is_lower a) eqn:Hl; [apply lower_not_space in Hl; congruence|].
    done.
Qed.

Lemma sub_punct_from_spaced x : forall prev st k,
  tidy split_pair prev x ->
  punct_sync prev st k ->
  spaced final_punct k (sub_punct_from st x).
Proof.
  induction x as [|c t IH]; intros prev st k Htidy Hsync.
  - simpl in *. destruct Hsync; simpl; congruence.
  - destruct Htidy as [Hc Ht]. cbn [sub_punct_from].
    destruct (isspace c) eqn:Hs.
    + destruct Hc as [-> Hprev].
      destruct Hsync as [|a Ha Hp|a Hp|a b Ha|a Ha];
        try done; try congruence; simpl.
      * apply (IH (Some space)); [done|]. by apply sync_pending.
      * apply (IH (Some space)); [done|]. by apply sync_trail.
    + destruct (is_punct c) eqn:Hp.
      * assert (Hadv : advance k c = Some AfterMark)
          by (unfold advance; rewrite Hs, Hp; by destruct Hsync).
        cbn [spaced]. rewrite Hadv. simpl.
        apply (IH (Some c)); [done|]. by apply sync_mark.
      * destruct Hsync as [|a Ha Hpa|a Hpa|a b Ha|a Ha]; simpl.
        -- unfold advance. rewrite Hs, Hp.
           apply (IH (Some c)); [done|]. by apply sync_word.
        -- unfold advance. rewrite Hs, Hp, Hc.
           apply (IH (Some c)); [done|]. by apply sync_word.
        -- unfold advance. rewrite Hs, Hp.
           apply (IH (Some c)); [done|]. by apply sync_word.
        -- unfold advance at 1. simpl.
           unfold advance. rewrite Hs, Hp.
           apply (IH (Some c)); [done|]. by apply sync_word.
        -- unfold advance. rewrite Hs, Hp.
           apply (IH (Some c)); [done|]. by apply sync_word.
Qed.

Lemma advance_space k c k' :
  advance k c = Some k' -> isspace c = true ->
  c = space /\ exists b, k' = AfterGap b.
Proof.
  unfold advance. intros H Hc. rewrite Hc in H.
  destruct (Ascii.eqb c space) eqn:He; [|done].
  apply Ascii.eqb_eq in He. split; [done|].
  destruct k; simplify_eq; eauto.
Qed.

Lemma advance_not_space k c k' :
  advance k c = Some k' -> isspace c = false -> final_normal k' = true.
Proof.
  unfold advance. intros H Hc. rewrite Hc in H.
  destruct (is_punct c).
  - destruct k as [| |[]|]; by simplify_eq.
  - destruct k as [| |[]|a]; simplify_eq; try done.
    destruct (split_pair a c); by simplify_eq.
Qed.

Lemma spaced_rstrip y : forall k,
  spaced final_punct k y ->
  rstrip y = [] \/ spaced final_normal k (rstrip y).
Proof.
  induction y as [|c t IH]; intros k Hy; [by left|].
  simpl in Hy. destruct (advance k c) as [k'|] eqn:Hadv; [|done].
  destruct (IH k' Hy) as [Hr | Hr]; simpl.
  - rewrite Hr. destruct (isspace c) eqn:Hc; [by left|].
    right. simpl. rewrite Hadv. by eapply advance_not_space.
  - right. destruct (rstrip t) as [|d t'] eqn:Ht.
    + destruct (isspace c) eqn:Hc; simpl; [|by rewrite Hadv].
      apply advance_space in Hadv as [_ [b ->]]; done.
    + simpl. by rewrite Hadv.
Qed.

Lemma spaced_lstrip final r : spaced final AtStart r -> lstrip r = r.
Proof.
  destruct r as [|c t]; [done|]. simpl. unfold advance.
  destruct (isspace c); [|done]. by destruct (Ascii.eqb c space).
Qed.

Lemma spaced_sub_ws_from final r : forall k in_run,
  (in_run = true -> exists b, k = AfterGap b) ->
  spaced final k r -> sub_ws_from in_run r = r.
Proof.
  induction r as [|c t IH]; intros k in_run Hrun Hr; [done|].
  simpl in Hr. destruct (advance k c) as [k'|] eqn:Hadv; [|done].
  simpl. destruct (isspace c) eqn:Hc.
  - pose proof Hadv as Hadv'.
    apply advance_space in Hadv' as [-> [b ->]]; [|done].
    destruct in_run.
    + destruct (Hrun eq_refl) as [b' ->]. by destruct b'.
    + f_equal. apply (IH (AfterGap b)); [eauto | done].
  - f_equal. apply (IH k'); [done | done].
Qed.

Lemma normal_nil : normal [].
Proof. reflexivity. Qed.

(** The last strip and whitespace pass only remove a trailing space. *)
Lemma sub_ws_strip_spaced y :
  spaced final_punct AtStart y ->
  sub_ws (strip y) = rstrip y /\ normal (rstrip y).
Proof.
  intros Hy. unfold strip. rewrite (spaced_lstrip _ _ Hy).
  assert (Hn : normal (rstrip y)).
  { destruct (spaced_rstrip _ _ Hy) as [-> | H]; [apply normal_nil | done]. }
  split; [|done].
  apply (spaced_sub_ws_from final_normal _ AtStart); [done | done].
Qed.

Theorem normalize_text_normal x : normal (MtUtils.normalize_text x).
Proof.
  unfold MtUtils.normalize_text.
  destruct x as [|c t]; [apply normal_nil|]. cbn [nonempty negb].
  fold (split_text (c :: t)).
  assert (Hy : spaced final_punct AtStart (sub_punct (split_text (c :: t)))).
  { apply (sub_punct_from_spaced _ None); [apply split_text_tidy|].
    apply sync_start. }
  destruct (sub_ws_strip_spaced _ Hy) as [-> Hn]. done.
Qed.

End NormalForm.

(** ** Normalization: a text in normal form is left as it is *)

Section Fixed.

Lemma spaced_rstrip_fixed r : forall k,
  spaced final_normal k r -> rstrip r = r.
Proof.
  induction r as [|c t IH]; intros k Hr; [done|].
  simpl in Hr. destruct (advance k c) as [k'|] eqn:Hadv; [|done].
  simpl. rewrite (IH k' Hr). destruct t as [|d t']; [|done].
  destruct (isspace c) eqn:Hc; [|done].
  apply advance_space in Hadv as [_ [b ->]]; done.
Qed.

Lemma spaced_sub_pair (p q : ascii -> bool) final r : forall k,
  (forall c, q c = true -> p c = false) ->
  (forall a b, p a = true -> q b = true ->
     isspace a = false /\ is_punct a = false /\ isspace b = false
     /\ is_punct b = false /\ split_pair a b = true) ->
  spaced final k r -> sub_pair p q r = r.
Proof.
  intros k Hdisj Hpq. revert k.
  induction r as [|c t IH]; intros k Hr; [done|].
  rewrite (sub_pair_cons p q Hdisj).
  simpl in Hr. destruct (advance k c) as [k'|] eqn:Hadv; [|done].
  rewrite (IH k' Hr).
  destruct (p c && starts_with q t) eqn:Hm; [|done].
  apply andb_true_iff in Hm as [Hp Hq].
  destruct t as [|b t']; [done|]. simpl in Hq, Hr.
  destruct (Hpq c b Hp Hq) as (Hc1 & Hc2 & Hb1 & Hb2 & Hbad).
  unfold advance in Hadv, Hr. rewrite Hc1, Hc2 in Hadv. rewrite Hb1, Hb2 in Hr.
  destruct k as [| |g|a]; simplify_eq; try (by rewrite Hbad in Hr).
  destruct (split_pair a c); simplify_eq. by rewrite Hbad in Hr.
Qed.

Lemma pad_cons c t : t <> [] -> pad (c :: t) = pad t.
Proof. by destruct t. Qed.

Lemma spaced_not_nil k r :
  spaced final_normal k r -> (exists b, k = AfterGap b) -> r <> [].
Proof. intros Hr [b ->] ->. done. Qed.

Lemma spaced_sub_punct_from r : forall k st out,
  spaced final_normal k r ->
  punct_result k st r = Some out ->
  sub_punct_from st r = out.
Proof.
  induction r as [|c t IH]; intros k st out Hr Hout.
  - destruct k as [| |[]|a], st as [[|d []]|]; cbn in Hout; simplify_eq; try done.
  - simpl in Hr. destruct (advance k c) as [k'|] eqn:Hadv; [|done].
    cbn [sub_punct_from]. unfold advance in Hadv.
    destruct (isspace c) eqn:Hc.
    + destruct (Ascii.eqb c space) eqn:He; [|done].
      apply Ascii.eqb_eq in He. subst c.
      assert (Ht : t <> []).
      { apply (spaced_not_nil k'); [done|]. destruct k; simplify_eq; eauto. }
      destruct k as [| |[]|a], st as [[|d []]|]; cbn in Hout; simplify_eq.
      * apply (IH (AfterGap true)); [done|]. simpl. done.
      * apply (IH (AfterGap false)); [done|]. simpl.
        by rewrite (pad_cons _ _ Ht).
    + destruct (is_punct c) eqn:Hp.
      * assert (Hk : k' = AfterMark) by (destruct k as [| |[]|]; by simplify_eq).
        subst k'.
        assert (Hgoal : c :: space :: sub_punct_from Trail t
                        = (c :: t) ++ pad (c :: t)).
        { rewrite (IH AfterMark Trail _ Hr eq_refl).
          destruct t as [|d t']; [unfold pad; simpl; by rewrite Hp|].
          simpl in Hr. destruct (advance AfterMark d) as [k''|] eqn:Hd; [|done].
          unfold advance in Hd. destruct (isspace d) eqn:Hds; [|by destruct (is_punct d)].
          destruct (Ascii.eqb d space) eqn:He; [|done].
          apply Ascii.eqb_eq in He. subst d. simplify_eq.
          assert (Ht' : t' <> []) by (apply (spaced_not_nil (AfterGap true)); eauto).
          rewrite (pad_cons c (space :: t')) by done.
          by rewrite (pad_cons space t' Ht'). }
        destruct k as [| |[]|a], st as [[|d []]|]; cbn in Hout; simplify_eq; try done.
      * assert (Hrest : sub_punct_from (Scan []) t = t ++ pad (c :: t)).
        { assert (Hk : k' = AfterWord c).
          { destruct k as [| |[]|a]; simplify_eq; try done.
            destruct (split_pair a c); by simplify_eq. }
          subst k'. rewrite (IH (AfterWord c) (Scan []) _ Hr eq_refl).
          destruct t as [|d t']; [|by rewrite (pad_cons c (d :: t'))].
          unfold pad. simpl. by rewrite Hp. }
        rewrite Hrest.
        destruct k as [| |[]|a], st as [[|d []]|]; cbn in Hout; simplify_eq; try done.
        simpl in Hout. destruct (Ascii.eqb d space) eqn:He; simplify_eq.
        apply Ascii.eqb_eq in He. by subst d.
Qed.

Lemma lstrip_app_fixed r s : r <> [] -> lstrip r = r -> lstrip (r ++ s) = r ++ s.
Proof.
  destruct r as [|c t]; [done|]. intros _ H.
  apply lstrip_fixed_head in H. simpl. by rewrite H.
Qed.

Lemma ends_with_mark_not_nil r : ends_with_mark r = true -> r <> [].
Proof. by destruct r. Qed.

Theorem normal_fixed r : normal r -> MtUtils.normalize_text r = r.
Proof.
  intros Hr. unfold MtUtils.normalize_text.
  destruct r as [|c t]; [done|]. cbn [nonempty negb].
  remember (c :: t) as r eqn:Er. clear Er.
  assert (Hws : sub_ws (strip r) = r).
  { unfold strip. rewrite (spaced_lstrip _ _ Hr), (spaced_rstrip_fixed _ _ Hr).
    by apply (spaced_sub_ws_from final_normal _ AtStart). }
  rewrite Hws.
  rewrite (spaced_sub_pair is_lower is_upper final_normal r AtStart);
    [|apply upper_not_lower| |done].
  2:{ intros a b Ha Hb. unfold split_pair. rewrite Ha, Hb.
      repeat split; auto using lower_not_space, lower_not_punct, upper_not_space,
                 upper_not_punct. }
  rewrite (spaced_sub_pair is_digit is_upper final_normal r AtStart);
    [|apply upper_not_digit| |done].
  2:{ intros a b Ha Hb. unfold split_pair. rewrite Ha, Hb, orb_true_r.
      repeat split; auto using digit_not_space, digit_not_punct, upper_not_space,
                 upper_not_punct. }
  rewrite (spaced_sub_pair is_lower is_digit final_normal r AtStart);
    [|apply digit_not_lower| |done].
  2:{ intros a b Ha Hb. unfold split_pair. rewrite Ha, Hb, orb_true_r.
      repeat split; auto using lower_not_space, lower_not_punct, digit_not_space,
                 digit_not_punct. }
  unfold sub_punct.
  rewrite (spaced_sub_punct_from r AtStart (Scan []) _ Hr eq_refl).
  unfold pad. destruct (ends_with_mark r) eqn:Hm.
  - unfold strip.
    rewrite lstrip_app_fixed;
      [|by apply ends_with_mark_not_nil|by apply (spaced_lstrip final_normal)].
    rewrite (rstrip_snoc_space _ _ space_isspace).
    rewrite (spaced_rstrip_fixed _ _ Hr).
    by apply (spaced_sub_ws_from final_normal _ AtStart).
  - by rewrite app_nil_r.
Qed.

(** C8: [normalize_text] is idempotent. *)
Theorem normalize_text_idempotent x :
  MtUtils.normalize_text (MtUtils.normalize_text x) = MtUtils.normalize_text x.
Proof. apply normal_fixed, normalize_text_normal. Qed.

End Fixed.

(** ** The batch handler *)

Section BatchHandler.

Import Providers Models MtUtils Main.

Variable mt_provider : str.
Variable provider : Provider.

Lemma enumerate_from {A : Type} n (l : list A) :
  combine (seq n (length l)) l
  = match l with
    | [] => []
    | x :: rest => (n, x) :: combine (seq (S n) (length rest)) rest
    end.
Proof. by destruct l. Qed.

(** The first loop: every position gets its cache entry or [None], and the
    misses are collected with their indices, in order. *)
Lemma lookup_fold cache src tgt segments : forall n st,
  fold_left (lookup_step mt_provider cache src tgt)
            (combine (seq n (length segments)) segments) st
  = LookupState
      (translations st
       ++ map (cached_for mt_provider cache src tgt) segments)
      (uncached_indices st
       ++ miss_indices mt_provider cache src tgt n segments)
      (uncached_texts st
       ++ map normalize_text (misses mt_provider cache src tgt segments)).
Proof.
  induction segments as [|s rest IH]; intros n st.
  - simpl. rewrite !app_nil_r. by destruct st.
  - rewrite enumerate_from. cbn [fold_left]. rewrite IH.
    unfold lookup_step, misses. cbn [miss_indices map List.filter].
    unfold is_miss, cached_for.
    destruct (cache_get cache (cache_key s src tgt mt_provider));
      simpl; by rewrite <- ?app_assoc.
Qed.

Lemma fill_result request pairs : forall translations w,
  exists tasks,
    fill mt_provider request pairs translations w
    = (Ok (fill_list pairs translations),
       World (redis_client w) (provider_calls w) tasks).
Proof.
  induction pairs as [|[idx translation] rest IH];
    intros translations [cache calls tasks].
  - by exists tasks.
  - cbn [fill]. unfold bind, add_task_if_connected. simpl.
    destruct cache as [entries|].
    + destruct (IH (<[idx := Some translation]> translations)
                  (World (Some entries) calls
                     (tasks ++
                      [Setex (cache_key (default [] (segments request !! idx))
                                (batch_src request) (batch_tgt request)
                                mt_provider) 3600 translation])))
        as [tasks' Htasks].
      exists tasks'. by rewrite Htasks.
    + destruct (IH (<[idx := Some translation]> translations)
                  (World None calls tasks)) as [tasks' Htasks].
      exists tasks'. by rewrite Htasks.
Qed.

Lemma fill_list_length pairs : forall translations,
  length (fill_list pairs translations) = length translations.
Proof.
  induction pairs as [|[idx t] rest IH]; intros translations; [done|].
  unfold fill_list in *. cbn [fold_left]. by rewrite IH, length_insert.
Qed.

Section Merge.

Variable cache : option (gmap str str).
Variables src tgt : str.

Local Abbreviation cached_for := (cached_for mt_provider cache src tgt).
Local Abbreviation misses := (misses mt_provider cache src tgt).
Local Abbreviation miss_indices := (miss_indices mt_provider cache src tgt).
Local Abbreviation merge_in_order := (merge_in_order mt_provider cache src tgt).

Lemma merge_in_order_nil segments :
  merge_in_order segments [] = map cached_for segments.
Proof.
  induction segments as [|s rest IH]; [done|]. simpl.
  rewrite IH. by destruct (cached_for s).
Qed.

Lemma merge_in_order_length segments : forall translated,
  length (merge_in_order segments translated) = length segments.
Proof.
  induction segments as [|s rest IH]; intros translated; [done|].
  simpl. destruct (cached_for s); [simpl; by rewrite IH|].
  destruct translated; simpl; by rewrite IH.
Qed.

Lemma merge_in_order_no_miss segments translated :
  misses segments = [] ->
  merge_in_order segments translated = map cached_for segments.
Proof.
  induction segments as [|s rest IH]; [done|].
  unfold Props.misses. simpl. unfold is_miss.
  destruct (cached_for s); [|done]. intros H. by rewrite IH.
Qed.

(** Scattering the translated misses back gives the merge in order. *)
Lemma fill_list_merge segments : forall done translated,
  fill_list (combine (miss_indices (length done) segments) translated)
            (done ++ map cached_for segments)
  = done ++ merge_in_order segments translated.
Proof.
  induction segments as [|s rest IH]; intros done translated.
  - simpl. by destruct translated.
  - cbn [Props.miss_indices map Props.merge_in_order]. unfold is_miss.
    destruct (cached_for s) as [cached|] eqn:Hs.
    + specialize (IH (done ++ [Some cached]) translated).
      rewrite length_app, Nat.add_1_r, <- !app_assoc in IH. apply IH.
    + destruct translated as [|t translated'].
      * simpl. by rewrite merge_in_order_nil.
      * cbn [combine]. unfold fill_list. cbn [fold_left].
        rewrite insert_app_r_alt by lia. rewrite Nat.sub_diag.
        change (<[0%nat := Some t]> (None :: map cached_for rest))
          with (Some t :: map cached_for rest).
        specialize (IH (done ++ [Some t]) translated'). unfold fill_list in IH.
        rewrite length_app, Nat.add_1_r, <- !app_assoc in IH. apply IH.
Qed.

Lemma merge_in_order_lookup segments : forall translated i s,
  segments !! i = Some s ->
  merge_in_order segments translated !! i
  = Some (match cached_for s with
          | Some cached => Some cached
          | None => translated !! length (misses (firstn i segments))
          end).
Proof.
  induction segments as [|s0 rest IH]; intros translated i s Hi; [done|].
  destruct i as [|j].
  - simpl in Hi. simplify_eq. simpl.
    destruct (cached_for s); [done|]. by destruct translated.
  - simpl in Hi. cbn [Props.merge_in_order firstn].
    unfold Props.misses. cbn [List.filter]. unfold is_miss.
    destruct (cached_for s0).
    + simpl. by apply IH.
    + destruct translated as [|t translated']; simpl.
      * rewrite (IH [] j s Hi). by rewrite !lookup_nil.
      * by apply IH.
Qed.

Lemma merge_in_order_total segments : forall translated,
  (length (misses segments) <= length translated)%nat ->
  exists out, merge_in_order segments translated = map Some out.
Proof.
  induction segments as [|s rest IH]; intros translated Hlen.
  - by exists [].
  - unfold Props.misses in Hlen. cbn [List.filter] in Hlen.
    unfold is_miss in Hlen. simpl.
    destruct (cached_for s) as [cached|].
    + destruct (IH translated Hlen) as [out Hout].
      exists (cached :: out). by rewrite Hout.
    + destruct translated as [|t translated']; simpl in Hlen; [lia|].
      destruct (IH translated') as [out Hout]; [exact (le_S_n _ _ Hlen)|].
      exists (t :: out). by rewrite Hout.
Qed.

End Merge.

Lemma mapM_id_Some {A : Type} (l : list A) : mapM id (map Some l) = Some l.
Proof. apply mapM_Some_2. induction l; constructor; done. Qed.

(** What the handler returns and leaves behind when the pair is supported,
    the batch is small enough and the provider answers the miss list with
    as many translations. *)
Lemma translate_batch_run request cache calls tasks0 translated :
  let ms := misses mt_provider cache (batch_src request) (batch_tgt request)
                   (segments request) in
  validate_language_pair provider (batch_src request) (batch_tgt request)
  = true ->
  (length (segments request) <= 500)%nat ->
  (ms <> [] ->
   Providers.translate_batch provider (map normalize_text ms)
     (batch_src request) (batch_tgt request) = Ok translated) ->
  length translated = length ms ->
  exists out tasks,
    translate_batch mt_provider provider request (World cache calls tasks0)
    = (Ok {| response_segments := out;
             batch_response_src := batch_src request;
             batch_response_tgt := batch_tgt request;
             batch_response_provider := mt_provider;
             count := Z.of_nat (length (segments request));
             cached_count :=
               Z.of_nat (length (segments request)) - Z.of_nat (length ms) |},
       World cache
         (calls
          ++ match ms with
             | [] => []
             | _ :: _ =>
                 [CallTranslateBatch (map normalize_text ms)
                    (batch_src request) (batch_tgt request)]
             end)
         tasks)
    /\ map Some out
       = merge_in_order mt_provider cache (batch_src request)
           (batch_tgt request) (segments request) translated.
Proof.
  intros ms Hvalid Hsize Hprov Hlen.
  destruct (merge_in_order_total cache (batch_src request)
              (batch_tgt request) (segments request) translated)
    as [out Hout]; [fold ms; lia|].
  assert (Hcount : length out = length (segments request)).
  { apply (f_equal length) in Hout.
    by rewrite length_map, merge_in_order_length in Hout. }
  unfold translate_batch, except_500. rewrite Hvalid. cbn [negb].
  destruct (500 <? Z.of_nat (length (segments request))) eqn:Hbig;
    [apply Z.ltb_lt in Hbig; lia|].
  unfold enumerate. cbn [redis_client]. rewrite lookup_fold.
  cbn [translations uncached_indices uncached_texts app]. fold ms.
  unfold bind at 1.
  destruct ms as [|m ms'] eqn:Hms.
  - cbn [map ret]. unfold lift, build_response.
    rewrite <- (merge_in_order_no_miss cache _ _ _ translated Hms), Hout.
    rewrite mapM_id_Some, length_map, Hcount, app_nil_r.
    by exists out, tasks0.
  - cbn [map]. unfold bind, record_call, lift.
    cbn [redis_client provider_calls background_tasks].
    change (normalize_text m :: map normalize_text ms')
      with (map normalize_text (m :: ms')).
    rewrite (Hprov ltac:(done)).
    pose proof (fill_list_merge cache (batch_src request) (batch_tgt request)
                  (segments request) [] translated) as Hfill.
    cbn [length app] in Hfill.
    destruct (fill_result request
                (combine (miss_indices mt_provider cache (batch_src request)
                            (batch_tgt request) 0 (segments request))
                         translated)
                (map (cached_for mt_provider cache (batch_src request)
                        (batch_tgt request)) (segments request))
                (World cache
                   (calls ++
                    [CallTranslateBatch (map normalize_text (m :: ms'))
                       (batch_src request) (batch_tgt request)])
                   tasks0))
      as [tasks Htasks].
    rewrite Htasks, Hfill. unfold build_response.
    rewrite Hout, mapM_id_Some, !length_map, Hcount.
    by exists out, tasks.
Qed.

End BatchHandler.

(** ** The batch handler: order, length, scenario *)

Section BatchClaims.

Import Providers Models MtUtils Main.

Variable mt_provider : str.
Variable provider : Provider.

(** C1: when the pair is supported, the batch has at most 500 segments and
    the provider answers the miss list with as many translations, the
    handler returns a response whose i-th segment is the cache entry of the
    i-th input segment if it has one and otherwise the translation at the
    rank of that segment among the misses; the provider is called once,
    with the normalized miss list (not at all without misses), and
    [cached_count] is the number of segments minus the number of misses. *)
Theorem batch_order_preserved request cache calls tasks0 translated :
  let ms := misses mt_provider cache (batch_src request) (batch_tgt request)
                   (segments request) in
  validate_language_pair provider (batch_src request) (batch_tgt request)
  = true ->
  (length (segments request) <= 500)%nat ->
  (ms <> [] ->
   Providers.translate_batch provider (map normalize_text ms)
     (batch_src request) (batch_tgt request) = Ok translated) ->
  length translated = length ms ->
  exists resp w',
    translate_batch mt_provider provider request (World cache calls tasks0)
    = (Ok resp, w')
    /\ length (response_segments resp) = length (segments request)
    /\ (forall i,
          response_segments resp !! i
          = expected_at mt_provider cache (batch_src request)
              (batch_tgt request) (segments request) translated i)
    /\ cached_count resp
       = Z.of_nat (length (segments request)) - Z.of_nat (length ms)
    /\ provider_calls w'
       = calls ++ match ms with
                  | [] => []
                  | _ :: _ =>
                      [CallTranslateBatch (map normalize_text ms)
                         (batch_src request) (batch_tgt request)]
                  end.
Proof.
  intros ms Hvalid Hsize Hprov Hlen.
  destruct (translate_batch_run mt_provider provider request cache calls
              tasks0 translated Hvalid Hsize Hprov Hlen)
    as (out & tasks & Hrun & Hout).
  eexists _, _. split; [exact Hrun|]. cbn [response_segments cached_count
    provider_calls].
  assert (Hcount : length out = length (segments request)).
  { apply (f_equal length) in Hout.
    by rewrite length_map, merge_in_order_length in Hout. }
  split; [done|]. split; [|by split].
  intros i. unfold expected_at.
  destruct (segments request !! i) as [s|] eqn:Hi.
  - pose proof (merge_in_order_lookup mt_provider cache (batch_src request)
                  (batch_tgt request) _ translated i s Hi) as Hl.
    rewrite <- Hout, list_lookup_fmap in Hl.
    destruct (out !! i); simpl in Hl; by simplify_eq.
  - apply lookup_ge_None. apply lookup_ge_None in Hi. lia.
Qed.

(** The scenario of C1, for any provider and any cache that holds "A" for
    "a" and nothing for "b". *)
Lemma batch_scenario entries calls tasks0 translated_b :
  entries !! cache_key "a" "es" "en" mt_provider = Some ("A" : str) ->
  entries !! cache_key "b" "es" "en" mt_provider = None ->
  validate_language_pair provider "es" "en" = true ->
  Providers.translate_batch provider ["b" : str] "es" "en"
  = Ok [translated_b] ->
  exists tasks,
    translate_batch mt_provider provider
      {| segments := ["a" : str; "b" : str; "a" : str];
         batch_src := "es"; batch_tgt := "en" |}
      (World (Some entries) calls tasks0)
    = (Ok {| response_segments := ["A" : str; translated_b; "A" : str];
             batch_response_src := "es";
             batch_response_tgt := "en";
             batch_response_provider := mt_provider;
             count := 3;
             cached_count := 2 |},
       World (Some entries)
             (calls ++ [CallTranslateBatch ["b" : str] "es" "en"]) tasks).
Proof.
  intros Ha Hb Hvalid Hprov.
  assert (Hca : cached_for mt_provider (Some entries) "es" "en" "a"
                = Some ("A" : str))
    by (unfold cached_for, cache_get; by rewrite Ha).
  assert (Hcb : cached_for mt_provider (Some entries) "es" "en" "b" = None)
    by (unfold cached_for, cache_get; by rewrite Hb).
  assert (Hms : misses mt_provider (Some entries) "es" "en"
                  ["a" : str; "b" : str; "a" : str]
                = ["b" : str]).
  { unfold misses. cbn [List.filter]. unfold is_miss. by rewrite Hca, Hcb. }
  pose proof (translate_batch_run mt_provider provider
                {| segments := ["a" : str; "b" : str; "a" : str];
                   batch_src := "es"; batch_tgt := "en" |}
                (Some entries) calls tasks0 [translated_b]) as Hrun.
  cbv zeta in Hrun. cbn [segments batch_src batch_tgt] in Hrun.
  rewrite Hms in Hrun.
  destruct Hrun as (out & tasks & Hrun & Hout);
    [done | simpl; lia | done | done |].
  cbn [Props.merge_in_order] in Hout. rewrite Hca, Hcb in Hout.
  change (map Some out
          = map Some ["A" : str; translated_b; "A" : str]) in Hout.
  apply (inj (map Some)) in Hout. subst out.
  exists tasks. rewrite Hrun. reflexivity.
Qed.

(** Whatever the provider answers, a response that is returned has one
    segment for each segment of the validated request. *)
Lemma translate_batch_length request w resp w' :
  translate_batch mt_provider provider request w = (Ok resp, w') ->
  length (response_segments resp) = length (segments request).
Proof.
  destruct w as [cache calls tasks0].
  unfold translate_batch, except_500.
  destruct (validate_language_pair _ _ _); [|done]. cbn [negb].
  destruct (500 <? _); [done|].
  unfold enumerate. cbn [redis_client]. rewrite lookup_fold.
  cbn [translations uncached_indices uncached_texts app].
  set (cached := map _ (segments request)).
  assert (Hc : length cached = length (segments request))
    by (unfold cached; by rewrite length_map).
  unfold bind at 1.
  assert (Hbuild : forall filled n r w0,
            length filled = length (segments request) ->
            build_response mt_provider request filled n = Ok r ->
            (Ok r, w0) = (Ok resp, w') ->
            length (response_segments resp) = length (segments request)).
  { intros filled n r w0 Hf Hb [= <- _]. unfold build_response in Hb.
    destruct (mapM id filled) as [segs|] eqn:Hm; [|done].
    simplify_eq. simpl. apply length_mapM in Hm. lia. }
  destruct (map normalize_text _) as [|m ms'].
  - cbn [ret]. unfold lift.
    destruct (build_response _ _ _ _) eqn:Hb; [|done].
    by apply (Hbuild cached _ _ _ Hc Hb).
  - unfold bind, record_call, lift.
    cbn [redis_client provider_calls background_tasks].
    destruct (Providers.translate_batch _ _ _ _) as [translated|]; [|done].
    destruct (fill_result mt_provider request
                (combine (miss_indices mt_provider cache (batch_src request)
                            (batch_tgt request) 0 (segments request))
                         translated) cached
                (World cache (calls ++ [CallTranslateBatch (m :: ms')
                   (batch_src request) (batch_tgt request)]) tasks0))
      as [tasks Htasks].
    rewrite Htasks.
    destruct (build_response _ _ _ _) eqn:Hb; [|done].
    apply (Hbuild _ _ _ _ ltac:(by rewrite fill_list_length) Hb).
Qed.

End BatchClaims.

(** ** Validation of a batch, and the length of the response *)

Section BatchLength.

Import Providers Models MtUtils Main.

Variable mt_provider : str.
Variable provider : Provider.

Lemma validate_segments_filtered raw filtered :
  validate_segments raw = Ok filtered ->
  filtered = map strip (List.filter not_blank raw).
Proof.
  unfold validate_segments. destruct raw as [|r raw']; [done|].
  fold not_blank.
  destruct (map strip (List.filter not_blank (r :: raw'))) as [|f fs];
    [done|].
  destruct (List.find _ _); [done|]. by intros [= <-].
Qed.

Lemma parse_batch_request_segments raw_segments raw_src raw_tgt request :
  parse_batch_request raw_segments raw_src raw_tgt = Ok request ->
  segments request = map strip (List.filter not_blank raw_segments)
  /\ (length raw_segments <= 500)%nat.
Proof.
  unfold parse_batch_request.
  destruct (length_between 1 500 (Z.of_nat (length raw_segments))) eqn:Hn;
    [|done].
  destruct (length_between 2 5 (len raw_src)); [|done].
  destruct (length_between 2 5 (len raw_tgt)); [|done].
  cbn [andb negb].
  destruct (validate_segments raw_segments) as [filtered|] eqn:Hv; [|done].
  intros [= <-]. cbn [segments].
  split; [by apply validate_segments_filtered|].
  unfold length_between in Hn. apply andb_true_iff in Hn as [_ Hn].
  apply Z.leb_le in Hn. lia.
Qed.

Lemma filter_length_le {A : Type} (f : A -> bool) (l : list A) :
  (length (List.filter f l) <= length l)%nat.
Proof. induction l as [|a l IH]; simpl; [done|]. destruct (f a); simpl; lia. Qed.

(** C2 (as amended): the validator replaces the segments a client sent by
    the non-blank ones, stripped, in their order; the handler sees only
    these, and every response it returns has exactly one segment for each
    of them.  When the pair is supported and the provider answers the miss
    list with as many translations, a response is returned, and its length
    is the number of non-blank segments sent. *)
Theorem batch_response_length raw_segments raw_src raw_tgt request
    cache calls tasks0 :
  parse_batch_request raw_segments raw_src raw_tgt = Ok request ->
  segments request = map strip (List.filter not_blank raw_segments)
  /\ (forall resp w',
        translate_batch mt_provider provider request
          (World cache calls tasks0) = (Ok resp, w') ->
        length (response_segments resp)
        = length (List.filter not_blank raw_segments))
  /\ (forall translated,
        let ms := misses mt_provider cache (batch_src request)
                    (batch_tgt request) (segments request) in
        validate_language_pair provider (batch_src request)
          (batch_tgt request) = true ->
        (ms <> [] ->
         Providers.translate_batch provider (map normalize_text ms)
           (batch_src request) (batch_tgt request) = Ok translated) ->
        length translated = length ms ->
        exists resp w',
          translate_batch mt_provider provider request
            (World cache calls tasks0) = (Ok resp, w')
          /\ length (response_segments resp)
             = length (List.filter not_blank raw_segments)).
Proof.
  intros Hparse.
  destruct (parse_batch_request_segments _ _ _ _ Hparse) as [Hsegs Hsize].
  assert (Hlen : length (segments request)
                 = length (List.filter not_blank raw_segments))
    by (by rewrite Hsegs, length_map).
  split; [done|]. split.
  - intros resp w' Hrun. rewrite <- Hlen.
    by eapply translate_batch_length.
  - intros translated ms Hvalid Hprov Htr.
    destruct (translate_batch_run mt_provider provider request cache calls
                tasks0 translated Hvalid) as (out & tasks & Hrun & Hout);
      [|done|done|].
    { rewrite Hlen. pose proof (filter_length_le not_blank raw_segments). lia. }
    eexists _, _. split; [exact Hrun|]. rewrite <- Hlen.
    by eapply translate_batch_length.
Qed.

(** C5, on the code: a request for an unsupported pair is refused before
    the cache or the provider is touched, but the handlers' own
    [except Exception] catches the 400 error they raise and reports it with
    status 500. *)
Theorem unsupported_pair_reported_as_500 :
  (forall request w,
     validate_language_pair provider (src request) (tgt request) = false ->
     translate_text mt_provider provider request w
     = (Raise (HTTPException 500
                 (StrOf (unsupported_pair (src request) (tgt request)))), w))
  /\ (forall request w,
        validate_language_pair provider (batch_src request)
          (batch_tgt request) = false ->
        translate_batch mt_provider provider request w
        = (Raise (HTTPException 500
                    (StrOf (unsupported_pair (batch_src request)
                              (batch_tgt request)))), w)).
Proof.
  split; intros request w Hv.
  - unfold translate_text, except_500. by rewrite Hv.
  - unfold translate_batch, except_500. by rewrite Hv.
Qed.

End BatchLength.

(** ** The cache key *)

Section CacheKey.

Import Providers Models MtUtils Main.

Lemma bytes_le_length n : forall x, length (Digest.bytes_le n x) = n.
Proof. induction n as [|n IH]; intros x; simpl; [done|]. by rewrite IH. Qed.

Lemma md5_length bytes : length (Digest.md5 bytes) = 16%nat.
Proof. unfold Digest.md5. by rewrite !length_app, !bytes_le_length. Qed.

Lemma hex_length (l : list Z) :
  length (concat (map Digest.hex_byte l)) = (2 * length l)%nat.
Proof.
  induction l as [|b l IH]; [done|].
  cbn [map concat]. rewrite length_app, IH. simpl. lia.
Qed.

Lemma md5_hexdigest_length bytes :
  length (Digest.md5_hexdigest bytes) = 32%nat.
Proof. unfold Digest.md5_hexdigest. by rewrite hex_length, md5_length. Qed.

Lemma cache_key_length text src tgt provider_name :
  length (cache_key text src tgt provider_name) = 19%nat.
Proof.
  unfold cache_key. rewrite length_app, length_firstn, md5_hexdigest_length.
  reflexivity.
Qed.

Variable mt_provider : str.
Variable provider : Provider.

(** C7 (as amended): the cache key is "mt:" followed by the first 16
    hexadecimal characters of the MD5 digest of provider:src:tgt:text, 19
    characters in all, where text is the text of the request as validated
    (stripped, not normalized): [translate_text] answers from the entry
    stored under that key without calling the provider, and after a miss it
    stores the translation under that same key. *)
Theorem cache_key_of_request request entries calls tasks0 :
  let key :=
    cache_key (text request) (src request) (tgt request) mt_provider in
  validate_language_pair provider (src request) (tgt request) = true ->
  key = "mt:" ++ firstn 16
                   (Digest.md5_hexdigest
                      (Digest.encode
                         (mt_provider ++ ":" ++ src request ++ ":"
                          ++ tgt request ++ ":" ++ text request)))
  /\ length key = 19%nat
  /\ (forall cached : str,
        entries !! key = Some cached -> cached <> [] ->
        translate_text mt_provider provider request
          (World (Some entries) calls tasks0)
        = (Ok {| response_text := cached;
                 response_src := src request;
                 response_tgt := tgt request;
                 response_provider := mt_provider;
                 Models.cached := true |},
           World (Some entries) calls tasks0))
  /\ (forall translated : str,
        cache_get (Some entries) key = None ->
        Providers.translate provider (normalize_text (text request))
          (src request) (tgt request) = Ok translated ->
        translate_text mt_provider provider request
          (World (Some entries) calls tasks0)
        = (Ok {| response_text := translated;
                 response_src := src request;
                 response_tgt := tgt request;
                 response_provider := mt_provider;
                 Models.cached := false |},
           World (Some (<[key := translated]> entries))
                 (calls ++ [CallTranslate (normalize_text (text request))
                              (src request) (tgt request)])
                 tasks0)).
Proof.
  intros key Hvalid. subst key.
  split; [reflexivity|]. split; [apply cache_key_length|]. split.
  - intros cached Hentry Hne.
    unfold translate_text, except_500. rewrite Hvalid. cbn [negb].
    unfold bind, cached_value. cbn [redis_client cache_get].
    rewrite Hentry. by destruct cached.
  - intros translated Hmiss Htr.
    unfold translate_text, except_500. rewrite Hvalid. cbn [negb].
    unfold bind at 1. unfold cached_value. cbn [redis_client].
    rewrite Hmiss. unfold bind, record_call, lift, setex_if_connected, ret.
    cbn [redis_client provider_calls background_tasks]. by rewrite Htr.
Qed.

End CacheKey.

(** ** The LibreTranslate provider *)

Section LibreBatch.

Import Providers.

Variable post : payload -> http_outcome.

Lemma libre_translate_posts self text src tgt :
  initialized self = true ->
  snd (libre_translate post self text src tgt) = [Payload text src tgt].
Proof.
  intros Hinit. unfold libre_translate. rewrite Hinit. cbn [negb].
  by destruct (post _) as [[t|]|e].
Qed.

(** C6: [translate_batch] of the LibreTranslate provider calls [translate]
    once for each text (so that, once initialized, it posts one request per
    text), raises nothing, and returns a list as long as its input whose
    i-th element is the translation of the i-th text, or that text itself
    when its call failed. *)
Theorem libre_batch_falls_back self texts src tgt :
  exists translations,
    fst (libre_translate_batch post self texts src tgt) = Ok translations
    /\ length translations = length texts
    /\ (forall i text,
          texts !! i = Some text ->
          translations !! i
          = Some (match fst (libre_translate post self text src tgt) with
                  | Ok translated => translated
                  | Raise _ => text
                  end))
    /\ (initialized self = true ->
        snd (libre_translate_batch post self texts src tgt)
        = map (fun text => Payload text src tgt) texts).
Proof.
  eexists. split; [reflexivity|]. split; [|split].
  - by rewrite length_imap, !length_map.
  - intros i text Hi.
    rewrite list_lookup_imap, !list_lookup_fmap, Hi. simpl.
    destruct (fst (libre_translate post self text src tgt)); [done|].
    f_equal. change (default [] (texts !! i) = text).
    destruct (texts !! i); by simplify_eq.
  - intros Hinit. unfold libre_translate_batch. cbn [snd].
    induction texts as [|t rest IH]; [done|].
    cbn [map concat]. by rewrite IH, (libre_translate_posts _ _ _ _ Hinit).
Qed.

End LibreBatch.

(** ** Language detection *)

Section Detection.

Import MtUtils.

Variable detect : str -> result str.

(** C10: [detect_language] returns nothing for a text whose cleaned form
    has fewer than 10 characters, however long the text itself is; for a
    longer one it returns the detected code, except that "ca" and "pt" are
    returned as "es". *)
Theorem detection_remaps_and_needs_ten_characters text :
  (len (clean_for_detection text) < 10 -> detect_language detect text = None)
  /\ (forall detected,
        3 <= len (strip text) ->
        10 <= len (clean_for_detection text) ->
        detect (clean_for_detection text) = Ok detected ->
        detect_language detect text
        = Some (if eqb_str detected "ca" then "es" : str
                else if eqb_str detected "pt" then "es" : str
                else detected)).
Proof.
  unfold detect_language. split.
  - intros Hshort. destruct (_ || _); [done|].
    apply Z.ltb_lt in Hshort. by rewrite Hshort.
  - intros detected Hraw Hclean Hdet.
    assert (Hne : nonempty text = true).
    { destruct text; [|done]. unfold len in Hraw. simpl in Hraw. lia. }
    rewrite Hne. cbn [negb orb].
    destruct (len (strip text) <? 3) eqn:H3; [apply Z.ltb_lt in H3; lia|].
    destruct (len (clean_for_detection text) <? 10) eqn:H10;
      [apply Z.ltb_lt in H10; lia|].
    by rewrite Hdet.
Qed.

End Detection.

(** ** The scenarios, on concrete inputs *)

Section ConcreteScenarios.

Import Providers Models MtUtils Main.

(** The batch scenario of C1: "a" is answered from the cache at both of its
    positions, the provider is called with the miss list ["b"] only, and
    two of the three segments count as cached. *)
Lemma batch_order_preserved_witness :
  exists resp w',
    translate_batch "LIBRE" bracket_provider scenario_request
      (World (Some scenario_cache) [] []) = (Ok resp, w')
    /\ response_segments resp = ["A" : str; "<b>" : str; "A" : str]
    /\ cached_count resp = 2
    /\ provider_calls w' = [CallTranslateBatch ["b" : str] "es" "en"].
Proof.
  destruct (batch_order_preserved "LIBRE" bracket_provider scenario_request
              (Some scenario_cache) [] [] ["<b>" : str])
    as (resp & w' & Hrun & Hlen & Hidx & Hcount & Hcalls).
  - reflexivity.
  - simpl. lia.
  - intros _. vm_compute. reflexivity.
  - vm_compute. reflexivity.
  - exists resp, w'. split; [exact Hrun|]. split; [|split].
    + apply list_eq. intros i. rewrite Hidx.
      destruct i as [|[|[|i]]]; vm_compute; reflexivity.
    + rewrite Hcount. vm_compute. reflexivity.
    + rewrite Hcalls. vm_compute. reflexivity.
Defined.

(** C2 as stated fails: of the three segments a client sends, the empty one
    is filtered out by the validator, and the response has two segments. *)
Lemma filtered_batch_response_is_shorter :
  exists request resp w',
    parse_batch_request raw_with_blank "es" "en" = Ok request
    /\ translate_batch "LIBRE" bracket_provider request (World None [] [])
       = (Ok resp, w')
    /\ response_segments resp = ["<a>" : str; "<b>" : str]
    /\ length (response_segments resp) <> length raw_with_blank.
Proof.
  eexists _, _, _. split; [vm_compute; reflexivity|].
  split; [vm_compute; reflexivity|]. split; [reflexivity|].
  simpl. lia.
Qed.

Lemma batch_response_length_witness :
  parse_batch_request raw_with_blank "es" "en" = Ok request_without_blank
  /\ segments request_without_blank
     = map strip (List.filter not_blank raw_with_blank).
Proof.
  split; [reflexivity|].
  apply (batch_response_length "LIBRE" bracket_provider raw_with_blank
           "es" "en" request_without_blank None [] []).
  reflexivity.
Defined.

(** The failing input of C5: English to Spanish on LibreTranslate. *)
Lemma unsupported_pair_reported_as_500_witness :
  validate_language_pair (libre_provider flaky_post libre) "en" "es" = false
  /\ translate_text "LIBRE" (libre_provider flaky_post libre)
       english_to_spanish (World None [] [])
     = (Raise (HTTPException 500 (StrOf (unsupported_pair "en" "es"))),
        World None [] []).
Proof.
  split; [reflexivity|].
  apply (unsupported_pair_reported_as_500 "LIBRE"
           (libre_provider flaky_post libre)).
  reflexivity.
Defined.

(** C7 as stated fails: "a  b" and "a b" are kept as they are by the
    validator and normalize to the same text, and their cache keys
    differ. *)
Lemma texts_with_one_normal_form_have_two_keys :
  parse_request "a  b" "es" "en"
  = Ok {| text := "a  b"; src := "es"; tgt := "en" |}
  /\ parse_request "a b" "es" "en"
     = Ok {| text := "a b"; src := "es"; tgt := "en" |}
  /\ normalize_text "a  b" = normalize_text "a b"
  /\ cache_key "a  b" "es" "en" "LIBRE" <> cache_key "a b" "es" "en" "LIBRE".
Proof.
  split; [reflexivity|]. split; [reflexivity|]. split; [reflexivity|].
  vm_compute. discriminate.
Qed.

Lemma cache_key_of_request_witness :
  validate_language_pair bracket_provider "es" "en" = true
  /\ translate_text "LIBRE" bracket_provider spanish_to_english
       (World (Some hola_cache) [] [])
     = (Ok {| response_text := "hello";
              response_src := "es";
              response_tgt := "en";
              response_provider := "LIBRE";
              Models.cached := true |},
        World (Some hola_cache) [] []).
Proof.
  split; [reflexivity|].
  destruct (cache_key_of_request "LIBRE" bracket_provider spanish_to_english
              hola_cache [] []) as (_ & _ & Hhit & _); [reflexivity|].
  apply (Hhit ("hello" : str)); [vm_compute; reflexivity | discriminate].
Defined.

(** The scenario of C6: of three calls the one for "dos" times out; the
    batch has two translations and the original "dos", and raises
    nothing. *)
Lemma libre_batch_falls_back_witness :
  fst (libre_translate flaky_post libre "uno" "es" "en") = Ok ("one" : str)
  /\ (exists e,
        fst (libre_translate flaky_post libre "dos" "es" "en") = Raise e)
  /\ fst (libre_translate_batch flaky_post libre
            ["uno" : str; "dos" : str; "tres" : str] "es" "en")
     = Ok ["one" : str; "dos" : str; "three" : str].
Proof.
  split; [reflexivity|]. split; [eexists; reflexivity|].
  destruct (libre_batch_falls_back flaky_post libre
              ["uno" : str; "dos" : str; "tres" : str] "es" "en")
    as (translations & Hrun & Hlen & Hidx & _).
  rewrite Hrun. f_equal. apply list_eq. intros i.
  destruct i as [|[|[|i]]].
  - by rewrite (Hidx 0%nat ("uno" : str)).
  - by rewrite (Hidx 1%nat ("dos" : str)).
  - by rewrite (Hidx 2%nat ("tres" : str)).
  - simpl. apply lookup_ge_None. rewrite Hlen. simpl. lia.
Defined.

(** C10 on concrete texts: ten characters of digits and a space pass the
    three-character minimum and clean to nothing; a Catalan or Portuguese
    detection comes back as Spanish. *)
Lemma detection_remaps_and_needs_ten_characters_witness :
  3 <= len (strip "12345 6789")
  /\ detect_language (detects "en") "12345 6789" = None
  /\ detect_language (detects "ca") "Bon dia a tothom" = Some ("es" : str)
  /\ detect_language (detects "pt") "Bom dia a todos" = Some ("es" : str)
  /\ detect_language (detects "fr") "Bonjour tout le monde"
     = Some ("fr" : str).
Proof.
  split; [vm_compute; discriminate|].
  split.
  { apply (detection_remaps_and_needs_ten_characters (detects "en")
             "12345 6789"). vm_compute. reflexivity. }
  split.
  { apply (proj2 (detection_remaps_and_needs_ten_characters (detects "ca")
                    "Bon dia a tothom") ("ca" : str));
      [vm_compute; discriminate | vm_compute; discriminate | reflexivity]. }
  split.
  { apply (proj2 (detection_remaps_and_needs_ten_characters (detects "pt")
                    "Bom dia a todos") ("pt" : str));
      [vm_compute; discriminate | vm_compute; discriminate | reflexivity]. }
  apply (proj2 (detection_remaps_and_needs_ten_characters (detects "fr")
                  "Bonjour tout le monde") ("fr" : str));
    [vm_compute; discriminate | vm_compute; discriminate | reflexivity].
Defined.

End ConcreteScenarios.

(* ================================================================== *)
(** * Further properties *)
(* ================================================================== *)

(** ** Words are kept by the passes of the segmenter *)

Section WordsKept.

Import Segmenter.

Lemma split_ws_from_at_space s : forall cur c t,
  isspace c = true ->
  split_ws_from cur (s ++ c :: t) = split_ws_from cur s ++ split_ws t.
Proof.
  induction s as [|a s IH]; intros cur c t Hc; simpl.
  - rewrite Hc. by destruct cur.
  - destruct (isspace a); [|by apply IH].
    destruct cur; simpl; by rewrite IH.
Qed.

Lemma split_ws_from_single w : forall cur,
  single_word w -> cur ++ w <> [] -> split_ws_from cur w = [cur ++ w].
Proof.
  induction w as [|c w IH]; intros cur Hw Hne; simpl.
  - rewrite app_nil_r in *. by destruct cur.
  - apply Forall_cons in Hw as [Hc Hw]. rewrite Hc.
    rewrite IH; [by rewrite <- app_assoc | done |].
    by destruct cur.
Qed.

Lemma split_ws_from_blank s : forall cur,
  Forall (fun c => isspace c = true) s ->
  split_ws_from cur s = if nonempty cur then [cur] else [].
Proof.
  induction s as [|c s IH]; intros cur Hs; simpl; [done|].
  apply Forall_cons in Hs as [Hc Hs]. rewrite Hc, (IH [] Hs).
  by destruct cur.
Qed.

Lemma split_ws_join ws :
  Forall (fun w => single_word w /\ w <> []) ws ->
  split_ws (join [space] ws) = ws.
Proof.
  induction ws as [|w [|w' ws'] IH]; intros Hws; [done| |].
  - apply Forall_cons in Hws as [[Hw Hne] _]. simpl.
    by apply (split_ws_from_single w []).
  - apply Forall_cons in Hws as [[Hw Hne] Hrest].
    rewrite join_cons_cons. unfold split_ws in *. cbn [app].
    rewrite (split_ws_from_at_space w [] space _ space_isspace).
    rewrite (split_ws_from_single w [] Hw Hne). unfold split_ws.
    by rewrite (IH Hrest).
Qed.

Lemma split_ws_lstrip s : split_ws (lstrip s) = split_ws s.
Proof.
  unfold split_ws. induction s as [|c s IH]; simpl; [done|].
  destruct (isspace c) eqn:Hc; [done|]. simpl. by rewrite Hc.
Qed.

Lemma split_ws_from_rstrip s : forall cur,
  split_ws_from cur (rstrip s) = split_ws_from cur s.
Proof.
  induction s as [|c s IH]; intros cur; [done|]. simpl.
  destruct (rstrip s) as [|d s'] eqn:Hr.
  - destruct (isspace c) eqn:Hc; simpl; rewrite ?Hc.
    + destruct cur; simpl; by rewrite <- IH.
    + by rewrite <- IH.
  - change (split_ws_from cur (c :: d :: s'))
      with (if isspace c
            then (if nonempty cur then cur :: split_ws_from [] (d :: s')
                  else split_ws_from [] (d :: s'))
            else split_ws_from (cur ++ [c]) (d :: s')).
    by rewrite !IH.
Qed.

Lemma split_ws_strip s : split_ws (strip s) = split_ws s.
Proof.
  unfold strip, split_ws. rewrite split_ws_from_rstrip. apply split_ws_lstrip.
Qed.

Lemma words_of_app l1 l2 : words_of (l1 ++ l2) = words_of l1 ++ words_of l2.
Proof. unfold words_of. by rewrite map_app, concat_app. Qed.

Lemma words_of_cons s l : words_of (s :: l) = split_ws s ++ words_of l.
Proof. reflexivity. Qed.

Lemma words_of_one s : words_of [s] = split_ws s.
Proof. unfold words_of. simpl. apply app_nil_r. Qed.

Lemma split_ws_spaced a b :
  split_ws (a ++ space :: b) = split_ws a ++ split_ws b.
Proof. apply (split_ws_from_at_space a [] space b space_isspace). Qed.

Lemma words_of_joined groups :
  Forall (fun w => single_word w /\ w <> []) (concat groups) ->
  words_of (map (join [space]) groups) = concat groups.
Proof.
  induction groups as [|g gs IH]; intros Hg; [done|].
  cbn [concat] in Hg. apply Forall_app in Hg as [Hg Hgs].
  unfold words_of in *. cbn [map concat].
  by rewrite (split_ws_join g Hg), (IH Hgs).
Qed.

Lemma words_of_split_long_segment segment max_len :
  words_of (split_long_segment segment max_len) = split_ws segment.
Proof.
  destruct (split_long_segment_groups max_len segment)
    as (groups & -> & Hwords & _).
  rewrite words_of_joined; [done|].
  rewrite Hwords. apply split_ws_words.
Qed.

Lemma words_of_append_to_last l x :
  l <> [] ->
  words_of (append_to_last l (space :: x)) = words_of l ++ split_ws x.
Proof.
  induction l as [|a [|b l'] IH]; intros Hne; [done| |].
  - unfold words_of. simpl. rewrite !app_nil_r.
    apply (split_ws_from_at_space a [] space x space_isspace).
  - change (append_to_last (a :: b :: l') (space :: x))
      with (a :: append_to_last (b :: l') (space :: x)).
    unfold words_of in *. cbn [map concat].
    rewrite IH by done. cbn [map concat]. by rewrite <- !app_assoc.
Qed.

Lemma words_of_constrain_step min_len max_len constrained segment :
  words_of (constrain_step min_len max_len constrained segment)
  = words_of constrained ++ split_ws segment.
Proof.
  unfold constrain_step. destruct (len segment <? min_len).
  - destruct constrained as [|a l].
    + unfold words_of. simpl. by rewrite app_nil_r.
    + by apply words_of_append_to_last.
  - destruct (max_len <? len segment).
    + by rewrite words_of_app, words_of_split_long_segment.
    + rewrite words_of_app. unfold words_of. simpl. by rewrite app_nil_r.
Qed.

Lemma words_of_apply_length_constraints segments min_len max_len :
  words_of (apply_length_constraints segments min_len max_len)
  = words_of segments.
Proof.
  unfold apply_length_constraints.
  change (words_of segments) with (words_of [] ++ words_of segments).
  generalize (@nil str) as constrained.
  induction segments as [|s ss IH]; intros constrained; simpl.
  - by rewrite app_nil_r.
  - rewrite IH, words_of_constrain_step. unfold words_of. simpl.
    by rewrite <- app_assoc.
Qed.

Lemma words_of_merge_fold threshold rest : forall merged current,
  let '(merged', current') :=
    fold_left (merge_step threshold) rest (merged, current) in
  words_of (merged' ++ [current'])
  = words_of (merged ++ [current]) ++ words_of rest.
Proof.
  induction rest as [|s ss IH]; intros merged current; simpl.
  - by rewrite app_nil_r.
  - destruct (len current <? threshold).
    + specialize (IH merged (current ++ space :: s)).
      destruct (fold_left _ ss _) as [merged' current'].
      rewrite IH, !words_of_app, !words_of_one, words_of_cons, split_ws_spaced.
      by rewrite <- !app_assoc.
    + specialize (IH (merged ++ [current]) s).
      destruct (fold_left _ ss _) as [merged' current'].
      rewrite IH, !words_of_app, !words_of_one, words_of_cons.
      by rewrite <- !app_assoc.
Qed.

Lemma words_of_merge_short_segments segments threshold :
  words_of (merge_short_segments segments threshold) = words_of segments.
Proof.
  destruct segments as [|first rest]; [done|].
  unfold merge_short_segments.
  pose proof (words_of_merge_fold threshold rest [] first) as H.
  destruct (fold_left _ rest _) as [merged current].
  rewrite H. cbn [app]. by rewrite words_of_one, words_of_cons.
Qed.

Lemma words_of_strip_and_drop_empty l :
  words_of (strip_and_drop_empty l) = words_of l.
Proof.
  induction l as [|p rest IH]; [done|].
  cbn [strip_and_drop_empty]. unfold words_of in *. cbn [map concat].
  rewrite <- (split_ws_strip p), <- IH.
  by destruct (strip p).
Qed.

Variable re_split : str -> str -> option (list str).

(** X1: The passes that follow the rule (length constraints, merging, the final
    cleaning) keep the words of the candidates: none is lost, cut, joined
    to another or moved. *)
Theorem segment_text_keeps_words text options :
  nonempty (strip text) = true ->
  words_of (segment_text re_split text options)
  = words_of (rule_candidates re_split text options).
Proof.
  intros Hne. unfold segment_text. rewrite Hne. cbn [negb].
  rewrite words_of_strip_and_drop_empty.
  destruct options as [o|]; [|done].
  destruct (SegmentationOptions.merge_short_segments o).
  - by rewrite words_of_merge_short_segments,
               words_of_apply_length_constraints.
  - by rewrite words_of_apply_length_constraints.
Qed.

End WordsKept.

(** ** Edge cases and invariants of the segmenter *)

Section SegmenterEdges.

Import Segmenter.

Lemma merge_fold_threshold threshold rest : forall merged current,
  Forall (fun s => threshold <= len s) merged ->
  Forall (fun s => threshold <= len s)
         (fst (fold_left (merge_step threshold) rest (merged, current))).
Proof.
  induction rest as [|s ss IH]; intros merged current Hm; simpl; [done|].
  destruct (len current <? threshold) eqn:Hc; [by apply IH|].
  apply IH. apply Forall_app; split; [done|].
  apply Forall_cons; split; [|constructor]. by apply Z.ltb_ge.
Qed.

(** X2: [merge_short_segments] returns nothing for no segments; otherwise every
    segment it returns, except the last, is at least [threshold] long. *)
Theorem merge_short_segments_threshold segments threshold :
  match segments with
  | [] => merge_short_segments segments threshold = []
  | _ :: _ =>
      exists merged last,
        merge_short_segments segments threshold = merged ++ [last]
        /\ Forall (fun s => threshold <= len s) merged
  end.
Proof.
  destruct segments as [|first rest]; [done|].
  unfold merge_short_segments.
  pose proof (merge_fold_threshold threshold rest [] first
                ltac:(constructor)) as H.
  destruct (fold_left _ rest _) as [merged current].
  by exists merged, current.
Qed.

(** X3: A segment that is a single word is returned unsplit whatever
    [max_len] is, and a segment of whitespace gives no part at all. *)
Theorem split_long_segment_single_word segment max_len :
  (single_word segment -> segment <> [] ->
   split_long_segment segment max_len = [segment])
  /\ (Forall (fun c => isspace c = true) segment ->
      split_long_segment segment max_len = []).
Proof.
  split.
  - intros Hw Hne. unfold split_long_segment, split_ws.
    rewrite (split_ws_from_single segment [] Hw Hne). simpl.
    unfold split_step. simpl.
    by destruct (0 + (len segment + 1) <=? max_len).
  - intros Hb. unfold split_long_segment, split_ws.
    by rewrite (split_ws_from_blank segment [] Hb).
Qed.

Lemma strip_strip s : strip (strip s) = strip s.
Proof.
  unfold strip.
  rewrite (lstrip_rstrip_fixed (lstrip s) (lstrip_lstrip s)).
  apply rstrip_rstrip.
Qed.

Lemma strip_and_drop_empty_clean l :
  Forall clean_segment (strip_and_drop_empty l).
Proof.
  induction l as [|p rest IH]; simpl; [constructor|].
  destruct (strip p) as [|c t] eqn:Hp; simpl; [done|].
  apply Forall_cons; split; [|done].
  split; [done|]. rewrite <- Hp. apply strip_strip.
Qed.

Lemma lstrip_blank s : Forall (fun c => isspace c = true) s -> lstrip s = [].
Proof. induction 1 as [|c t Hc _ IH]; simpl; [done|]. by rewrite Hc. Qed.

Variable re_split : str -> str -> option (list str).

(** X4: Whatever the rule and the options, every segment [segment_text]
    returns is non-empty and has no whitespace at its ends; for a text of
    whitespace only it returns no segment. *)
Theorem segment_text_clean text options :
  Forall clean_segment (segment_text re_split text options)
  /\ (Forall (fun c => isspace c = true) text ->
      segment_text re_split text options = []).
Proof.
  unfold segment_text. split.
  - destruct (negb _); [constructor | apply strip_and_drop_empty_clean].
  - intros Hb. unfold strip. by rewrite (lstrip_blank text Hb).
Qed.

Lemma re_split_sentences_plain s : forall cur,
  Forall (fun c => is_terminator c = false) s ->
  re_split_sentences_from Plain cur s = [cur ++ s].
Proof.
  induction s as [|c t IH]; intros cur Hs; simpl.
  - by rewrite app_nil_r.
  - apply Forall_cons in Hs as [Hc Ht]. rewrite Hc, (IH _ Ht).
    by rewrite <- app_assoc.
Qed.

(** X5: A text without sentence terminators is one segment under the sentence
    rule: the stripped text, when no options are given or when it is not
    longer than the maximum of the options. *)
Theorem sentence_rule_without_terminators text options :
  Forall (fun c => is_terminator c = false) text ->
  nonempty (strip text) = true ->
  match options with
  | None => True
  | Some o =>
      SegmentationOptions.rule o = SENTENCE
      /\ len (strip text) <= SegmentationOptions.max_segment_length o
  end ->
  segment_text re_split text options = [strip text].
Proof.
  intros Hterm Hne Hopt.
  assert (Hcand : segment_by_sentences text = [strip text]).
  { unfold segment_by_sentences, re_split_sentences.
    rewrite (re_split_sentences_plain text [] Hterm). simpl.
    by rewrite Hne. }
  assert (Hclean : strip_and_drop_empty [strip text] = [strip text]).
  { simpl. by rewrite strip_strip, Hne. }
  unfold segment_text. rewrite Hne. cbn [negb].
  destruct options as [o|]; cbn [rule_candidates]; [|by rewrite Hcand].
  destruct Hopt as [-> Hmax]. rewrite Hcand.
  assert (Hc : apply_length_constraints [strip text]
                 (SegmentationOptions.min_segment_length o)
                 (SegmentationOptions.max_segment_length o) = [strip text]).
  { unfold apply_length_constraints, constrain_step. simpl.
    destruct (len (strip text) <? _); [done|].
    destruct (_ <? len (strip text)) eqn:Hl; [apply Z.ltb_lt in Hl; lia|].
    done. }
  rewrite Hc. by destruct (SegmentationOptions.merge_short_segments o).
Qed.

(** X6: Under the custom rule, an empty pattern list or a pattern the engine
    rejects gives exactly what the sentence rule gives. *)
Theorem custom_rule_falls_back text o :
  SegmentationOptions.rule o = CUSTOM ->
  no_usable_pattern re_split text o ->
  segment_text re_split text (Some o)
  = segment_text re_split text (Some (with_sentence_rule o)).
Proof.
  intros Hrule Hpat. unfold segment_text, rule_candidates.
  rewrite Hrule. cbn [with_sentence_rule SegmentationOptions.rule
    SegmentationOptions.min_segment_length
    SegmentationOptions.max_segment_length
    SegmentationOptions.merge_short_segments].
  unfold segment_by_custom_patterns, no_usable_pattern in *.
  destruct (SegmentationOptions.custom_patterns o) as [|pattern rest];
    [done|]. by rewrite Hpat.
Qed.

Lemma append_to_last_cons a l x :
  l <> [] -> append_to_last (a :: l) x = a :: append_to_last l x.
Proof. by destruct l. Qed.

Lemma append_to_last_grows P l x :
  (forall s, P s -> P (s ++ x)) ->
  Forall P l -> Forall P (append_to_last l x).
Proof.
  intros Hgrow. induction l as [|a [|b l'] IH]; intros Hl; [done| |].
  - apply Forall_cons in Hl as [Ha _]. simpl.
    apply Forall_cons; split; [by apply Hgrow | constructor].
  - apply Forall_cons in Hl as [Ha Hl].
    rewrite append_to_last_cons by done.
    apply Forall_cons; split; [done | by apply IH].
Qed.

Lemma constrain_fold_min min_len max_len segments : forall constrained,
  Forall (fun s => len s <= max_len) segments ->
  all_but_first (fun s => min_len <= len s) constrained ->
  all_but_first (fun s => min_len <= len s)
    (fold_left (constrain_step min_len max_len) segments constrained).
Proof.
  induction segments as [|s ss IH]; intros constrained Hmax Hc; [done|].
  apply Forall_cons in Hmax as [Hs Hss]. simpl. apply IH; [done|].
  unfold constrain_step.
  destruct (len s <? min_len) eqn:Hshort.
  - destruct constrained as [|a l]; [by constructor|].
    destruct l as [|b l']; [by constructor|].
    rewrite append_to_last_cons by done. cbn [all_but_first] in *.
    apply append_to_last_grows; [|done].
    intros s0 Hs0. rewrite len_app. unfold len in *. lia.
  - destruct (max_len <? len s) eqn:Hlong; [apply Z.ltb_lt in Hlong; lia|].
    apply Z.ltb_ge in Hshort.
    destruct constrained as [|a l]; simpl; [constructor|].
    apply Forall_app; split; [done|].
    apply Forall_cons; split; [done | constructor].
Qed.

(** X7: When no segment is longer than [max_len], every segment that
    [apply_length_constraints] returns, except possibly the first, is at
    least [min_len] long. *)
Theorem apply_length_constraints_min segments min_len max_len :
  Forall (fun s => len s <= max_len) segments ->
  all_but_first (fun s => min_len <= len s)
    (apply_length_constraints segments min_len max_len).
Proof. intros H. by apply constrain_fold_min. Qed.

End SegmenterEdges.

(** ** What a validated request looks like *)

Section ValidatedRequests.

Import Models.

Lemma eqb_str_eq a : forall b, eqb_str a b = true <-> a = b.
Proof.
  induction a as [|c a IH]; intros [|d b]; simpl; try done.
  rewrite andb_true_iff, Ascii.eqb_eq, IH. split; [by intros [-> ->]|].
  by intros [= -> ->].
Qed.

Lemma lower_char_not_upper c : is_upper (lower_char c) = false.
Proof. destruct c as [[] [] [] [] [] [] [] []]; reflexivity. Qed.

Lemma lower_not_upper s : Forall (fun c => is_upper c = false) (lower s).
Proof.
  unfold lower. apply Forall_map, Forall_forall. intros c _.
  apply lower_char_not_upper.
Qed.

Lemma language_code_shape v :
  Forall (fun c => is_upper c = false) (validate_language_codes v)
  /\ (2 <= len v -> 2 <= len (validate_language_codes v)).
Proof.
  unfold validate_language_codes.
  destruct (eqb_str v "ara"); [split; [by repeat constructor | done]|].
  destruct (eqb_str v "spa"); [split; [by repeat constructor | done]|].
  destruct (eqb_str v "fra"); [split; [by repeat constructor | done]|].
  destruct (eqb_str v "eng"); [split; [by repeat constructor | done]|].
  split; [apply lower_not_upper|].
  unfold len, lower. by rewrite length_map.
Qed.

(** X8: A language code comes out of its validator without capital letters
    A-Z and, if it had at least 2 characters, with at least 2: a
    three-letter code is replaced by its two-letter code only when it is
    written in lower case ("ara", "spa", "fra", "eng"); any other code is
    only lower-cased. *)
Theorem validate_language_codes_shape v :
  Forall (fun c => is_upper c = false) (validate_language_codes v)
  /\ (2 <= len v -> 2 <= len (validate_language_codes v))
  /\ (~ In v ["ara" : str; "spa" : str; "fra" : str; "eng" : str] ->
      validate_language_codes v = lower v).
Proof.
  split; [apply language_code_shape|]. split; [apply language_code_shape|].
  intros Hother. unfold validate_language_codes.
  destruct (eqb_str v "ara") eqn:E1;
    [apply eqb_str_eq in E1; exfalso; apply Hother; subst v; simpl; tauto|].
  destruct (eqb_str v "spa") eqn:E2;
    [apply eqb_str_eq in E2; exfalso; apply Hother; subst v; simpl; tauto|].
  destruct (eqb_str v "fra") eqn:E3;
    [apply eqb_str_eq in E3; exfalso; apply Hother; subst v; simpl; tauto|].
  destruct (eqb_str v "eng") eqn:E4;
    [apply eqb_str_eq in E4; exfalso; apply Hother; subst v; simpl; tauto|].
  reflexivity.
Qed.

Lemma find_none_forall {A : Type} (f : A -> bool) (l : list A) :
  List.find f l = None -> Forall (fun x => f x = false) l.
Proof.
  induction l as [|a l IH]; simpl; [constructor|].
  destruct (f a) eqn:Ha; [done|]. intros H. by constructor; [|apply IH].
Qed.

Lemma filtered_clean v :
  Forall clean_segment (map strip (List.filter not_blank v)).
Proof.
  induction v as [|s v IH]; simpl; [constructor|].
  unfold not_blank at 1. destruct (nonempty (strip s)) eqn:Hs; [|done].
  simpl. apply Forall_cons; split; [|done].
  split; [by destruct (strip s) | apply strip_strip].
Qed.

(** X9: The segments of a validated batch are the non-blank segments sent,
    stripped, in their order: there is at least one, none is empty or has
    whitespace at its ends, none is longer than 5000 characters; a batch of
    blank segments only is refused. *)
Theorem validate_segments_shape v :
  (forall filtered,
     validate_segments v = Ok filtered ->
     filtered = map strip (List.filter not_blank v)
     /\ filtered <> []
     /\ Forall (fun s => clean_segment s /\ len s <= 5000) filtered
     /\ (length filtered <= length v)%nat)
  /\ (List.filter not_blank v = [] ->
      exists e, validate_segments v = Raise e).
Proof.
  split.
  - intros filtered Hok.
    pose proof (validate_segments_filtered v filtered Hok) as Hf.
    split; [done|].
    unfold validate_segments in Hok. destruct v as [|r raw']; [done|].
    fold not_blank in Hok. rewrite <- Hf in Hok.
    destruct filtered as [|f fs] eqn:Hfs; [done|]. rewrite <- Hfs in *.
    destruct (List.find _ filtered) eqn:Hfind; [done|].
    apply find_none_forall in Hfind.
    split; [by rewrite Hfs|]. split.
    + pose proof (filtered_clean (r :: raw')) as Hclean.
      rewrite <- Hf in Hclean.
      apply Forall_forall. intros s Hs.
      rewrite Forall_forall in Hclean, Hfind.
      split; [by apply Hclean|].
      specialize (Hfind s Hs). simpl in Hfind. by apply Z.ltb_ge in Hfind.
    + rewrite Hf, length_map. apply filter_length_le.
  - intros Hblank. unfold validate_segments.
    destruct v as [|r raw']; [by eexists|].
    fold not_blank. rewrite Hblank. by eexists.
Qed.

(** X10: The text of a validated request is the text sent, stripped: it is
    not empty, has no whitespace at its ends and at most 5000 characters;
    the language codes have at least 2 characters and no capital letter
    A-Z. *)
Theorem parse_request_shape raw_text raw_src raw_tgt request :
  parse_request raw_text raw_src raw_tgt = Ok request ->
  text request = strip raw_text
  /\ clean_segment (text request)
  /\ len (text request) <= 5000
  /\ 2 <= len (src request)
  /\ 2 <= len (tgt request)
  /\ Forall (fun c => is_upper c = false) (src request ++ tgt request).
Proof.
  unfold parse_request, length_between.
  destruct (_ && _ && _) eqn:Hc; [|done]. cbn [negb].
  apply andb_true_iff in Hc as [Hc Ht]. apply andb_true_iff in Hc as [Hx Hs].
  apply andb_true_iff in Hx as [Hx1 Hx2].
  apply andb_true_iff in Hs as [Hs1 Hs2].
  apply andb_true_iff in Ht as [Ht1 Ht2].
  apply Z.leb_le in Hx1, Hx2, Hs1, Hs2, Ht1, Ht2.
  unfold validate_text.
  destruct (nonempty (strip raw_text)) eqn:Hne; [|done]. cbn [negb].
  intros [= <-]. cbn [text src tgt].
  split; [done|]. split; [split; [by destruct (strip raw_text) | apply strip_strip]|].
  split; [pose proof (strip_len raw_text); lia|].
  split; [by apply language_code_shape|].
  split; [by apply language_code_shape|].
  apply Forall_app; split; apply language_code_shape.
Qed.

End ValidatedRequests.

(** ** Single translations and the cache *)

Section TranslateText.

Import Providers Models MtUtils Main.

Variable mt_provider : str.
Variable provider : Provider.

Lemma translate_text_hit request cache calls tasks0 cached :
  validate_language_pair provider (src request) (tgt request) = true ->
  cache_get cache
    (cache_key (text request) (src request) (tgt request) mt_provider)
  = Some cached ->
  translate_text mt_provider provider request (World cache calls tasks0)
  = (Ok {| response_text := cached;
           response_src := src request;
           response_tgt := tgt request;
           response_provider := mt_provider;
           Models.cached := true |},
     World cache calls tasks0).
Proof.
  intros Hvalid Hget.
  unfold translate_text, except_500. rewrite Hvalid. cbn [negb].
  unfold bind, cached_value. cbn [redis_client]. by rewrite Hget.
Qed.

Lemma translate_text_miss request cache calls tasks0 :
  let key :=
    cache_key (text request) (src request) (tgt request) mt_provider in
  let normalized := normalize_text (text request) in
  validate_language_pair provider (src request) (tgt request) = true ->
  cache_get cache key = None ->
  translate_text mt_provider provider request (World cache calls tasks0)
  = match Providers.translate provider normalized (src request)
            (tgt request) with
    | Ok translated =>
        (Ok {| response_text := translated;
               response_src := src request;
               response_tgt := tgt request;
               response_provider := mt_provider;
               Models.cached := false |},
         World (stored cache key translated)
               (calls ++ [CallTranslate normalized (src request)
                            (tgt request)])
               tasks0)
    | Raise e =>
        (Raise (HTTPException 500 (StrOf e)),
         World cache
               (calls ++ [CallTranslate normalized (src request)
                            (tgt request)])
               tasks0)
    end.
Proof.
  intros key normalized Hvalid Hget. subst key normalized.
  unfold translate_text, except_500. rewrite Hvalid. cbn [negb].
  unfold bind at 1. unfold cached_value. cbn [redis_client]. rewrite Hget.
  unfold bind, record_call, lift, setex_if_connected, ret.
  cbn [redis_client provider_calls background_tasks].
  destruct (Providers.translate _ _ _ _); [|done].
  by destruct cache.
Qed.

Lemma cache_get_stored entries key (value : str) :
  cache_get (Some (<[key := value]> entries)) key
  = if nonempty value then Some value else None.
Proof. unfold cache_get. by rewrite lookup_insert_eq. Qed.

(** X12: Store, then look up: once a request has been translated with a
    connected cache, the same request is answered from the cache with that
    translation, without another call to the provider and without any
    change; unless the translation was the empty string, which is stored
    but never counts as a hit, so that the provider is called again. *)
Theorem translate_text_then_cached request entries calls tasks0 translated :
  let key :=
    cache_key (text request) (src request) (tgt request) mt_provider in
  let normalized := normalize_text (text request) in
  let after_first :=
    World (Some (<[key := translated]> entries))
          (calls ++ [CallTranslate normalized (src request) (tgt request)])
          tasks0 in
  validate_language_pair provider (src request) (tgt request) = true ->
  cache_get (Some entries) key = None ->
  Providers.translate provider normalized (src request) (tgt request)
  = Ok translated ->
  snd (translate_text mt_provider provider request
         (World (Some entries) calls tasks0)) = after_first
  /\ (translated <> [] ->
      translate_text mt_provider provider request after_first
      = (Ok {| response_text := translated;
               response_src := src request;
               response_tgt := tgt request;
               response_provider := mt_provider;
               Models.cached := true |},
         after_first))
  /\ (translated = [] ->
      provider_calls
        (snd (translate_text mt_provider provider request after_first))
      = provider_calls after_first
        ++ [CallTranslate normalized (src request) (tgt request)]).
Proof.
  intros key normalized after_first Hvalid Hmiss Htr.
  subst key normalized after_first. split; [|split].
  - rewrite (translate_text_miss request (Some entries) calls tasks0 Hvalid
               Hmiss), Htr. reflexivity.
  - intros Hne. apply translate_text_hit; [done|].
    rewrite cache_get_stored. by destruct translated.
  - intros ->. rewrite translate_text_miss; [|done|by rewrite cache_get_stored].
    by rewrite Htr.
Qed.

(** X13: When the provider fails, the caller gets status 500 with the
    provider's error, and nothing is written to the cache. *)
Theorem translate_text_provider_failure request cache calls tasks0 e :
  let key :=
    cache_key (text request) (src request) (tgt request) mt_provider in
  validate_language_pair provider (src request) (tgt request) = true ->
  cache_get cache key = None ->
  Providers.translate provider (normalize_text (text request))
    (src request) (tgt request) = Raise e ->
  exists w',
    translate_text mt_provider provider request (World cache calls tasks0)
    = (Raise (HTTPException 500 (StrOf e)), w')
    /\ redis_client w' = cache
    /\ background_tasks w' = tasks0.
Proof.
  intros key Hvalid Hmiss Hfail. subst key.
  rewrite (translate_text_miss request cache calls tasks0 Hvalid Hmiss), Hfail.
  by eexists.
Qed.

(** X14: Without a cache connection every request for a supported pair goes to
    the provider, with the normalized text, and its answer is the response;
    the world changes by that call only. *)
Theorem translate_text_without_cache request calls tasks0 translated :
  validate_language_pair provider (src request) (tgt request) = true ->
  Providers.translate provider (normalize_text (text request))
    (src request) (tgt request) = Ok translated ->
  translate_text mt_provider provider request (World None calls tasks0)
  = (Ok {| response_text := translated;
           response_src := src request;
           response_tgt := tgt request;
           response_provider := mt_provider;
           Models.cached := false |},
     World None
           (calls ++ [CallTranslate (normalize_text (text request))
                        (src request) (tgt request)])
           tasks0).
Proof.
  intros Hvalid Htr.
  rewrite (translate_text_miss request None calls tasks0 Hvalid eq_refl).
  by rewrite Htr.
Qed.

End TranslateText.

(** ** The batch handler, for every answer of the provider *)

Section BatchOutcome.

Import Providers Models MtUtils Main.

Variable mt_provider : str.
Variable provider : Provider.

Lemma fill_tasks request pairs : forall translations cache calls tasks,
  fill mt_provider request pairs translations (World cache calls tasks)
  = (Ok (fill_list pairs translations),
     World cache calls
       (tasks
        ++ match cache with
           | Some _ =>
               map (fun '(idx, translation) =>
                      Setex (cache_key (default [] (segments request !! idx))
                               (batch_src request) (batch_tgt request)
                               mt_provider) 3600 translation) pairs
           | None => []
           end)).
Proof.
  induction pairs as [|[idx translation] rest IH];
    intros translations cache calls tasks.
  - simpl. unfold ret. destruct cache; by rewrite app_nil_r.
  - cbn [fill]. unfold bind, add_task_if_connected. simpl.
    destruct cache as [entries|]; rewrite IH; unfold fill_list; simpl;
      [by rewrite <- app_assoc | done].
Qed.

Lemma writes_for_indices cache src tgt segments : forall before translated,
  map (fun '(idx, translation) =>
         Setex (cache_key (default [] ((before ++ segments) !! idx)) src tgt
                  mt_provider) 3600 translation)
      (combine (miss_indices mt_provider cache src tgt (length before) segments)
               translated)
  = writes_for mt_provider src tgt
      (misses mt_provider cache src tgt segments) translated.
Proof.
  induction segments as [|s rest IH]; intros before translated; [done|].
  unfold misses. cbn [miss_indices List.filter].
  destruct (is_miss mt_provider cache src tgt s).
  - destruct translated as [|t translated']; [done|].
    unfold writes_for. cbn [combine map]. rewrite list_lookup_middle by done.
    f_equal. specialize (IH (before ++ [s]) translated').
    rewrite length_app, Nat.add_1_r, <- app_assoc in IH. apply IH.
  - specialize (IH (before ++ [s]) translated).
    rewrite length_app, Nat.add_1_r, <- app_assoc in IH. apply IH.
Qed.

(** The handler, case by case: no miss, a provider that fails, a provider
    that answers. *)
Lemma translate_batch_outcome request cache calls tasks0 :
  let src := batch_src request in
  let tgt := batch_tgt request in
  let ms := misses mt_provider cache src tgt (segments request) in
  let call := CallTranslateBatch (map normalize_text ms) src tgt in
  validate_language_pair provider src tgt = true ->
  (length (segments request) <= 500)%nat ->
  translate_batch mt_provider provider request (World cache calls tasks0)
  = match ms with
    | [] =>
        (batch_result mt_provider request 0
           (map (cached_for mt_provider cache src tgt) (segments request)),
         World cache calls tasks0)
    | _ :: _ =>
        match Providers.translate_batch provider (map normalize_text ms)
                src tgt with
        | Raise e =>
            (Raise (HTTPException 500 (StrOf e)),
             World cache (calls ++ [call]) tasks0)
        | Ok translated =>
            (batch_result mt_provider request (length ms)
               (merge_in_order mt_provider cache src tgt (segments request)
                  translated),
             World cache (calls ++ [call])
               (tasks0
                ++ match cache with
                   | Some _ => writes_for mt_provider src tgt ms translated
                   | None => []
                   end))
        end
    end.
Proof.
  intros src tgt ms call Hvalid Hsize. subst src tgt call.
  unfold translate_batch, except_500. rewrite Hvalid. cbn [negb].
  destruct (500 <? Z.of_nat (length (segments request))) eqn:Hbig;
    [apply Z.ltb_lt in Hbig; lia|].
  unfold enumerate. cbn [redis_client]. rewrite lookup_fold.
  cbn [translations uncached_indices uncached_texts app]. fold ms.
  unfold bind at 1.
  destruct ms as [|m ms'] eqn:Hms.
  - cbn [map ret]. unfold lift, build_response, batch_result. simpl.
    by destruct (mapM id _).
  - cbn [map]. unfold bind, record_call, lift.
    cbn [redis_client provider_calls background_tasks].
    change (normalize_text m :: map normalize_text ms')
      with (map normalize_text (m :: ms')).
    destruct (Providers.translate_batch _ _ _ _) as [translated|e]; [|done].
    rewrite fill_tasks.
    pose proof (fill_list_merge mt_provider cache (batch_src request)
                  (batch_tgt request) (segments request) [] translated)
      as Hfill.
    cbn [length app] in Hfill. rewrite Hfill.
    pose proof (writes_for_indices cache (batch_src request)
                  (batch_tgt request) (segments request) [] translated)
      as Hw.
    cbn [length app] in Hw. rewrite Hw. fold ms. rewrite Hms.
    unfold build_response, batch_result. rewrite length_map.
    by destruct (mapM id _).
Qed.

Lemma misses_length cache src tgt segments :
  (length (misses mt_provider cache src tgt segments) <= length segments)%nat.
Proof. apply filter_length_le. Qed.

Lemma merge_in_order_short cache src tgt segments : forall translated,
  (length translated
   < length (misses mt_provider cache src tgt segments))%nat ->
  mapM id (merge_in_order mt_provider cache src tgt segments translated)
  = None.
Proof.
  induction segments as [|s rest IH]; intros translated Hlen;
    [simpl in Hlen; lia|].
  unfold misses in Hlen. cbn [List.filter] in Hlen. unfold is_miss in Hlen.
  apply mapM_None_2. simpl.
  destruct (cached_for mt_provider cache src tgt s) as [cached|].
  - apply Exists_cons_tl. apply mapM_None_1. by apply IH.
  - destruct translated as [|t translated'].
    + by apply Exists_cons_hd.
    + apply Exists_cons_tl. apply mapM_None_1. apply IH.
      exact (proj2 (Nat.succ_lt_mono _ _) Hlen).
Qed.

Lemma batch_result_ok request uncached merged resp :
  batch_result mt_provider request uncached merged = Ok resp ->
  length (response_segments resp) = length merged
  /\ count resp = Z.of_nat (length merged)
  /\ cached_count resp
     = Z.of_nat (length (segments request)) - Z.of_nat uncached
  /\ merged = map Some (response_segments resp).
Proof.
  unfold batch_result. destruct (mapM id merged) as [out|] eqn:Hm; [|done].
  intros [= <-]. cbn [response_segments count cached_count].
  split; [symmetry; by eapply length_mapM|]. split; [done|]. split; [done|].
  apply mapM_Some_1 in Hm. clear -Hm.
  induction Hm as [|x y l k Hxy _ IH]; [done|].
  simpl in *. by rewrite Hxy, IH.
Qed.

(** X15: A response that is returned is consistent: the pair is supported, there
    are at most 500 segments, [count] is the number of segments of the
    response and of the request, [cached_count] lies between 0 and [count],
    and the handler itself has written nothing to the cache. *)
Theorem translate_batch_response_consistent request w resp w' :
  translate_batch mt_provider provider request w = (Ok resp, w') ->
  validate_language_pair provider (batch_src request) (batch_tgt request)
  = true
  /\ (length (segments request) <= 500)%nat
  /\ length (response_segments resp) = length (segments request)
  /\ count resp = Z.of_nat (length (segments request))
  /\ 0 <= cached_count resp <= count resp
  /\ redis_client w' = redis_client w.
Proof.
  destruct w as [cache calls tasks0]. intros Hrun.
  assert (Hvalid : validate_language_pair provider (batch_src request)
                     (batch_tgt request) = true).
  { unfold translate_batch, except_500 in Hrun.
    by destruct (validate_language_pair _ _ _). }
  assert (Hsize : (length (segments request) <= 500)%nat).
  { unfold translate_batch, except_500 in Hrun. rewrite Hvalid in Hrun.
    cbn [negb] in Hrun.
    destruct (500 <? _) eqn:Hbig; [done|]. apply Z.ltb_ge in Hbig. lia. }
  split; [done|]. split; [done|].
  rewrite (translate_batch_outcome request cache calls tasks0 Hvalid Hsize)
    in Hrun.
  pose proof (misses_length cache (batch_src request) (batch_tgt request)
                (segments request)) as Hms.
  destruct (misses _ _ _ _ _) as [|m ms'] eqn:Hm.
  - injection Hrun as Hres <-.
    apply batch_result_ok in Hres as (Hl & Hc & Hcc & _).
    rewrite length_map in Hl, Hc. cbn [redis_client]. simpl in Hms.
    repeat split; try done; lia.
  - destruct (Providers.translate_batch _ _ _ _) as [translated|e]; [|done].
    injection Hrun as Hres <-.
    apply batch_result_ok in Hres as (Hl & Hc & Hcc & _).
    rewrite merge_in_order_length in Hl, Hc. cbn [redis_client]. simpl in Hms.
    repeat split; try done; lia.
Qed.

(** X16: No partial response: when the provider fails, or answers with fewer
    translations than there are misses, the caller gets status 500 and no
    response; the cache is left as it was. *)
Theorem translate_batch_no_partial_response request cache calls tasks0 :
  let src := batch_src request in
  let tgt := batch_tgt request in
  let ms := misses mt_provider cache src tgt (segments request) in
  validate_language_pair provider src tgt = true ->
  (length (segments request) <= 500)%nat ->
  match Providers.translate_batch provider (map normalize_text ms) src tgt
  with
  | Raise _ => ms <> []
  | Ok translated => (length translated < length ms)%nat
  end ->
  exists detail w',
    translate_batch mt_provider provider request (World cache calls tasks0)
    = (Raise (HTTPException 500 detail), w')
    /\ redis_client w' = cache.
Proof.
  intros src tgt ms Hvalid Hsize Hanswer. subst src tgt.
  rewrite (translate_batch_outcome request cache calls tasks0 Hvalid Hsize).
  fold ms.
  destruct (Providers.translate_batch _ _ _ _) as [translated|e] eqn:Hp.
  - destruct ms as [|m ms'] eqn:Hms; [simpl in Hanswer; lia|].
    unfold batch_result.
    rewrite merge_in_order_short by (fold ms; by rewrite Hms).
    by eexists _, _.
  - destruct ms as [|m ms']; [done|]. by eexists _, _.
Qed.

Lemma misses_without_cache src tgt segments :
  misses mt_provider None src tgt segments = segments.
Proof.
  unfold misses. induction segments as [|s l IH]; [done|].
  simpl. by rewrite IH.
Qed.

Lemma merge_without_cache src tgt segments : forall translated,
  length translated = length segments ->
  merge_in_order mt_provider None src tgt segments translated
  = map Some translated.
Proof.
  induction segments as [|s l IH]; intros [|t tr] Hlen; try done.
  simpl. f_equal. apply IH. simpl in Hlen. lia.
Qed.

(** X17: Without a cache connection the batch is passed through: the provider
    is called once with all the segments, normalized, its translations are
    the response, nothing counts as cached, and no cache write is
    scheduled. *)
Theorem translate_batch_without_cache request calls tasks0 translated :
  let src := batch_src request in
  let tgt := batch_tgt request in
  validate_language_pair provider src tgt = true ->
  (0 < length (segments request) <= 500)%nat ->
  Providers.translate_batch provider (map normalize_text (segments request))
    src tgt = Ok translated ->
  length translated = length (segments request) ->
  translate_batch mt_provider provider request (World None calls tasks0)
  = (Ok {| response_segments := translated;
           batch_response_src := src;
           batch_response_tgt := tgt;
           batch_response_provider := mt_provider;
           count := Z.of_nat (length (segments request));
           cached_count := 0 |},
     World None
       (calls ++ [CallTranslateBatch (map normalize_text (segments request))
                    src tgt])
       tasks0).
Proof.
  intros src tgt Hvalid [Hpos Hsize] Hp Hlen. subst src tgt.
  rewrite (translate_batch_outcome request None calls tasks0 Hvalid Hsize).
  rewrite misses_without_cache.
  destruct (segments request) as [|s l] eqn:Hsegs; [simpl in Hpos; lia|].
  rewrite <- Hsegs in *. rewrite Hp.
  unfold batch_result.
  rewrite (merge_without_cache _ _ _ _ Hlen), mapM_id_Some, length_map, Hlen.
  rewrite app_nil_r. do 3 f_equal. lia.
Qed.

End BatchOutcome.

(** ** A batch, its cache writes, and the same batch again *)

Section BatchThenCached.

Import Providers Models MtUtils Main.

Variable mt_provider : str.
Variable provider : Provider.

Lemma filter_none {A : Type} (f : A -> bool) (l : list A) :
  Forall (fun x => f x = false) l -> List.filter f l = [].
Proof.
  induction 1 as [|x l Hx _ IH]; [done|].
  cbn [List.filter]. by rewrite Hx.
Qed.

Lemma cache_get_insert entries key value k :
  value <> [] ->
  cache_get (Some entries) k <> None ->
  cache_get (Some (<[key := value]> entries)) k <> None.
Proof.
  intros Hv Hk. unfold cache_get in *.
  destruct (decide (key = k)) as [->|Hne].
  - rewrite lookup_insert_eq. by destruct value.
  - by rewrite lookup_insert_ne.
Qed.

Lemma apply_writes_keeps_hits writes : forall entries k,
  Forall (fun t => write_value t <> []) writes ->
  cache_get (Some entries) k <> None ->
  cache_get (Some (apply_writes writes entries)) k <> None.
Proof.
  induction writes as [|t rest IH]; intros entries k Hv Hk; [done|].
  apply Forall_cons in Hv as [Ht Hrest]. simpl.
  apply IH; [done|]. by apply cache_get_insert.
Qed.

Lemma apply_writes_makes_hits writes : forall entries k,
  Forall (fun t => write_value t <> []) writes ->
  Exists (fun t => write_key t = k) writes ->
  cache_get (Some (apply_writes writes entries)) k <> None.
Proof.
  induction writes as [|t rest IH]; intros entries k Hv Hex;
    [by apply Exists_nil in Hex|].
  apply Forall_cons in Hv as [Ht Hrest]. simpl.
  apply Exists_cons in Hex as [<- | Hex].
  - apply apply_writes_keeps_hits; [done|].
    unfold cache_get. rewrite lookup_insert_eq.
    by destruct (write_value t).
  - by apply IH.
Qed.

Lemma writes_for_values src tgt missed translated :
  Forall (fun t => t <> []) translated ->
  Forall (fun t => write_value t <> [])
         (writes_for mt_provider src tgt missed translated).
Proof.
  intros Hv. revert missed.
  induction Hv as [|t tr Ht _ IH]; intros [|s missed]; try constructor.
  - done.
  - apply IH.
Qed.

Lemma writes_for_keys src tgt missed : forall translated s,
  length translated = length missed ->
  In s missed ->
  Exists (fun t => write_key t = cache_key s src tgt mt_provider)
         (writes_for mt_provider src tgt missed translated).
Proof.
  induction missed as [|m missed IH]; intros [|t tr] s Hlen Hin; try done.
  destruct Hin as [-> | Hin].
  - by apply Exists_cons_hd.
  - apply Exists_cons_tl. apply IH; [|done]. simpl in Hlen. lia.
Qed.

(** X18: After a batch has been translated with a connected cache and its
    scheduled writes have run, every segment of the batch has a cache
    entry, provided no translation was the empty string: the same batch is
    then answered from the cache alone, with no call to the provider and
    [cached_count] equal to [count]. *)
Theorem batch_then_fully_cached request entries calls translated :
  let src := batch_src request in
  let tgt := batch_tgt request in
  let ms := misses mt_provider (Some entries) src tgt (segments request) in
  let after_batch :=
    run_background_tasks
      (snd (translate_batch mt_provider provider request
              (World (Some entries) calls []))) in
  validate_language_pair provider src tgt = true ->
  (length (segments request) <= 500)%nat ->
  Providers.translate_batch provider (map normalize_text ms) src tgt
  = Ok translated ->
  length translated = length ms ->
  Forall (fun t => t <> []) translated ->
  misses mt_provider (redis_client after_batch) src tgt (segments request)
  = []
  /\ exists resp,
       translate_batch mt_provider provider request after_batch
       = (Ok resp, after_batch)
       /\ cached_count resp = count resp.
Proof.
  intros src tgt ms after_batch Hvalid Hsize Hp Hlen Hne.
  assert (Hafter : exists calls',
            after_batch
            = World (Some (apply_writes
                             (writes_for mt_provider src tgt ms translated)
                             entries)) calls' []).
  { unfold after_batch.
    rewrite (translate_batch_outcome mt_provider provider request
               (Some entries) calls [] Hvalid Hsize).
    fold src tgt ms. destruct ms as [|m ms'] eqn:Hms.
    - destruct translated; [|done]. by eexists.
    - rewrite Hp. by eexists. }
  destruct Hafter as [calls' ->]. cbn [redis_client].
  set (entries' := apply_writes _ entries).
  assert (Hall : misses mt_provider (Some entries') src tgt
                   (segments request) = []).
  { unfold misses.
    assert (Forall (fun s => is_miss mt_provider (Some entries') src tgt s
                             = false) (segments request)) as Hf.
    { apply Forall_forall. intros s Hs. unfold is_miss, cached_for.
      destruct (cache_get (Some entries') (cache_key s src tgt mt_provider))
        eqn:Hget; [done|]. exfalso. revert Hget.
      destruct (is_miss mt_provider (Some entries) src tgt s) eqn:Hmiss.
      - apply apply_writes_makes_hits;
          [by apply writes_for_values|].
        apply writes_for_keys; [done|].
        unfold ms, misses. apply filter_In. split; [|done].
        by apply list_elem_of_In.
      - apply apply_writes_keeps_hits; [by apply writes_for_values|].
        unfold is_miss, cached_for in Hmiss.
        by destruct (cache_get (Some entries) _). }
    by apply filter_none. }
  split; [done|].
  rewrite (translate_batch_outcome mt_provider provider request
             (Some entries') calls' [] Hvalid Hsize).
  fold src tgt. rewrite Hall.
  destruct (merge_in_order_total mt_provider (Some entries') src tgt
              (segments request) []) as [out Hout];
    [by rewrite Hall|].
  rewrite merge_in_order_nil in Hout.
  unfold batch_result. rewrite Hout, mapM_id_Some, length_map.
  eexists. split; [reflexivity|]. cbn [cached_count count].
  apply (f_equal length) in Hout. rewrite !length_map in Hout. lia.
Qed.

End BatchThenCached.

(** ** The texts [normalize_text] returns *)

Section NormalizedShape.

Lemma punct_classes c :
  is_punct c = true ->
  is_lower c = false /\ is_upper c = false /\ is_digit c = false.
Proof.
  intros Hc. repeat split.
  - destruct (is_lower c) eqn:H; [|done].
    apply lower_not_punct in H. congruence.
  - destruct (is_upper c) eqn:H; [|done].
    apply upper_not_punct in H. congruence.
  - destruct (is_digit c) eqn:H; [|done].
    apply digit_not_punct in H. congruence.
Qed.

Lemma space_classes c :
  isspace c = true ->
  is_lower c = false /\ is_upper c = false /\ is_digit c = false.
Proof.
  intros Hc. repeat split.
  - destruct (is_lower c) eqn:H; [|done].
    apply lower_not_space in H. congruence.
  - destruct (is_upper c) eqn:H; [|done].
    apply upper_not_space in H. congruence.
  - destruct (is_digit c) eqn:H; [|done].
    apply digit_not_space in H. congruence.
Qed.

Lemma advance_pair k a k' b k'' :
  advance k a = Some k' -> advance k' b = Some k'' ->
  well_spaced_pair a b = true.
Proof.
  unfold advance, well_spaced_pair. intros Ha Hb.
  destruct (isspace a) eqn:Hsa.
  - destruct (Ascii.eqb a space) eqn:Ea; [|done].
    apply Ascii.eqb_eq in Ea. subst a.
    assert (Hk' : exists m, k' = AfterGap m)
      by (destruct k; simplify_eq; by eexists).
    destruct Hk' as [m ->].
    destruct (isspace b) eqn:Hsb.
    + by destruct (Ascii.eqb b space).
    + done.
  - destruct (is_punct a) eqn:Hpa.
    + assert (k' = AfterMark) by (destruct k as [| |[]|]; by simplify_eq).
      subst k'. unfold split_pair.
      destruct (punct_classes _ Hpa) as (-> & _ & ->).
      destruct (isspace b) eqn:Hsb.
      * destruct (Ascii.eqb b space); [done|done].
      * by destruct (is_punct b).
    + assert (k' = AfterWord a).
      { destruct k; simplify_eq; try done.
        by destruct (split_pair _ a); simplify_eq. }
      subst k'. destruct (isspace b) eqn:Hsb.
      * unfold split_pair.
        destruct (space_classes _ Hsb) as (_ & -> & ->).
        by rewrite !andb_false_r.
      * destruct (is_punct b) eqn:Hpb.
        -- unfold split_pair.
           destruct (punct_classes _ Hpb) as (_ & -> & ->).
           by rewrite !andb_false_r.
        -- by destruct (split_pair a b).
Qed.

Lemma spaced_adjacent final s : forall k,
  spaced final k s -> all_adjacent well_spaced_pair s = true.
Proof.
  induction s as [|a t IH]; intros k Hs; [done|].
  simpl in Hs. destruct (advance k a) as [k'|] eqn:Ha; [|done].
  destruct t as [|b t']; [done|].
  pose proof (IH _ Hs) as Ht.
  simpl in Hs. destruct (advance k' b) as [k''|] eqn:Hb; [|done].
  cbn [all_adjacent]. rewrite (advance_pair _ _ _ _ _ Ha Hb). exact Ht.
Qed.

Lemma spaced_plain_space final s : forall k,
  spaced final k s -> forallb plain_space s = true.
Proof.
  induction s as [|a t IH]; intros k Hs; [done|].
  simpl in Hs. destruct (advance k a) as [k'|] eqn:Ha; [|done].
  cbn [forallb]. rewrite (IH _ Hs), andb_true_r.
  unfold advance in Ha. unfold plain_space.
  destruct (isspace a); [|done]. by destruct (Ascii.eqb a space).
Qed.

(** X19: What [normalize_text] returns has no whitespace at its ends, no
    whitespace character other than the space, and no two neighbours that
    are both spaces, that form a pair the function splits (a lower-case
    letter or a digit before a capital, a lower-case letter before a
    digit), or that are a punctuation mark and something else than a
    space. *)
Theorem normalize_text_shape text :
  let r := MtUtils.normalize_text text in
  strip r = r
  /\ forallb plain_space r = true
  /\ all_adjacent well_spaced_pair r = true.
Proof.
  intros r. pose proof (normalize_text_normal text) as Hr. fold r in Hr.
  split; [|split].
  - unfold strip.
    by rewrite (spaced_lstrip _ _ Hr), (spaced_rstrip_fixed _ _ Hr).
  - exact (spaced_plain_space _ _ _ Hr).
  - exact (spaced_adjacent _ _ _ Hr).
Qed.

(** X20: The format service has its own [normalize_text]: it computes what the
    one of the gateway computes, and is idempotent as well. *)
Theorem format_normalize_text_idempotent text :
  FormatUtils.normalize_text text = MtUtils.normalize_text text
  /\ FormatUtils.normalize_text (FormatUtils.normalize_text text)
     = FormatUtils.normalize_text text.
Proof.
  split; [reflexivity|].
  change (MtUtils.normalize_text (MtUtils.normalize_text text)
          = MtUtils.normalize_text text).
  apply normal_fixed, normalize_text_normal.
Qed.

End NormalizedShape.

(** ** The cache key, the pairs of LibreTranslate and the detection endpoint *)

Section KeyFormat.

Import Main.

Lemma hex_digit_is_hex d : 0 <= d < 16 -> is_hex (Digest.hex_digit d) = true.
Proof.
  intros Hd.
  assert (H : d = 0 \/ d = 1 \/ d = 2 \/ d = 3 \/ d = 4 \/ d = 5 \/ d = 6
              \/ d = 7 \/ d = 8 \/ d = 9 \/ d = 10 \/ d = 11 \/ d = 12
              \/ d = 13 \/ d = 14 \/ d = 15) by lia.
  repeat (destruct H as [-> | H]; [reflexivity|]). by subst d.
Qed.

Lemma hex_byte_is_hex b :
  0 <= b < 256 -> forallb is_hex (Digest.hex_byte b) = true.
Proof.
  intros Hb. unfold Digest.hex_byte. cbn [forallb].
  rewrite !hex_digit_is_hex; [done| |].
  - apply Z.mod_pos_bound. lia.
  - split; [apply Z.div_pos; lia | apply Z.div_lt_upper_bound; lia].
Qed.

Lemma bytes_le_range n : forall x,
  Forall (fun b => 0 <= b < 256) (Digest.bytes_le n x).
Proof.
  induction n as [|n IH]; intros x; simpl; constructor; [|apply IH].
  apply Z.mod_pos_bound. lia.
Qed.

Lemma md5_range bytes : Forall (fun b => 0 <= b < 256) (Digest.md5 bytes).
Proof.
  unfold Digest.md5. repeat apply Forall_app_2; apply bytes_le_range.
Qed.

Lemma hexdigest_is_hex (l : list Z) :
  Forall (fun b => 0 <= b < 256) l ->
  forallb is_hex (concat (map Digest.hex_byte l)) = true.
Proof.
  induction 1 as [|b l Hb _ IH]; [done|].
  cbn [map concat]. rewrite forallb_app, IH, andb_true_r.
  by apply hex_byte_is_hex.
Qed.

Lemma forallb_firstn {A : Type} (f : A -> bool) n : forall l,
  forallb f l = true -> forallb f (firstn n l) = true.
Proof.
  induction n as [|n IH]; intros [|x l] H; try done.
  cbn [firstn forallb] in *. apply andb_true_iff in H as [-> H].
  by apply IH.
Qed.

(** X21: Every cache key is "mt:" followed by exactly 16 lower-case hexadecimal
    digits, whatever the text, the language codes and the provider name
    are. *)
Theorem cache_key_format text src tgt provider_name :
  exists digest : str,
    cache_key text src tgt provider_name = "mt:" ++ digest
    /\ length digest = 16%nat
    /\ forallb is_hex digest = true.
Proof.
  unfold cache_key. eexists. split; [reflexivity|]. split.
  - by rewrite length_firstn, md5_hexdigest_length.
  - apply forallb_firstn. unfold Digest.md5_hexdigest.
    apply hexdigest_is_hex, md5_range.
Qed.

End KeyFormat.

Section LibrePairs.

Import Providers MtUtils.

Variable post : payload -> http_outcome.

(** X22: With the pairs [initialize] builds, the LibreTranslate provider accepts
    a pair exactly when the source is Arabic, Spanish or French, the target
    is English or another one of these three: English is never accepted as
    a source, and no language is translated into itself. *)
Theorem libre_supported_pairs self src tgt :
  supported_pairs self = libre_pairs ->
  validate_language_pair (libre_provider post self) src tgt = true
  <-> In src ["ar" : str; "es" : str; "fr" : str]
      /\ In tgt ["en" : str; "ar" : str; "es" : str; "fr" : str]
      /\ src <> tgt.
Proof.
  intros Hpairs. unfold validate_language_pair, libre_provider.
  cbn [get_supported_languages]. rewrite Hpairs.
  let pairs := eval vm_compute in libre_pairs in
  change libre_pairs with pairs.
  cbn [existsb source target].
  rewrite !orb_true_iff, !andb_true_iff, !eqb_str_eq. cbn [In].
  split.
  - intros H. repeat destruct H as [H|H]; try done;
      destruct H as [<- <-]; (split; [tauto|split; [tauto|done]]).
  - intros (Hs & Ht & Hne).
    repeat destruct Hs as [Hs|Hs]; try done; subst src;
      repeat destruct Ht as [Ht|Ht]; try done; subst tgt; tauto.
Qed.

(** X23: Before [initialize] has succeeded, [translate] raises a RuntimeError,
    but [translate_batch] does not: it answers with the texts themselves,
    untranslated, and posts nothing. *)
Theorem libre_uninitialized_batch_echoes self texts src tgt :
  initialized self = false ->
  libre_translate_batch post self texts src tgt = (Ok texts, [])
  /\ forall text,
       libre_translate post self text src tgt
       = (Raise (Error "RuntimeError" (Text "Provider not initialized")), []).
Proof.
  intros Hinit.
  assert (Hone : forall text,
            libre_translate post self text src tgt
            = (Raise (Error "RuntimeError" (Text "Provider not initialized")),
               [])).
  { intros text. unfold libre_translate. by rewrite Hinit. }
  split; [|exact Hone].
  unfold libre_translate_batch. f_equal.
  - f_equal. apply list_eq. intros i.
    rewrite list_lookup_imap, !list_lookup_fmap.
    destruct (texts !! i) as [text|] eqn:Hi; [|done].
    cbn [fmap option_fmap option_map]. simpl. by rewrite Hone.
  - induction texts as [|text rest IH]; [done|].
    cbn [map concat]. by rewrite Hone, IH.
Qed.

End LibrePairs.

Section DetectEndpoint.

Import MtUtils Main Endpoints.

Variable detect : str -> result str.

(** X24: The detection endpoint never answers 400: for a text with fewer than
    three characters between its ends it raises the 400 inside its own
    [try], which turns it into a 500.  For any other text it answers, with
    what [detect_language] gives (possibly nothing) and with a preview of
    the text: the text itself up to 100 characters, otherwise its first
    100 characters and three dots. *)
Theorem detect_text_language_outcome text w :
  (len (strip text) < 3 ->
   detect_text_language detect text w
   = (Raise (HTTPException 500
               (StrOf (HTTPException 400
                         (Text "Text too short for detection")))), w))
  /\ (3 <= len (strip text) ->
      exists answer,
        detect_text_language detect text w = (Ok answer, w)
        /\ language answer = detect_language detect text
        /\ len (detection_text answer) <= 103
        /\ firstn 100 (detection_text answer) = firstn 100 text
        /\ (len text <= 100 -> detection_text answer = text)
        /\ (100 < len text ->
            detection_text answer = firstn 100 text ++ "...")).
Proof.
  unfold detect_text_language, except_500. split; intros Hlen.
  - apply Z.ltb_lt in Hlen. by rewrite Hlen.
  - apply Z.ltb_ge in Hlen. rewrite Hlen. cbn [ret].
    eexists. split; [reflexivity|]. cbn [language detection_text].
    split; [done|].
    destruct (100 <? len text) eqn:Hlong.
    + apply Z.ltb_lt in Hlong. unfold len in *.
      split; [|split; [|split]].
      * rewrite length_app, length_firstn.
        change (length (list_ascii_of_string "...")) with 3%nat. lia.
      * rewrite firstn_app, length_firstn.
        replace (100 - Nat.min 100 (length text))%nat with 0%nat by lia.
        cbn [firstn]. rewrite app_nil_r. by rewrite firstn_firstn.
      * lia.
      * done.
    + apply Z.ltb_ge in Hlong. unfold len in *.
      split; [|split; [done|split; [done|lia]]].
      pose proof (length_firstn 100 text). lia.
Qed.

End DetectEndpoint.

Section ParsedBatch.

Import Models.

Lemma validate_segments_bounded v filtered :
  validate_segments v = Ok filtered ->
  filtered <> [] /\ Forall (fun s => len s <= 5000) filtered.
Proof.
  intros Hok.
  pose proof (validate_segments_filtered v filtered Hok) as Hf.
  unfold validate_segments in Hok. destruct v as [|r raw']; [done|].
  fold not_blank in Hok. rewrite <- Hf in Hok.
  destruct filtered as [|f fs] eqn:Hfs; [done|]. rewrite <- Hfs in *.
  destruct (List.find _ filtered) eqn:Hfind; [done|].
  apply find_none_forall in Hfind.
  split; [by rewrite Hfs|].
  apply Forall_forall. intros s Hs. rewrite Forall_forall in Hfind.
  specialize (Hfind s Hs). simpl in Hfind. by apply Z.ltb_ge in Hfind.
Qed.

(** X11: A batch request that passes validation has between 1 and 500
    segments (so the size check of the handler can never fire), each
    stripped, non-empty and of at most 5000 characters, and language codes
    of at least 2 characters without capital letters A-Z. *)
Theorem parse_batch_request_shape raw_segments raw_src raw_tgt request :
  parse_batch_request raw_segments raw_src raw_tgt = Ok request ->
  segments request = map strip (List.filter not_blank raw_segments)
  /\ (1 <= length (segments request) <= 500)%nat
  /\ Forall (fun s => clean_segment s /\ len s <= 5000) (segments request)
  /\ 2 <= len (batch_src request)
  /\ 2 <= len (batch_tgt request)
  /\ Forall (fun c => is_upper c = false)
            (batch_src request ++ batch_tgt request).
Proof.
  unfold parse_batch_request, length_between.
  destruct (_ && _ && _) eqn:Hc; [|done]. cbn [negb].
  apply andb_true_iff in Hc as [Hc Ht]. apply andb_true_iff in Hc as [Hn Hs].
  apply andb_true_iff in Hn as [Hn1 Hn2].
  apply andb_true_iff in Hs as [Hs1 Hs2].
  apply andb_true_iff in Ht as [Ht1 Ht2].
  destruct (validate_segments raw_segments) as [filtered|e] eqn:Hv; [|done].
  intros [= <-]. cbn [segments batch_src batch_tgt].
  apply Z.leb_le in Hn1, Hn2, Hs1, Hs2, Ht1, Ht2.
  pose proof (validate_segments_filtered raw_segments filtered Hv) as Hf.
  pose proof (filtered_clean raw_segments) as Hclean.
  rewrite <- Hf in Hclean.
  destruct (validate_segments_bounded raw_segments filtered Hv)
    as [Hne Hbound].
  split; [done|]. split.
  { split.
    - destruct filtered; [done|]. simpl. lia.
    - pose proof (filter_length_le not_blank raw_segments) as Hle.
      rewrite Hf, length_map. lia. }
  split.
  { apply Forall_forall. intros s Hs.
    rewrite Forall_forall in Hclean, Hbound.
    split; [by apply Hclean | by apply Hbound]. }
  split; [by apply language_code_shape|].
  split; [by apply language_code_shape|].
  apply Forall_app; split; apply language_code_shape.
Qed.

End ParsedBatch.

(** ** The further properties on concrete inputs *)

Section FurtherScenarios.

Import Segmenter Providers Models MtUtils Main Endpoints.

Lemma segment_text_keeps_words_witness :
  nonempty (strip "one two three four five six. seven eight") = true
  /\ words_of (segment_text no_regex
                 "one two three four five six. seven eight"
                 (Some bounded_options))
     = words_of (rule_candidates no_regex
                   "one two three four five six. seven eight"
                   (Some bounded_options)).
Proof.
  split; [reflexivity|].
  apply (segment_text_keeps_words no_regex
           "one two three four five six. seven eight" (Some bounded_options)).
  reflexivity.
Defined.

Lemma split_long_segment_single_word_witness :
  single_word "unbreakable"
  /\ split_long_segment "unbreakable" 5 = ["unbreakable" : str]
  /\ split_long_segment "   " 5 = [].
Proof.
  assert (Hword : single_word "unbreakable") by (repeat constructor).
  split; [exact Hword|]. split.
  - apply (proj1 (split_long_segment_single_word "unbreakable" 5));
      [exact Hword | discriminate].
  - apply (proj2 (split_long_segment_single_word "   " 5)).
    repeat constructor.
Defined.

Lemma segment_text_clean_witness :
  Forall (fun c => isspace c = true) ("   " : str)
  /\ segment_text no_regex "   " (Some bounded_options) = [].
Proof.
  assert (Hblank : Forall (fun c => isspace c = true) ("   " : str))
    by (repeat constructor).
  split; [exact Hblank|].
  exact (proj2 (segment_text_clean no_regex "   " (Some bounded_options))
               Hblank).
Defined.

Lemma sentence_rule_without_terminators_witness :
  Forall (fun c => is_terminator c = false) (" hola " : str)
  /\ nonempty (strip " hola ") = true
  /\ SegmentationOptions.rule bounded_options = SENTENCE
  /\ len (strip " hola ")
     <= SegmentationOptions.max_segment_length bounded_options
  /\ segment_text no_regex " hola " (Some bounded_options)
     = ["hola" : str].
Proof.
  assert (Hterm : Forall (fun c => is_terminator c = false) (" hola " : str))
    by (repeat constructor).
  assert (Hlen : len (strip " hola ")
                 <= SegmentationOptions.max_segment_length bounded_options)
    by (vm_compute; discriminate).
  split; [exact Hterm|]. split; [reflexivity|]. split; [reflexivity|].
  split; [exact Hlen|].
  apply (sentence_rule_without_terminators no_regex " hola "
           (Some bounded_options)); [exact Hterm | reflexivity |].
  split; [reflexivity | exact Hlen].
Defined.

Lemma custom_rule_falls_back_witness :
  SegmentationOptions.rule custom_options = CUSTOM
  /\ no_usable_pattern no_regex "Uno. Dos" custom_options
  /\ segment_text no_regex "Uno. Dos" (Some custom_options)
     = segment_text no_regex "Uno. Dos"
         (Some (with_sentence_rule custom_options)).
Proof.
  split; [reflexivity|]. split; [reflexivity|].
  apply (custom_rule_falls_back no_regex "Uno. Dos" custom_options);
    reflexivity.
Defined.

Lemma apply_length_constraints_min_witness :
  Forall (fun s => len s <= 10) mixed_lengths
  /\ all_but_first (fun s => 3 <= len s)
       (apply_length_constraints mixed_lengths 3 10).
Proof.
  assert (Hmax : Forall (fun s => len s <= 10) mixed_lengths)
    by (repeat constructor; vm_compute; discriminate).
  split; [exact Hmax|].
  exact (apply_length_constraints_min mixed_lengths 3 10 Hmax).
Defined.

Lemma validate_language_codes_shape_witness :
  2 <= len "ENG"
  /\ ~ In ("ENG" : str) ["ara" : str; "spa" : str; "fra" : str; "eng" : str]
  /\ 2 <= len (validate_language_codes "ENG")
  /\ validate_language_codes "ENG" = "eng".
Proof.
  assert (Hlen : 2 <= len "ENG") by (vm_compute; discriminate).
  assert (Hother : ~ In ("ENG" : str)
                     ["ara" : str; "spa" : str; "fra" : str; "eng" : str])
    by (intros [H|[H|[H|[H|[]]]]]; discriminate).
  destruct (validate_language_codes_shape "ENG") as (_ & Hmin & Hlower).
  split; [exact Hlen|]. split; [exact Hother|].
  split; [exact (Hmin Hlen)|].
  rewrite (Hlower Hother). reflexivity.
Defined.

Lemma validate_segments_shape_witness :
  validate_segments raw_with_blank = Ok ["a" : str; "b" : str]
  /\ Forall (fun s => clean_segment s /\ len s <= 5000)
            ["a" : str; "b" : str]
  /\ List.filter not_blank ["" : str; "  " : str] = []
  /\ exists e, validate_segments ["" : str; "  " : str] = Raise e.
Proof.
  split; [reflexivity|]. split.
  - destruct (proj1 (validate_segments_shape raw_with_blank)
                    ["a" : str; "b" : str]) as (_ & _ & Hshape & _);
      [reflexivity | exact Hshape].
  - split; [reflexivity|].
    apply (proj2 (validate_segments_shape ["" : str; "  " : str])).
    reflexivity.
Defined.

Lemma parse_request_shape_witness :
  parse_request " hola " "spa" "EN" = Ok spanish_to_english
  /\ clean_segment (text spanish_to_english)
  /\ Forall (fun c => is_upper c = false)
            (src spanish_to_english ++ tgt spanish_to_english).
Proof.
  split; [reflexivity|].
  destruct (parse_request_shape " hola " "spa" "EN" spanish_to_english)
    as (_ & Hclean & _ & _ & _ & Hcodes); [reflexivity|].
  split; [exact Hclean | exact Hcodes].
Defined.

Lemma parse_batch_request_shape_witness :
  parse_batch_request raw_with_blank "es" "en" = Ok request_without_blank
  /\ (1 <= length (segments request_without_blank) <= 500)%nat
  /\ Forall (fun s => clean_segment s /\ len s <= 5000)
            (segments request_without_blank).
Proof.
  split; [reflexivity|].
  destruct (parse_batch_request_shape raw_with_blank "es" "en"
              request_without_blank)
    as (_ & Hsize & Hshape & _); [reflexivity|].
  split; [exact Hsize | exact Hshape].
Defined.

Lemma translate_text_then_cached_witness :
  let key := cache_key "hola" "es" "en" "LIBRE" in
  let after_first :=
    World (Some (<[key := ("<hola>" : str)]> ∅))
          [CallTranslate "hola" "es" "en"] [] in
  cache_get (Some ∅) key = None
  /\ snd (translate_text "LIBRE" bracket_provider spanish_to_english
            (World (Some ∅) [] [])) = after_first
  /\ translate_text "LIBRE" bracket_provider spanish_to_english after_first
     = (Ok {| response_text := "<hola>";
              response_src := "es";
              response_tgt := "en";
              response_provider := "LIBRE";
              Models.cached := true |},
        after_first).
Proof.
  intros key after_first.
  assert (Hmiss : cache_get (Some ∅) key = None) by reflexivity.
  split; [exact Hmiss|].
  destruct (translate_text_then_cached "LIBRE" bracket_provider
              spanish_to_english ∅ [] [] "<hola>")
    as (Hfirst & Hhit & _); [reflexivity | exact Hmiss | reflexivity |].
  split; [exact Hfirst|]. apply Hhit. discriminate.
Defined.

Lemma translate_text_provider_failure_witness :
  validate_language_pair failing_provider "es" "en" = true
  /\ exists w',
       translate_text "LIBRE" failing_provider spanish_to_english
         (World (Some scenario_cache) [] [])
       = (Raise (HTTPException 500 (StrOf out_of_memory)), w')
       /\ redis_client w' = Some scenario_cache
       /\ background_tasks w' = [].
Proof.
  split; [reflexivity|].
  apply (translate_text_provider_failure "LIBRE" failing_provider
           spanish_to_english (Some scenario_cache) [] [] out_of_memory).
  - reflexivity.
  - vm_compute. reflexivity.
  - reflexivity.
Defined.

Lemma translate_text_without_cache_witness :
  validate_language_pair bracket_provider "es" "en" = true
  /\ translate_text "LIBRE" bracket_provider spanish_to_english
       (World None [] [])
     = (Ok {| response_text := "<hola>";
              response_src := "es";
              response_tgt := "en";
              response_provider := "LIBRE";
              Models.cached := false |},
        World None [CallTranslate "hola" "es" "en"] []).
Proof.
  split; [reflexivity|].
  apply (translate_text_without_cache "LIBRE" bracket_provider
           spanish_to_english [] [] "<hola>"); reflexivity.
Defined.

Lemma translate_batch_response_consistent_witness :
  exists resp w',
    translate_batch "LIBRE" bracket_provider scenario_request
      (World (Some scenario_cache) [] []) = (Ok resp, w')
    /\ length (response_segments resp) = 3%nat
    /\ 0 <= cached_count resp <= count resp
    /\ redis_client w' = Some scenario_cache.
Proof.
  destruct (translate_batch "LIBRE" bracket_provider scenario_request
              (World (Some scenario_cache) [] [])) as [[resp|e] w'] eqn:Hrun;
    [|vm_compute in Hrun; discriminate].
  exists resp, w'. split; [reflexivity|].
  destruct (translate_batch_response_consistent "LIBRE" bracket_provider
              scenario_request (World (Some scenario_cache) [] []) resp w'
              Hrun)
    as (_ & _ & Hlen & _ & Hcached & Hcache).
  split; [exact Hlen|]. split; [exact Hcached | exact Hcache].
Defined.

Lemma translate_batch_no_partial_response_witness :
  validate_language_pair failing_provider "es" "en" = true
  /\ misses "LIBRE" (Some scenario_cache) "es" "en"
       (segments scenario_request) <> []
  /\ exists detail w',
       translate_batch "LIBRE" failing_provider scenario_request
         (World (Some scenario_cache) [] [])
       = (Raise (HTTPException 500 detail), w')
       /\ redis_client w' = Some scenario_cache.
Proof.
  assert (Hmiss : misses "LIBRE" (Some scenario_cache) "es" "en"
                    (segments scenario_request) <> [])
    by (vm_compute; discriminate).
  split; [reflexivity|]. split; [exact Hmiss|].
  apply (translate_batch_no_partial_response "LIBRE" failing_provider
           scenario_request (Some scenario_cache) [] []).
  - reflexivity.
  - simpl. lia.
  - exact Hmiss.
Defined.

Lemma translate_batch_without_cache_witness :
  validate_language_pair bracket_provider "es" "en" = true
  /\ translate_batch "LIBRE" bracket_provider scenario_request
       (World None [] [])
     = (Ok {| response_segments := ["<a>" : str; "<b>" : str; "<a>" : str];
              batch_response_src := "es";
              batch_response_tgt := "en";
              batch_response_provider := "LIBRE";
              count := 3;
              cached_count := 0 |},
        World None
          [CallTranslateBatch ["a" : str; "b" : str; "a" : str] "es" "en"]
          []).
Proof.
  split; [reflexivity|].
  apply (translate_batch_without_cache "LIBRE" bracket_provider
           scenario_request [] [] ["<a>" : str; "<b>" : str; "<a>" : str]).
  - reflexivity.
  - simpl. lia.
  - reflexivity.
  - reflexivity.
Defined.

Lemma batch_then_fully_cached_witness :
  let after_batch :=
    run_background_tasks
      (snd (translate_batch "LIBRE" bracket_provider scenario_request
              (World (Some scenario_cache) [] []))) in
  Providers.translate_batch bracket_provider
    (map normalize_text
       (misses "LIBRE" (Some scenario_cache) "es" "en"
          (segments scenario_request))) "es" "en"
  = Ok ["<b>" : str]
  /\ misses "LIBRE" (redis_client after_batch) "es" "en"
       (segments scenario_request) = []
  /\ exists resp,
       translate_batch "LIBRE" bracket_provider scenario_request after_batch
       = (Ok resp, after_batch)
       /\ cached_count resp = count resp.
Proof.
  intros after_batch.
  assert (Hanswer :
            Providers.translate_batch bracket_provider
              (map normalize_text
                 (misses "LIBRE" (Some scenario_cache) "es" "en"
                    (segments scenario_request))) "es" "en"
            = Ok ["<b>" : str])
    by (vm_compute; reflexivity).
  split; [exact Hanswer|].
  apply (batch_then_fully_cached "LIBRE" bracket_provider scenario_request
           scenario_cache [] ["<b>" : str]).
  - reflexivity.
  - simpl. lia.
  - exact Hanswer.
  - vm_compute. reflexivity.
  - repeat constructor; discriminate.
Defined.

Lemma libre_supported_pairs_witness :
  supported_pairs libre = libre_pairs
  /\ validate_language_pair (libre_provider flaky_post libre) "es" "en"
     = true
  /\ validate_language_pair (libre_provider flaky_post libre) "en" "es"
     <> true.
Proof.
  split; [reflexivity|]. split.
  - apply (libre_supported_pairs flaky_post libre "es" "en");
      [reflexivity|].
    split; [right; left; reflexivity|].
    split; [left; reflexivity | discriminate].
  - intros Hen.
    apply (libre_supported_pairs flaky_post libre "en" "es") in Hen;
      [|reflexivity].
    destruct Hen as [[H|[H|[H|[]]]] _]; discriminate.
Defined.

Lemma libre_uninitialized_batch_echoes_witness :
  initialized libre_before_initialize = false
  /\ libre_translate_batch flaky_post libre_before_initialize
       ["uno" : str; "dos" : str] "es" "en"
     = (Ok ["uno" : str; "dos" : str], []).
Proof.
  split; [reflexivity|].
  apply (libre_uninitialized_batch_echoes flaky_post libre_before_initialize
           ["uno" : str; "dos" : str] "es" "en").
  reflexivity.
Defined.

Lemma detect_text_language_outcome_witness :
  len (strip " a ") < 3
  /\ detect_text_language (detects "es") " a " (World None [] [])
     = (Raise (HTTPException 500
                 (StrOf (HTTPException 400
                           (Text "Text too short for detection")))),
        World None [] [])
  /\ 3 <= len (strip "hola")
  /\ (exists answer,
        detect_text_language (detects "es") "hola" (World None [] [])
        = (Ok answer, World None [] [])
        /\ language answer = None
        /\ detection_text answer = "hola")
  /\ 100 < len long_text
  /\ exists answer,
       detect_text_language (detects "es") long_text (World None [] [])
       = (Ok answer, World None [] [])
       /\ language answer = Some ("es" : str)
       /\ detection_text answer = repeat "a"%char 100 ++ "...".
Proof.
  assert (Hshort : len (strip " a ") < 3) by reflexivity.
  assert (Hhola : 3 <= len (strip "hola")) by (vm_compute; discriminate).
  assert (Hstrip : 3 <= len (strip long_text))
    by (vm_compute; discriminate).
  assert (Hlong : 100 < len long_text) by reflexivity.
  split; [exact Hshort|]. split.
  { exact (proj1 (detect_text_language_outcome (detects "es") " a "
                    (World None [] [])) Hshort). }
  split; [exact Hhola|]. split.
  { destruct (proj2 (detect_text_language_outcome (detects "es") "hola"
                       (World None [] [])) Hhola)
      as (answer & Hrun & Hlang & _ & _ & Hsame & _).
    exists answer. split; [exact Hrun|]. split.
    - rewrite Hlang. reflexivity.
    - apply Hsame. vm_compute. discriminate. }
  split; [exact Hlong|].
  destruct (proj2 (detect_text_language_outcome (detects "es") long_text
                     (World None [] [])) Hstrip)
    as (answer & Hrun & Hlang & _ & _ & _ & Hdots).
  exists answer. split; [exact Hrun|]. split.
  - rewrite Hlang. reflexivity.
  - rewrite (Hdots Hlong). reflexivity.
Defined.

End FurtherScenarios.
